(** * lfw-import: harvesting a product catalogue into a triple store

    A shallow embedding of [app.js] (the reconciliation core: identity
    resolution, find-or-create of linked resources, delete-then-insert of
    property groups, picture synchronisation, supplier loading, the job
    life cycle and the page walk) and the properties of it that the
    specification states.

    The triple store is a finite set of triples.  Every [update] of the
    source is the set transformation its SPARQL text denotes, every
    [query] a function of the set.  [uuid()] hands out the next value of a
    counter; an IRI built around a uuid keeps the uuid visible, so that
    two minted IRIs are equal exactly when prefix, uuid and suffix are. *)

From stdpp Require Import gmap strings list sets pretty.
From Stdlib Require Import ZArith QArith Ascii Sorted.

Open Scope string_scope.
Open Scope Z_scope.

Set Warnings "-clear-no-such-hyp".

(** ** RDF terms *)

(** Literals, as the [sparqlEscape*] helpers of the source produce them. *)
Inductive literal :=
  | LStr (s : string)      (* sparqlEscapeString of a payload text *)
  | LUuid (k : nat)        (* sparqlEscapeString of the k-th uuid *)
  | LDec (q : Q)           (* sparqlEscapeDecimal *)
  | LBool (b : bool)       (* sparqlEscapeBool *)
  | LDate (t : nat).       (* sparqlEscapeDateTime *)

(** IRIs.  [Ext s] is the IRI spelled [s]: a vocabulary term or a URL of
    the upstream payload.  [Gen pre k suf] is the template literal
    [`${pre}${uuid}${suf}`] around the k-th uuid.  [Lexical l] is what
    [binding.value] gives when a query variable is bound to a literal that
    is neither a text nor a uuid. *)
Inductive uri :=
  | Ext (s : string)
  | Gen (pre : string) (k : nat) (suf : string)
  | Lexical (l : literal).

Inductive obj :=
  | OUri (u : uri)
  | OLit (l : literal).

(** Predicates are written as in the source, prefix and local name. *)
Record triple := Triple { subj : uri; pred : string; object : obj }.

Global Instance Q_eq_dec : EqDecision Q.
Proof. solve_decision. Defined.
Global Instance literal_eq_dec : EqDecision literal.
Proof. solve_decision. Defined.
Global Instance uri_eq_dec : EqDecision uri.
Proof. solve_decision. Defined.
Global Instance obj_eq_dec : EqDecision obj.
Proof. solve_decision. Defined.

Global Instance triple_eq_dec : EqDecision triple.
Proof. solve_decision. Defined.

(** *** A compact numbering of triples

    The store is a [gset], keyed by the [positive] a triple encodes to.
    The texts of the program's own vocabulary are numbered by their place
    in [vocabulary], other texts by their characters, and a triple is the
    flat list of the numbers of its parts. *)

Definition vocabulary : list string :=
  [ "rdf:type"; "mu:uuid"; "adms:identifier"; "skos:notation"; "dct:creator";
    "dct:title"; "dct:description"; "dct:source"; "dct:format"; "dct:created";
    "veeakker:hasLabel"; "veeakker:plu"; "veeakker:sortIndex";
    "veeakker:lfwProductCanBeOrderedByFractionOfOrderUnit";
    "veeakker:singleUnitPrice"; "veeakker:targetUnit"; "veeakker:offerings";
    "veeakker:thumbnail"; "veeakker:allergensAsText"; "veeakker:role";
    "veeakker:Administrator"; "veeakker:LfwFetchJob";
    "gr:hasUnitOfMeasurement"; "gr:hascurrencyValue"; "gr:hasCurrencyValue";
    "gr:hasValue"; "gr:amountOfThisGood"; "gr:typeOfGood"; "gr:includesObject";
    "gr:hasPriceSpecification"; "gr:name"; "gr:offers"; "gr:Offering";
    "gr:UnitPriceSpecification"; "gr:QuantitativeValue"; "gr:TypeAndQuantityNode";
    "gr:BusinessEntity"; "food:ingredientListAsText"; "nfo:fileName";
    "nfo:fileSize"; "nfo:FileDataObject"; "dbpedia:fileExtension";
    "nie:dataSource"; "prov:wasGeneratedBy"; "adms:status"; "adms:Identifier";
    "schema:Product"; "schema:email"; "session:account"; "foaf:account";
    "https://localfoodworks.eu/"; "share://"; "";
    "http://veeakker.be/products/"; "http://veeakker.be/offerings/";
    "http://veeakker.be/price-specifications/";
    "http://veeakker.be/quantitative-values/";
    "http://veeakker.be/type-and-quantities/"; "http://veeakker.be/files/";
    "http://veeakker.be/suppliers/"; "http://veeakker.be/lfw-jobs/";
    "http://data.redpencil.io/identifiers/";
    "http://veeakker.be/labels/lfw"; "http://veeakker.be/labels/bio";
    "http://veeakker.be/lfw-job-statusses/running";
    "http://veeakker.be/lfw-job-statusses/finished";
    "http://veeakker.be/lfw-job-statusses/error" ].

Definition intern (s : string) : positive :=
  match list_find (λ v, v = s) vocabulary with
  | Some (i, _) => xO (Pos.of_succ_nat i)
  | None => xI (encode s)
  end.

Definition unintern (p : positive) : option string :=
  match p with
  | xO q => vocabulary !! Nat.pred (Pos.to_nat q)
  | xI q => decode q
  | xH => None
  end.

Lemma unintern_intern s : unintern (intern s) = Some s.
Proof.
  unfold intern. destruct (list_find _ _) as [[i v]|] eqn:E; simpl.
  - apply list_find_Some in E as (Hi & -> & _).
    by rewrite SuccNat2Pos.id_succ.
  - apply decode_encode.
Qed.

Definition ser_literal (l : literal) : list positive :=
  match l with
  | LStr s => [1; intern s]
  | LUuid k => [2; encode k]
  | LDec q => [3; encode (Qnum q); Qden q]
  | LBool b => [4; encode b]
  | LDate t => [5; encode t]
  end%positive.

Definition ser_uri (u : uri) : list positive :=
  match u with
  | Ext s => [6; intern s]
  | Gen pre k suf => [7; intern pre; encode k; intern suf]
  | Lexical l => 8 :: ser_literal l
  end%positive.

Definition ser_obj (o : obj) : list positive :=
  match o with OUri u => ser_uri u | OLit l => ser_literal l end.

Definition ser_triple (t : triple) : list positive :=
  intern (pred t) :: ser_uri (subj t) ++ ser_obj (object t).

Definition parse_literal (l : list positive) : option (literal * list positive) :=
  match l with
  | 1 :: s :: r => s' ← unintern s; Some (LStr s', r)
  | 2 :: k :: r => k' ← decode k; Some (LUuid k', r)
  | 3 :: n :: d :: r => n' ← decode n; Some (LDec (Qmake n' d), r)
  | 4 :: b :: r => b' ← decode b; Some (LBool b', r)
  | 5 :: t :: r => t' ← decode t; Some (LDate t', r)
  | _ => None
  end%positive.

Definition parse_uri (l : list positive) : option (uri * list positive) :=
  match l with
  | 6 :: s :: r => s' ← unintern s; Some (Ext s', r)
  | 7 :: pre :: k :: suf :: r =>
      pre' ← unintern pre; k' ← decode k; suf' ← unintern suf; Some (Gen pre' k' suf', r)
  | 8 :: r => '(lit, r') ← parse_literal r; Some (Lexical lit, r')
  | _ => None
  end%positive.

Definition parse_obj (l : list positive) : option (obj * list positive) :=
  match parse_uri l with
  | Some (u, r) => Some (OUri u, r)
  | None => '(lit, r) ← parse_literal l; Some (OLit lit, r)
  end.

Definition parse_triple (l : list positive) : option triple :=
  match l with
  | p :: r =>
      p' ← unintern p; '(s, r1) ← parse_uri r; '(o, r2) ← parse_obj r1;
      match r2 with [] => Some (Triple s p' o) | _ => None end
  | [] => None
  end.

Lemma parse_ser_literal l r : parse_literal (ser_literal l ++ r) = Some (l, r).
Proof.
  destruct l as [s|k|[n d]|b|t]; cbn [ser_literal parse_literal app];
    rewrite ?unintern_intern, ?decode_encode; done.
Qed.

Lemma parse_ser_uri u r : parse_uri (ser_uri u ++ r) = Some (u, r).
Proof.
  destruct u as [s|pre k suf|l]; cbn [ser_uri parse_uri app];
    rewrite ?unintern_intern, ?decode_encode, ?parse_ser_literal; cbn [mbind option_bind];
    rewrite ?unintern_intern; done.
Qed.

Lemma parse_ser_obj o r : parse_obj (ser_obj o ++ r) = Some (o, r).
Proof.
  destruct o as [u|l]; unfold parse_obj; cbn [ser_obj].
  - by rewrite parse_ser_uri.
  - rewrite parse_ser_literal. by destruct l.
Qed.

Lemma parse_ser_triple t : parse_triple (ser_triple t) = Some t.
Proof.
  destruct t as [s p o]. unfold parse_triple, ser_triple; cbn [subj pred object].
  rewrite unintern_intern; cbn [mbind option_bind].
  rewrite <- (app_nil_r (ser_obj o)), parse_ser_uri; cbn [mbind option_bind].
  rewrite parse_ser_obj; done.
Qed.

Global Instance triple_countable : Countable triple :=
  inj_countable ser_triple parse_triple parse_ser_triple.

(** [binding.value] of a result binding, used as an IRI afterwards. *)
Definition binding_value (o : obj) : uri :=
  match o with
  | OUri u => u
  | OLit (LStr s) => Ext s
  | OLit (LUuid k) => Gen "" k ""
  | OLit l => Lexical l
  end.

(** ** The store *)

Abbreviation graph := (gset triple).

(** [INSERT DATA { ts }] *)
Definition insert_data (ts : list triple) (g : graph) : graph :=
  g ∪ list_to_set ts.

(** [DELETE { s ?p ?o } WHERE { VALUES ?p { ps } s ?p ?o }] *)
Definition delete_preds (s : uri) (ps : list string) (g : graph) : graph :=
  filter (λ t, ¬ (subj t = s ∧ pred t ∈ ps)) g.

(** Bindings of [?x] in [SELECT ?x WHERE { s p ?x }], in the order the
    store lists them. *)
Definition objects_of (s : uri) (p : string) (g : graph) : list obj :=
  object <$> elements (filter (λ t, subj t = s ∧ pred t = p) g).

(** Bindings of [?x] in [SELECT ?x WHERE { ?x p o }]. *)
Definition subjects_of (p : string) (o : obj) (g : graph) : list uri :=
  subj <$> elements (filter (λ t, pred t = p ∧ object t = o) g).

(** ** Upstream payloads *)

(** [pricing.consumerPrice.measurementUnitPrice] and [orderUnitPrice]:
    [money.amount] and [unitOfMeasurement]. *)
Record unit_price := {
  money_amount : Q;
  unitOfMeasurement : string }.

Record consumer_price := {
  measurementUnitPrice : unit_price;
  orderUnitPrice : unit_price }.

Record pricing_info := {
  consumerPrice : consumer_price;
  measurementUnitVsOrderUnitRatio : Q }.

(** [SupplierInfo] of the source. *)
Record supplier_info := {
  supplier_name : string;
  supplier_description : option string;
  emailAddress : string }.

(** [product.supplier]: a bare name in a listing, an object in a detail
    page. *)
Inductive supplier_field :=
  | SupplierName (s : string)
  | SupplierInfo (i : supplier_info).

Record ingredient := {
  ingredient_name : string;
  position : Z }.

(** An element of [product.allergens] is [{ allergen: { id, name } }]. *)
Record allergen := {
  allergen_id : Z;
  allergen_name : string }.

Record product := {
  id : Z;
  name : option string;
  description : option string;
  bio : bool;
  canBeOrderedAsFractionOfOrderUnit : bool;
  supplier : supplier_field;
  pricing : pricing_info;
  image : option string;
  ingredients : option (list ingredient);
  allergens : option (list allergen) }.

(** [SupplierSummary] of the source. *)
Record supplier_summary := {
  summary_id : Z;
  summary_name : string }.

Record page := {
  content : list product;
  last : bool }.

(** What the program reads from outside: the three cached JSON documents
    ([None] when the fetch fails), whether a download of a URL succeeds,
    and the two library functions applied to payload text.
    [mime.getType] answers by the extension of the path it is given, and
    [null] for an extension it does not know. *)
Record upstream := {
  ensurePage : nat → option page;
  ensureProductPage : Z → option product;
  ensureSuppliersPage : option (list supplier_summary);
  fetch_ok : string → bool;
  mime_getType : string → option string;
  sanitize : string → string }.

(** ** Effects *)

(** The state the program acts on: the store, the number of uuids handed
    out, the clock read by [new Date()], the files written by
    [downloadShareFile] (URL, uuid and extension of the file name, newest
    first) and the number of [update] requests sent so far. *)
Record world := {
  store : graph;
  uuids : nat;
  clock : nat;
  downloads : list (string * (nat * string));
  updates : nat }.

Inductive outcome (A : Type) :=
  | Ok (a : A)
  | Throw (e : string)
  | Unfinished.
Arguments Ok {A} a.
Arguments Throw {A} e.
Arguments Unfinished {A}.

Definition M (A : Type) : Type := world → outcome A * world.

Global Instance M_ret : MRet M := λ A a w, (Ok a, w).

Global Instance M_bind : MBind M := λ A B k m w,
  match m w with
  | (Ok a, w') => k a w'
  | (Throw e, w') => (Throw e, w')
  | (Unfinished, w') => (Unfinished, w')
  end.

Definition throw {A} (e : string) : M A := λ w, (Throw e, w).

(** [await update(...)]: the statement's effect on the set of triples. *)
Definition update (f : graph → graph) : M unit :=
  λ w, (Ok tt, {| store := f (store w); uuids := uuids w; clock := clock w;
                  downloads := downloads w; updates := S (updates w) |}).

(** [await query(...)] *)
Definition query {A} (f : graph → A) : M A :=
  λ w, (Ok (f (store w)), w).

Definition uuid : M nat :=
  λ w, (Ok (uuids w), {| store := store w; uuids := S (uuids w); clock := clock w;
                         downloads := downloads w; updates := updates w |}).

Definition new_Date : M nat :=
  λ w, (Ok (clock w), {| store := store w; uuids := uuids w; clock := S (clock w);
                         downloads := downloads w; updates := updates w |}).

(** [try { body } catch (e) { handler }] *)
Definition try_catch {A} (body : M A) (handler : string → M A) : M A :=
  λ w, match body w with
       | (Throw e, w') => handler e w'
       | r => r
       end.

(** ** Vocabulary *)

Definition rdf_type := "rdf:type".
Definition lfw : obj := OUri (Ext "https://localfoodworks.eu/").
Definition class (c : string) : obj := OUri (Ext c).

Definition IGNORED_ORGANIZATIONS : list string := ["Pintafish (VLB)"].

(** ** Unit converter *)

Definition convertLfwUnitToCEFACT (unit : string) : outcome string :=
  if String.eqb unit "l" then Ok "LTR"
  else if String.eqb unit "kg" then Ok "KGM"
  else if String.eqb unit "stk" then Ok "C62"
  else Throw ("Could not translate unit " ++ unit).

Definition lift {A} (o : outcome A) : M A := λ w, (o, w).

(** JavaScript truthiness of an optional text: [null], [undefined] and the
    empty string are falsy. *)
Definition truthy (o : option string) : option string :=
  match o with
  | Some s => if String.eqb s "" then None else Some s
  | None => None
  end.

(** [o || ""] *)
Definition or_empty (o : option string) : string :=
  match o with Some s => s | None => "" end.

(** ** Resource resolver *)

(** The body shared by the five [ensure...] functions of the source: look
    for [owner rel ?x] (LIMIT 1); return the first binding, or mint an IRI
    [`${pre}${uuid}`], link it, give it its type and [mu:uuid], and return
    it. *)
Definition ensure_linked (owner : uri) (rel pre cls : string) : M uri :=
  bindings ← query (objects_of owner rel);
  match bindings with
  | b :: _ => mret (binding_value b)
  | [] =>
      k ← uuid;
      let u := Gen pre k "" in
      update (insert_data [ Triple owner rel (OUri u);
                            Triple u rdf_type (class cls);
                            Triple u "mu:uuid" (OLit (LUuid k)) ]);;
      mret u
  end.

Definition ensureSingleUnitPriceResource (productUri : uri) : M uri :=
  ensure_linked productUri "veeakker:singleUnitPrice"
    "http://veeakker.be/price-specifications/" "gr:UnitPriceSpecification".

Definition ensureTargetUnitResource (productUri : uri) : M uri :=
  ensure_linked productUri "veeakker:targetUnit"
    "http://veeakker.be/quantitative-values/" "gr:QuantitativeValue".

Definition ensureOffering (productUri : uri) : M uri :=
  ensure_linked productUri "veeakker:offerings"
    "http://veeakker.be/offerings/" "gr:Offering".

Definition ensureOfferingTypeAndQuantity (offeringUri : uri) : M uri :=
  ensure_linked offeringUri "gr:includesObject"
    "http://veeakker.be/type-and-quantities/" "gr:TypeAndQuantityNode".

Definition ensureOfferingUnitPrice (offeringUri : uri) : M uri :=
  ensure_linked offeringUri "gr:hasPriceSpecification"
    "http://veeakker.be/price-specifications/" "gr:UnitPriceSpecification".

Record OfferingResources := {
  offering : uri;
  typeAndQuantity : uri;
  unitPrice : uri }.

Definition ensureOfferingResources (productUri : uri) : M OfferingResources :=
  offering ← ensureOffering productUri;
  typeAndQuantity ← ensureOfferingTypeAndQuantity offering;
  unitPrice ← ensureOfferingUnitPrice offering;
  mret {| offering := offering; typeAndQuantity := typeAndQuantity;
          unitPrice := unitPrice |}.

(** ** Pricing *)

(** The two updates of [ensureProductDefaultPricing].  The text of an
    update is built, and the unit converted, before the update is sent. *)
Definition ensureProductDefaultPricing (product : product) (productUri : uri) : M unit :=
  let consumerPrice' := consumerPrice (pricing product) in
  let priceSpecification := measurementUnitPrice consumerPrice' in
  let euros := money_amount priceSpecification in
  let unitOfMeasurement' := unitOfMeasurement priceSpecification in
  singleUnitPriceResource ← ensureSingleUnitPriceResource productUri;
  targetUnitResource ← ensureTargetUnitResource productUri;
  unit ← lift (convertLfwUnitToCEFACT unitOfMeasurement');
  update (λ g,
    insert_data [ Triple singleUnitPriceResource "gr:hasUnitOfMeasurement" (OLit (LStr unit));
                  Triple singleUnitPriceResource "gr:hasCurrencyValue" (OLit (LDec euros)) ]
      (delete_preds singleUnitPriceResource
         ["gr:hasUnitOfMeasurement"; "gr:hascurrencyValue"] g));;
  targetUnitMeasurementUnit ←
    lift (convertLfwUnitToCEFACT
            (unitOfMeasurement (measurementUnitPrice consumerPrice')));
  let targetUnitMeasurementAmount := measurementUnitVsOrderUnitRatio (pricing product) in
  update (λ g,
    insert_data [ Triple targetUnitResource "gr:hasUnitOfMeasurement" (OLit (LStr targetUnitMeasurementUnit));
                  Triple targetUnitResource "gr:hasValue" (OLit (LDec targetUnitMeasurementAmount)) ]
      (delete_preds targetUnitResource ["gr:hasUnitOfMeasurement"; "gr:hasValue"] g)).

Definition ensureProductOffers (product : product) (productUri : uri) : M OfferingResources :=
  offering ← ensureOfferingResources productUri;
  let euros := money_amount (orderUnitPrice (consumerPrice (pricing product))) in
  update (λ g,
    insert_data [ Triple (unitPrice offering) "gr:hasUnitOfMeasurement" (OLit (LStr "C62"));
                  Triple (unitPrice offering) "gr:hasCurrencyValue" (OLit (LDec euros)) ]
      (delete_preds (unitPrice offering)
         ["gr:hasUnitOfMeasurement"; "gr:hasCurrencyValue"] g));;
  let amount := measurementUnitVsOrderUnitRatio (pricing product) in
  unit ← lift (convertLfwUnitToCEFACT
                 (unitOfMeasurement (measurementUnitPrice (consumerPrice (pricing product)))));
  update (λ g,
    insert_data [ Triple (typeAndQuantity offering) "gr:amountOfThisGood" (OLit (LDec amount));
                  Triple (typeAndQuantity offering) "gr:hasUnitOfMeasurement" (OLit (LStr unit)) ]
      (delete_preds (typeAndQuantity offering)
         ["gr:amountOfThisGood"; "gr:hasUnitOfMeasurement"; "gr:typeOfGood"] g));;
  mret offering.

(** ** Text helpers *)

Definition newline : string := String "010"%char "".

(** [list.sort((a,b) => key(a) - key(b))]: a stable sort on an integer key. *)
Fixpoint insert_by {A} (key : A → Z) (x : A) (l : list A) : list A :=
  match l with
  | [] => [x]
  | y :: r => if (key x <=? key y)%Z then x :: y :: r else y :: insert_by key x r
  end.

Definition sort_by {A} (key : A → Z) (l : list A) : list A :=
  foldr (insert_by key) [] l.

(** [`<ul>${items.map((s) => `\n  <li>${s}</li>`).join("")}\n</ul>`] *)
Definition html_list (items : list string) : string :=
  "<ul>" ++ String.concat "" ((λ s, newline ++ "  <li>" ++ s ++ "</li>") <$> items)
         ++ newline ++ "</ul>".

(** [s.replaceAll("\n", "<br />")] *)
Fixpoint replace_newlines (s : string) : string :=
  match s with
  | EmptyString => EmptyString
  | String c r =>
      if Ascii.eqb c "010"%char then "<br />" ++ replace_newlines r
      else String c (replace_newlines r)
  end.

(** [s.match(/[^...]+$/)]: the longest suffix of [s] without a character
    of [excluded]; [null] when that suffix is empty. *)
Definition trailing_run (excluded : list ascii) (s : string) : string :=
  fold_left (λ acc c, if bool_decide (c ∈ excluded) then "" else acc ++ String c "")
            (String.list_ascii_of_string s) "".

Definition match_trailing (excluded : list ascii) (s : string) : option string :=
  truthy (Some (trailing_run excluded s)).

Definition has_slash (s : string) : bool :=
  bool_decide ("/"%char ∈ String.list_ascii_of_string s).

Example extension_of_png :
  match_trailing ["."%char] "https://img.example/products/181/c03.png" = Some "png".
Proof. reflexivity. Qed.

Example fileName_of_png :
  match_trailing ["/"%char; ">"%char] "https://img.example/products/181/c03.png"
  = Some "c03.png".
Proof. reflexivity. Qed.

Example extension_of_trailing_dot : match_trailing ["."%char] "https://img.example/a." = None.
Proof. reflexivity. Qed.

Section Program.

Variable U : upstream.

(** ** Ingredients and allergens *)

Definition ensureProductIngredients (product : product) (productUri : uri) : M unit :=
  let sortedIngredientsList :=
    (λ l, sanitize U <$> (ingredient_name <$> sort_by position l)) <$> ingredients product in
  let ingredientsString := html_list <$> sortedIngredientsList in
  update (λ g,
    let g' := delete_preds productUri ["food:ingredientListAsText"] g in
    match truthy ingredientsString with
    | Some text =>
        insert_data [ Triple productUri "food:ingredientListAsText" (OLit (LStr text)) ] g'
    | None => g'
    end).

Definition ensureProductAllergens (product : product) (productUri : uri) : M unit :=
  let sortedAllergensList :=
    (λ l, sanitize U <$> (allergen_name <$> sort_by allergen_id l)) <$> allergens product in
  let allergensString := html_list <$> sortedAllergensList in
  update (λ g,
    let g' := delete_preds productUri ["veeakker:allergensAsText"] g in
    match truthy allergensString with
    | Some text =>
        insert_data [ Triple productUri "veeakker:allergensAsText" (OLit (LStr text)) ] g'
    | None => g'
    end).

(** ** Picture synchronisation *)

Definition share_allowlist : list string :=
  ["dct:source"; "nfo:fileName"; "dct:format"; "nfo:fileSize";
   "dbpedia:fileExtension"; "dct:created"].

Definition file_allowlist : list string :=
  ["nfo:fileName"; "dct:format"; "nfo:fileSize"; "dbpedia:fileExtension"; "dct:created"].

(** [ASK WHERE { productUri veeakker:thumbnail ?picture.
                 ?picture dct:source <image> }] *)
Definition current_picture (productUri : uri) (image : string) (g : graph) : bool :=
  bool_decide (Exists (λ picture, Triple productUri "veeakker:thumbnail" (OUri picture) ∈ g)
                      (subjects_of "dct:source" (OUri (Ext image)) g)).

(** Solutions [(?s, ?p, ?o)] of the second statement's pattern
    [VALUES ?p { ... } productUri veeakker:thumbnail ?s. ?s ?p ?o]. *)
Definition old_file_solutions (productUri : uri) (g : graph) : list triple :=
  filter (λ t, pred t ∈ file_allowlist ∧
               Triple productUri "veeakker:thumbnail" (OUri (subj t)) ∈ g)
         (elements g).

(** The template [?file ?p ?o] of the second statement for one solution.
    The pattern binds [?s], [?p] and [?o], and no [?file]: a template
    triple with an unbound variable is left out of the delete. *)
Definition old_file_template (solution : triple) : option triple :=
  let file : option uri := None in
  file ≫= λ file, Some (Triple file (pred solution) (object solution)).

(** The three statements of the "remove the old picture" update, each
    evaluated on the result of the one before. *)
Definition remove_old_picture (productUri : uri) (g : graph) : graph :=
  let g1 :=
    filter (λ t, ¬ (pred t ∈ share_allowlist ∧
                    Exists (λ thumbnail, Triple (subj t) "nie:dataSource" thumbnail ∈ g)
                           (objects_of productUri "veeakker:thumbnail" g))) g in
  let g2 := g1 ∖ list_to_set (omap old_file_template (old_file_solutions productUri g1)) in
  delete_preds productUri ["veeakker:thumbnail"] g2.

(** [downloadShareFile(url, filename)]: throws when the fetch fails.
    [fs.writeFileSync] of [/share/<filename>] then throws when the file
    name has a slash in it, its directory [/share/<uuid>.<...>] being
    named after a uuid just made; otherwise the file written is
    recorded. *)
Definition downloadShareFile (url : string) (filename : nat * string) : M unit :=
  λ w, if fetch_ok U url
       then if has_slash filename.2
            then (Throw "ENOENT: no such file or directory", w)
            else (Ok tt, {| store := store w; uuids := uuids w; clock := clock w;
                            downloads := (url, filename) :: downloads w;
                            updates := updates w |})
       else (Throw "fetch failed", w).

Definition new_picture_triples (productUri : uri) (image : string)
    (shareResourceUuid fileResourceUuid : nat) (extension fileName mimetype : string)
    (creation : nat) : list triple :=
  let shareResourceUri := Gen "share://" shareResourceUuid ("." ++ extension) in
  let fileResourceUri := Gen "http://veeakker.be/files/" shareResourceUuid "" in
  [ Triple productUri "veeakker:thumbnail" (OUri fileResourceUri);
    Triple fileResourceUri rdf_type (class "nfo:FileDataObject");
    Triple fileResourceUri "dct:source" (OUri (Ext image));
    Triple fileResourceUri "mu:uuid" (OLit (LUuid fileResourceUuid));
    Triple fileResourceUri "nfo:fileName" (OLit (LStr fileName));
    Triple fileResourceUri "dct:format" (OLit (LStr mimetype));
    Triple fileResourceUri "dbpedia:fileExtension" (OLit (LStr extension));
    Triple fileResourceUri "dct:created" (OLit (LDate creation));
    Triple shareResourceUri rdf_type (class "nfo:FileDataObject");
    Triple shareResourceUri "mu:uuid" (OLit (LUuid shareResourceUuid));
    Triple shareResourceUri "nie:dataSource" (OUri fileResourceUri);
    Triple shareResourceUri "nfo:fileName" (OLit (LStr fileName));
    Triple shareResourceUri "dct:format" (OLit (LStr mimetype));
    Triple shareResourceUri "dbpedia:fileExtension" (OLit (LStr extension));
    Triple shareResourceUri "dct:created" (OLit (LDate creation)) ].

(** [x.match(re)[0]] throws a TypeError when the match is [null]. *)
Definition first_match (m : option string) : M string :=
  match m with
  | Some s => mret s
  | None => throw "TypeError: Cannot read properties of null"
  end.

(** [sparqlEscapeString(value)] calls [value.replace], which throws a
    TypeError when [value] is [null]. *)
Definition sparqlEscapeString (value : option string) : M string :=
  match value with
  | Some s => mret s
  | None => throw "TypeError: Cannot read properties of null"
  end.

Definition ensureProductPicture (product : product) (productUri : uri) : M unit :=
  currentPictureIsCorrect ←
    match truthy (image product) with
    | Some url => query (current_picture productUri url)
    | None => mret false
    end;
  if (currentPictureIsCorrect : bool) then mret tt
  else
    update (remove_old_picture productUri);;
    match truthy (image product) with
    | Some url =>
        extension ← first_match (match_trailing ["."%char] url);
        fileName ← first_match (match_trailing ["/"%char; ">"%char] url);
        shareResourceUuid ← uuid;
        fileResourceUuid ← uuid;
        creation ← new_Date;
        downloadShareFile url (shareResourceUuid, extension);;
        mimetype ← sparqlEscapeString (mime_getType U extension);
        update (insert_data
                  (new_picture_triples productUri url shareResourceUuid fileResourceUuid
                     extension fileName mimetype creation))
    | None => mret tt
    end.

(** ** Identity resolution *)

(** Bindings of [(?productUri, ?admsIdentifier)] of the select query of
    [ensureProductMeta]. *)
Definition product_bindings (notation : string) (g : graph) : list (uri * uri) :=
  admsIdentifier ←
    filter (λ i, Triple i rdf_type (class "adms:Identifier") ∈ g ∧ Triple i "dct:creator" lfw ∈ g)
           (subjects_of "skos:notation" (OLit (LStr notation)) g);
  productUri ←
    filter (λ p, Triple p rdf_type (class "schema:Product") ∈ g)
           (subjects_of "adms:identifier" (OUri admsIdentifier) g);
  [(productUri, admsIdentifier)].

Definition ensureProductMeta (product : product) : M (uri * uri) :=
  bindings ← query (product_bindings (pretty (id product)));
  match bindings with
  | b :: _ => mret b
  | [] =>
      productUuid ← uuid;
      let productUri := Gen "http://veeakker.be/products/" productUuid "" in
      identifierUuid ← uuid;
      let admsIdentifier := Gen "http://data.redpencil.io/identifiers/" identifierUuid "" in
      update (insert_data
        [ Triple productUri rdf_type (class "schema:Product");
          Triple productUri "mu:uuid" (OLit (LUuid productUuid));
          Triple productUri "adms:identifier" (OUri admsIdentifier);
          Triple admsIdentifier rdf_type (class "adms:Identifier");
          Triple admsIdentifier "mu:uuid" (OLit (LUuid identifierUuid));
          Triple admsIdentifier "skos:notation" (OLit (LStr (pretty (id product))));
          Triple admsIdentifier "dct:creator" lfw;
          Triple admsIdentifier "dct:title" (OLit (LStr ("LFW " ++ pretty (id product)))) ]);;
      mret (productUri, admsIdentifier)
  end.

(** ** Base information *)

Definition base_allowlist : list string :=
  ["dct:title"; "dct:description"; "veeakker:hasLabel"; "veeakker:plu";
   "veeakker:sortIndex"; "veeakker:lfwProductCanBeOrderedByFractionOfOrderUnit"].

Definition base_triples (product : product) (productUri : uri) : list triple :=
  [ Triple productUri "dct:title" (OLit (LStr (or_empty (name product)))) ]
  ++ match truthy (description product) with
     | Some d => [ Triple productUri "dct:description" (OLit (LStr d)) ]
     | None => []
     end
  ++ [ Triple productUri "veeakker:hasLabel" (OUri (Ext "http://veeakker.be/labels/lfw")) ]
  ++ (if bio product
      then [ Triple productUri "veeakker:hasLabel" (OUri (Ext "http://veeakker.be/labels/bio")) ]
      else [])
  ++ [ Triple productUri "veeakker:plu" (OLit (LDec (inject_Z (1000000 + id product))));
       Triple productUri "veeakker:sortIndex" (OLit (LDec (inject_Z (1000000 + id product))));
       Triple productUri "veeakker:lfwProductCanBeOrderedByFractionOfOrderUnit" (OLit (LBool (canBeOrderedAsFractionOfOrderUnit product))) ].

Definition ensureBaseProductInfo (product : product) (productUri : uri) : M unit :=
  update (λ g, insert_data (base_triples product productUri)
                 (delete_preds productUri base_allowlist g)).

Definition ensureProductJobConnection (productUri jobUri : uri) : M unit :=
  update (insert_data [ Triple productUri "prov:wasGeneratedBy" (OUri jobUri) ]).

(** ** Supplier linking *)

Definition loadProductSupplier (offeringUri : uri) (supplier : supplier_info) : M unit :=
  supplierInfos ← query (subjects_of "gr:name" (OLit (LStr (supplier_name supplier))));
  let supplierUri := head supplierInfos in
  let description :=
    sanitize U (replace_newlines (or_empty (supplier_description supplier))) in
  match supplierUri with
  | Some supplierUri =>
      if bool_decide (supplierUri = Ext "") then mret tt
      else
        update (λ g,
          insert_data [ Triple supplierUri "schema:email" (OLit (LStr (emailAddress supplier)));
                        Triple supplierUri "dct:description" (OLit (LStr description));
                        Triple supplierUri "gr:offers" (OUri offeringUri) ]
            (delete_preds supplierUri ["schema:email"; "dct:description"] g))
  | None => mret tt
  end.

(** ** Loading one product *)

Record load_options := {
  external : bool;
  job : option uri }.

(** [IGNORED_ORGANIZATIONS.includes(product.supplier)]: [includes]
    compares with [===]-like equality, which no object passes against a
    string. *)
Definition ignored (s : supplier_field) : bool :=
  match s with
  | SupplierName n => bool_decide (n ∈ IGNORED_ORGANIZATIONS)
  | SupplierInfo _ => false
  end.

Definition fetched {A} (o : option A) : M A :=
  match o with
  | Some a => mret a
  | None => throw "fetch failed"
  end.

Definition loadProduct (product : product) (options : load_options) : M unit :=
  product ← (if external options then fetched (ensureProductPage U (id product))
             else mret product);
  '(productUri, _) ← ensureProductMeta product;
  if ignored (supplier product) then mret tt
  else
    match job options with
    | Some jobUri => ensureProductJobConnection productUri jobUri
    | None => mret tt
    end;;
    ensureBaseProductInfo product productUri;;
    ensureProductDefaultPricing product productUri;;
    offeringResources ← ensureProductOffers product productUri;
    ensureProductIngredients product productUri;;
    ensureProductAllergens product productUri;;
    ensureProductPicture product productUri;;
    match supplier product with
    | SupplierInfo info => loadProductSupplier (offering offeringResources) info
    | SupplierName _ => mret tt
    end.

(** ** Job controller *)

Definition status_running : obj := OUri (Ext "http://veeakker.be/lfw-job-statusses/running").
Definition status_finished : obj := OUri (Ext "http://veeakker.be/lfw-job-statusses/finished").
Definition status_error : obj := OUri (Ext "http://veeakker.be/lfw-job-statusses/error").

Definition createLoadJob : M uri :=
  lfwFetchJobUuid ← uuid;
  let lfwFetchJobUri := Gen "http://veeakker.be/lfw-jobs/" lfwFetchJobUuid "" in
  created ← new_Date;
  update (insert_data
    [ Triple lfwFetchJobUri rdf_type (class "veeakker:LfwFetchJob");
      Triple lfwFetchJobUri "mu:uuid" (OLit (LUuid lfwFetchJobUuid));
      Triple lfwFetchJobUri "dct:created" (OLit (LDate created)) ]);;
  mret lfwFetchJobUri.

Definition set_status (jobUri : uri) (status : obj) : M unit :=
  update (λ g, insert_data [ Triple jobUri "adms:status" status ]
                 (delete_preds jobUri ["adms:status"] g)).

Definition startJob (jobUri : uri) : M unit := set_status jobUri status_running.
Definition finishJob (jobUri : uri) : M unit := set_status jobUri status_finished.
Definition errorJob (jobUri : uri) : M unit := set_status jobUri status_error.

(** ** Supplier loader *)

(** Bindings of [?supplier] for
    [?supplier a gr:BusinessEntity; adms:identifier ?identifier.
     ?identifier dct:creator <https://localfoodworks.eu/>; skos:notation "n"]. *)
Definition supplier_bindings (notation : string) (g : graph) : list uri :=
  identifier ←
    filter (λ i, Triple i "dct:creator" lfw ∈ g)
           (subjects_of "skos:notation" (OLit (LStr notation)) g);
  filter (λ s, Triple s rdf_type (class "gr:BusinessEntity") ∈ g)
         (subjects_of "adms:identifier" (OUri identifier) g).

Definition ensure_supplier (supplier : supplier_summary) : M unit :=
  hasSupplier ← query (λ g, bool_decide (supplier_bindings (pretty (summary_id supplier)) g ≠ []));
  if (hasSupplier : bool) then mret tt
  else
    supplierUuid ← uuid;
    let supplierUri := Gen "http://veeakker.be/suppliers/" supplierUuid "" in
    identifierUuid ← uuid;
    let identifierUri := Gen "http://data.redpencil.io/identifiers/" identifierUuid "" in
    update (insert_data
      [ Triple supplierUri rdf_type (class "gr:BusinessEntity");
        Triple supplierUri "mu:uuid" (OLit (LUuid supplierUuid));
        Triple supplierUri "adms:identifier" (OUri identifierUri);
        Triple identifierUri rdf_type (class "adms:Identifier");
        Triple identifierUri "mu:uuid" (OLit (LUuid identifierUuid));
        Triple identifierUri "skos:notation" (OLit (LStr (pretty (summary_id supplier))));
        Triple identifierUri "dct:creator" lfw;
        Triple identifierUri "dct:title" (OLit (LStr ("LFW Supplier ID " ++ pretty (summary_id supplier)))) ]).

(** [for (const x of xs) { await f(x) }] *)
Fixpoint for_each {A} (f : A → M unit) (xs : list A) : M unit :=
  match xs with
  | [] => mret tt
  | x :: rest => f x;; for_each f rest
  end.

(** Solutions [(?supplier, ?newName)] of the WHERE clause of the bulk
    update, the OPTIONAL old name left out. *)
Definition renamed (suppliers : list supplier_summary) (g : graph) : list (uri * string) :=
  supplier ← suppliers;
  (λ s, (s, summary_name supplier)) <$> supplier_bindings (pretty (summary_id supplier)) g.

(** [DELETE { ?supplier gr:name ?oldName } INSERT { ?supplier gr:name ?newName }
     WHERE { VALUES ... OPTIONAL { ?supplier gr:name ?oldName } }] *)
Definition rename_suppliers (suppliers : list supplier_summary) (g : graph) : graph :=
  let solutions := renamed suppliers g in
  insert_data ((λ '(s, n), Triple s "gr:name" (OLit (LStr n))) <$> solutions)
    (filter (λ t, ¬ (pred t = "gr:name" ∧ subj t ∈ solutions.*1)) g).

Definition loadSuppliers (jobUri : uri) : M unit :=
  suppliers ← fetched (ensureSuppliersPage U);
  for_each ensure_supplier suppliers;;
  update (rename_suppliers suppliers).

(** ** Harvest orchestrator *)

(** The [do ... while (page.last == false)] loop from page [counter] on;
    [fuel] bounds the number of pages walked. *)
Fixpoint loadPagesFrom (fuel : nat) (jobUri : uri) (counter : nat) : M unit :=
  match fuel with
  | O => λ w, (Unfinished, w)
  | S fuel' =>
      page ← fetched (ensurePage U counter);
      for_each (λ product, loadProduct product {| job := Some jobUri; external := true |})
               (content page);;
      if last page then mret tt else loadPagesFrom fuel' jobUri (S counter)
  end.

Definition loadPages (fuel : nat) (jobUri : uri) : M unit :=
  loadPagesFrom fuel jobUri 0.

(** [isAdminUser(req)] of lib/authorization.js:
    [ASK { <session> session:account/^foaf:account/veeakker:role veeakker:Administrator }] *)
Definition isAdminUser (sessionId : uri) : M bool :=
  query (λ g, bool_decide
    (Exists (λ account,
       Exists (λ person, Triple person "veeakker:role" (class "veeakker:Administrator") ∈ g)
              (subjects_of "foaf:account" account g))
       (objects_of sessionId "session:account" g))).

Definition harvest_body (fuel : nat) (jobUri : uri) : M unit :=
  startJob jobUri;;
  loadSuppliers jobUri;;
  loadPages fuel jobUri;;
  finishJob jobUri.

(** [app.post('/harvest', ...)]: the response is its status code and text. *)
Definition post_harvest (fuel : nat) (sessionId : uri) : M (nat * string) :=
  admin ← isAdminUser sessionId;
  if (admin : bool) then
    jobUri ← createLoadJob;
    try_catch
      (harvest_body fuel jobUri;; mret (200%nat, "Harvest successful"))
      (λ e, errorJob jobUri;; mret (500%nat, "Failed to harvest"))
  else mret (500%nat, "Missing access rights").

End Program.

(** * Sample data *)

Module Sample.

Definition empty_world : world :=
  {| store := ∅; uuids := 0; clock := 0; downloads := []; updates := 0 |}.

Definition with_store (g : graph) : world :=
  {| store := g; uuids := 0; clock := 0; downloads := []; updates := 0 |}.

Definition price (amount : Q) (unit : string) : pricing_info :=
  {| consumerPrice :=
       {| measurementUnitPrice := {| money_amount := amount; unitOfMeasurement := unit |};
          orderUnitPrice := {| money_amount := amount; unitOfMeasurement := "stk" |} |};
     measurementUnitVsOrderUnitRatio := 1 |}.

(** A listing entry: five pancakes, sold by the piece. *)
Definition pancakes : product :=
  {| id := 181; name := Some "5 pannenkoeken"; description := None; bio := false;
     canBeOrderedAsFractionOfOrderUnit := false;
     supplier := SupplierName "Het Nijswolkje";
     pricing := price (1037 # 100) "stk";
     image := Some "https://img.example/181/c03.png";
     ingredients := None; allergens := None |}.

Definition with_unit (unit : string) (p : product) : product :=
  {| id := id p; name := name p; description := description p; bio := bio p;
     canBeOrderedAsFractionOfOrderUnit := canBeOrderedAsFractionOfOrderUnit p;
     supplier := supplier p;
     pricing := price (money_amount (measurementUnitPrice (consumerPrice (pricing p)))) unit;
     image := image p; ingredients := ingredients p; allergens := allergens p |}.

Definition with_supplier (s : supplier_field) (p : product) : product :=
  {| id := id p; name := name p; description := description p; bio := bio p;
     canBeOrderedAsFractionOfOrderUnit := canBeOrderedAsFractionOfOrderUnit p;
     supplier := s; pricing := pricing p;
     image := image p; ingredients := ingredients p; allergens := allergens p |}.

Definition with_image (i : option string) (p : product) : product :=
  {| id := id p; name := name p; description := description p; bio := bio p;
     canBeOrderedAsFractionOfOrderUnit := canBeOrderedAsFractionOfOrderUnit p;
     supplier := supplier p; pricing := pricing p;
     image := i; ingredients := ingredients p; allergens := allergens p |}.

(** The few extensions the samples use, of the table of [mime]. *)
Definition mime_types (extension : string) : option string :=
  if decide (extension = "png") then Some "image/png"
  else if decide (extension = "jpg") then Some "image/jpeg"
  else None.

(** An upstream with one supplier and one page of one product, whose
    detail page is [detail]. *)
Definition shop (detail : product) : upstream :=
  {| ensurePage := λ n,
       match n with
       | O => Some {| content := [pancakes]; last := true |}
       | S _ => None
       end;
     ensureProductPage := λ i, if decide (i = 181) then Some detail else None;
     ensureSuppliersPage := Some [ {| summary_id := 7; summary_name := "Het Nijswolkje" |} ];
     fetch_ok := λ _, true;
     mime_getType := mime_types;
     sanitize := λ s, s |}.

Definition product_181 : uri := Ext "http://veeakker.be/products/p181".

End Sample.

(** * Properties *)


(** Closes a decidable goal about concrete data by evaluating it. *)
Ltac decided := apply (bool_decide_unpack _); vm_compute; exact I.

(** ** Reading and writing the store *)

Lemma elem_of_insert_data ts g t : t ∈ insert_data ts g ↔ t ∈ g ∨ t ∈ ts.
Proof. unfold insert_data. set_solver. Qed.

Lemma elem_of_delete_preds s ps g t :
  t ∈ delete_preds s ps g ↔ t ∈ g ∧ ¬ (subj t = s ∧ pred t ∈ ps).
Proof. unfold delete_preds. rewrite elem_of_filter. tauto. Qed.

Lemma elem_of_objects_of s p g o : o ∈ objects_of s p g ↔ Triple s p o ∈ g.
Proof.
  unfold objects_of. rewrite list_elem_of_fmap. split.
  - intros ([s' p' o'] & -> & Hin). apply elem_of_elements, elem_of_filter in Hin.
    simpl in *. destruct Hin as [[Hs Hp] ?]. by subst.
  - intros Hin. exists (Triple s p o). split; [done|].
    apply elem_of_elements, elem_of_filter. done.
Qed.

Lemma elem_of_subjects_of p o g s : s ∈ subjects_of p o g ↔ Triple s p o ∈ g.
Proof.
  unfold subjects_of. rewrite list_elem_of_fmap. split.
  - intros ([s' p' o'] & -> & Hin). apply elem_of_elements, elem_of_filter in Hin.
    simpl in *. destruct Hin as [[Hs Hp] ?]. by subst.
  - intros Hin. exists (Triple s p o). split; [done|].
    apply elem_of_elements, elem_of_filter. done.
Qed.

Global Instance set_unfold_insert_data ts g t P Q :
  SetUnfoldElemOf t g P → SetUnfoldElemOf t ts Q →
  SetUnfoldElemOf t (insert_data ts g) (P ∨ Q).
Proof. intros [HP] [HQ]. constructor. by rewrite elem_of_insert_data, HP, HQ. Qed.

Global Instance set_unfold_delete_preds s ps g t P :
  SetUnfoldElemOf t g P →
  SetUnfoldElemOf t (delete_preds s ps g) (P ∧ ¬ (subj t = s ∧ pred t ∈ ps)).
Proof. intros [HP]. constructor. by rewrite elem_of_delete_preds, HP. Qed.

Global Instance set_unfold_objects_of s p g o P :
  SetUnfoldElemOf (Triple s p o) g P → SetUnfoldElemOf o (objects_of s p g) P.
Proof. intros [HP]. constructor. by rewrite elem_of_objects_of. Qed.

Global Instance set_unfold_subjects_of p o g s P :
  SetUnfoldElemOf (Triple s p o) g P → SetUnfoldElemOf s (subjects_of p o g) P.
Proof. intros [HP]. constructor. by rewrite elem_of_subjects_of. Qed.

(** A list all of whose elements are [x] lists [x] first, if anything. *)
Lemma head_all_eq {A} (l : list A) (x : A) :
  l ≠ [] → (∀ y, y ∈ l → y = x) → head l = Some x.
Proof.
  destruct l as [|y l]; [done|]. intros _ H. simpl. f_equal. apply H. left.
Qed.

(** The objects of [s p ?x] when the store holds exactly one. *)
Lemma objects_of_unique s p g o :
  (∀ o', Triple s p o' ∈ g ↔ o' = o) → objects_of s p g = [o].
Proof.
  intros H. unfold objects_of.
  assert (filter (λ t, subj t = s ∧ pred t = p) g = {[ Triple s p o ]}) as ->.
  { apply set_eq. intros [s' p' o']. rewrite elem_of_filter, elem_of_singleton. simpl. split.
    - intros [[-> ->] Hin]. f_equal. by apply H.
    - intros [= -> -> ->]. split; [done|]. by apply H. }
  by rewrite elements_singleton.
Qed.

Lemma objects_of_nil s p g :
  (∀ o, Triple s p o ∉ g) → objects_of s p g = [].
Proof.
  intros H. destruct (objects_of s p g) as [|o l] eqn:E; [done|].
  exfalso. apply (H o), elem_of_objects_of. rewrite E. left.
Qed.

Lemma list_filter_ext_in {A} (P Q : A → Prop) `{!∀ x, Decision (P x), !∀ x, Decision (Q x)}
    (l : list A) :
  (∀ x, x ∈ l → (P x ↔ Q x)) → filter P l = filter Q l.
Proof.
  induction l as [|a l IH]; intros Hext; [done|].
  rewrite !filter_cons. rewrite IH by (intros x Hx; apply Hext; by right).
  destruct (decide (P a)) as [HP|HP], (decide (Q a)) as [HQ|HQ]; try done.
  - destruct HQ. apply Hext; [left|done].
  - destruct HP. apply Hext; [left|done].
Qed.

Lemma list_bind_ext_in {A B} (f g : A → list B) (l : list A) :
  (∀ x, x ∈ l → f x = g x) → l ≫= f = l ≫= g.
Proof.
  intros Hext. apply Forall_bind_ext, Forall_forall. exact Hext.
Qed.

Lemma objects_of_same s p g g' :
  (∀ o, Triple s p o ∈ g' ↔ Triple s p o ∈ g) → objects_of s p g' = objects_of s p g.
Proof.
  intros H. unfold objects_of. f_equal. f_equal. apply set_eq. intros [s' p' o'].
  rewrite !elem_of_filter. simpl. split; intros [[-> ->] Hin]; (split; [done|by apply H]).
Qed.

Lemma subjects_of_same p o g g' :
  (∀ s, Triple s p o ∈ g' ↔ Triple s p o ∈ g) → subjects_of p o g' = subjects_of p o g.
Proof.
  intros H. unfold subjects_of. f_equal. f_equal. apply set_eq. intros [s' p' o'].
  rewrite !elem_of_filter. simpl. split; intros [[-> ->] Hin]; (split; [done|by apply H]).
Qed.

(** ** C8: the unit converter *)

Lemma convert_unsupported unit :
  unit ∉ ["l"; "kg"; "stk"] →
  convertLfwUnitToCEFACT unit = Throw ("Could not translate unit " ++ unit).
Proof.
  intros Hunit. unfold convertLfwUnitToCEFACT.
  destruct (String.eqb_spec unit "l") as [->|_]; [set_solver|].
  destruct (String.eqb_spec unit "kg") as [->|_]; [set_solver|].
  destruct (String.eqb_spec unit "stk") as [->|_]; [set_solver|].
  done.
Qed.

(** C8. The converter maps "kg" to "KGM", "l" to "LTR" and "stk" to "C62",
    and throws on every other text: no default value is returned. *)
Theorem convertLfwUnitToCEFACT_total_fatal :
  convertLfwUnitToCEFACT "kg" = Ok "KGM" ∧
  convertLfwUnitToCEFACT "l" = Ok "LTR" ∧
  convertLfwUnitToCEFACT "stk" = Ok "C62" ∧
  ∀ unit, unit ∉ ["l"; "kg"; "stk"] →
    convertLfwUnitToCEFACT unit = Throw ("Could not translate unit " ++ unit).
Proof. repeat split. apply convert_unsupported. Qed.

Lemma convertLfwUnitToCEFACT_total_fatal_witness :
  ("lb" ∉ ["l"; "kg"; "stk"]) ∧
  convertLfwUnitToCEFACT "lb" = Throw "Could not translate unit lb".
Proof.
  assert ("lb" ∉ ["l"; "kg"; "stk"]) as H by decided.
  split; [exact H|].
  exact (proj2 (proj2 (proj2 convertLfwUnitToCEFACT_total_fatal)) "lb" H).
Defined.

(** ** C10: one status per job *)

Lemma set_status_spec jobUri status w :
  set_status jobUri status w
  = (Ok tt, {| store := insert_data [Triple jobUri "adms:status" status]
                          (delete_preds jobUri ["adms:status"] (store w));
               uuids := uuids w; clock := clock w; downloads := downloads w;
               updates := S (updates w) |}).
Proof. reflexivity. Qed.

Lemma set_status_objects jobUri status w :
  objects_of jobUri "adms:status" (store (set_status jobUri status w).2) = [status].
Proof.
  rewrite set_status_spec. simpl. apply objects_of_unique. intros o.
  rewrite elem_of_insert_data, elem_of_delete_preds. simpl. split.
  - intros [[_ H]|H].
    + exfalso. apply H. split; [done|]. left.
    + apply list_elem_of_singleton in H. by injection H.
  - intros ->. right. left.
Qed.

(** C10. After [startJob], [finishJob] or [errorJob] the job carries
    exactly one [adms:status] triple, the one just written, whatever
    statuses (a terminal one included) it carried before. *)
Theorem job_status_replaced jobUri w :
  (startJob jobUri w).1 = Ok tt ∧
  objects_of jobUri "adms:status" (store (startJob jobUri w).2) = [status_running] ∧
  (finishJob jobUri w).1 = Ok tt ∧
  objects_of jobUri "adms:status" (store (finishJob jobUri w).2) = [status_finished] ∧
  (errorJob jobUri w).1 = Ok tt ∧
  objects_of jobUri "adms:status" (store (errorJob jobUri w).2) = [status_error].
Proof.
  unfold startJob, finishJob, errorJob.
  repeat split; try apply set_status_objects.
Qed.

(** The operations do not guard a terminal status: a finished job that is
    started again is running. *)
Example finished_job_restarted :
  let job := Ext "job" in
  let w := {| store := {[ Triple job "adms:status" status_finished ]};
              uuids := 0; clock := 0; downloads := []; updates := 0 |} in
  objects_of job "adms:status" (store (startJob job w).2) = [status_running].
Proof. apply set_status_objects. Qed.

(** ** C6: absent ingredients *)

(** C6. With no [ingredients] field in the payload, [ensureProductIngredients]
    deletes every stored [food:ingredientListAsText] of the product and
    inserts nothing: the product ends with no ingredient text. *)
Theorem ensureProductIngredients_absent U product productUri w :
  ingredients product = None →
  let r := ensureProductIngredients U product productUri w in
  r.1 = Ok tt ∧
  store r.2 = delete_preds productUri ["food:ingredientListAsText"] (store w) ∧
  objects_of productUri "food:ingredientListAsText" (store r.2) = [] ∧
  store r.2 ⊆ store w.
Proof.
  intros Hnone. unfold ensureProductIngredients. rewrite Hnone. simpl.
  split; [done|]. split; [done|]. split.
  - apply objects_of_nil. intros o. rewrite elem_of_delete_preds. simpl.
    intros [_ H]. apply H. split; [done|]. left.
  - intros t. rewrite elem_of_delete_preds. tauto.
Qed.

Lemma ensureProductIngredients_absent_witness :
  let w := Sample.with_store
             {[ Triple Sample.product_181 "food:ingredientListAsText" (OLit (LStr "<ul></ul>")) ]} in
  ingredients Sample.pancakes = None ∧
  objects_of Sample.product_181 "food:ingredientListAsText"
    (store (ensureProductIngredients (Sample.shop Sample.pancakes) Sample.pancakes
              Sample.product_181 w).2) = [].
Proof.
  split; [reflexivity|].
  exact (proj1 (proj2 (proj2
    (ensureProductIngredients_absent (Sample.shop Sample.pancakes) Sample.pancakes
       Sample.product_181 _ eq_refl)))).
Defined.

(** ** Stepping through the monad *)

Lemma bind_unfold {A B} (m : M A) (k : A → M B) w :
  (m ≫= k) w = match m w with
               | (Ok a, w') => k a w'
               | (Throw e, w') => (Throw e, w')
               | (Unfinished, w') => (Unfinished, w')
               end.
Proof. reflexivity. Qed.

Lemma bind_ok {A B} (m : M A) (k : A → M B) w a w' :
  m w = (Ok a, w') → (m ≫= k) w = k a w'.
Proof. intros H. by rewrite bind_unfold, H. Qed.

Lemma bind_throw {A B} (m : M A) (k : A → M B) w e w' :
  m w = (Throw e, w') → (m ≫= k) w = (Throw e, w').
Proof. intros H. by rewrite bind_unfold, H. Qed.

Lemma bind_ok_inv {A B} (m : M A) (k : A → M B) w b w'' :
  (m ≫= k) w = (Ok b, w'') → ∃ a w', m w = (Ok a, w') ∧ k a w' = (Ok b, w'').
Proof.
  rewrite bind_unfold. destruct (m w) as [[a|e|] w']; [|done|done].
  intros H. by exists a, w'.
Qed.

(** The world after a find-or-create that had to create. *)
Definition linked (owner : uri) (rel pre cls : string) (w : world) : world :=
  let u := Gen pre (uuids w) "" in
  {| store := insert_data [ Triple owner rel (OUri u); Triple u rdf_type (class cls);
                            Triple u "mu:uuid" (OLit (LUuid (uuids w))) ] (store w);
     uuids := S (uuids w); clock := clock w; downloads := downloads w;
     updates := S (updates w) |}.

Lemma ensure_linked_found owner rel pre cls w b bs :
  objects_of owner rel (store w) = b :: bs →
  ensure_linked owner rel pre cls w = (Ok (binding_value b), w).
Proof. intros H. unfold ensure_linked. rewrite bind_unfold. simpl. by rewrite H. Qed.

Lemma ensure_linked_created owner rel pre cls w :
  objects_of owner rel (store w) = [] →
  ensure_linked owner rel pre cls w = (Ok (Gen pre (uuids w) ""), linked owner rel pre cls w).
Proof. intros H. unfold ensure_linked. rewrite bind_unfold. simpl. by rewrite H. Qed.

(** Find-or-create always returns, deletes nothing, and adds at most the
    link, the type and the uuid of a minted resource. *)
Lemma ensure_linked_spec owner rel pre cls w :
  ∃ u w', ensure_linked owner rel pre cls w = (Ok u, w') ∧
          store w ⊆ store w' ∧
          (∀ t, t ∈ store w' → t ∈ store w ∨ pred t ∈ [rel; rdf_type; "mu:uuid"]) ∧
          Exists (λ b, binding_value b = u) (objects_of owner rel (store w')).
Proof.
  destruct (objects_of owner rel (store w)) as [|b bs] eqn:E.
  - eexists _, _. split; [by apply ensure_linked_created|]. simpl. split; [|split].
    + intros t. rewrite elem_of_insert_data. tauto.
    + intros t. rewrite elem_of_insert_data. intros [?|H]; [by left|right].
      set_unfold. naive_solver.
    + apply Exists_exists. exists (OUri (Gen pre (uuids w) "")). split; [|done].
      apply elem_of_objects_of, elem_of_insert_data. right. left.
  - eexists _, _. split; [by eapply ensure_linked_found|]. split; [done|]. split; [tauto|].
    rewrite E. by left.
Qed.

(** ** C9: currency values of the product-level price accumulate *)




(** The offering-level price, whose allowlist spells the predicate as the
    insert does, is replaced instead. *)
Example offering_price_replaced :
  let o := Ext "http://veeakker.be/offerings/o181" in
  let n := Ext "http://veeakker.be/price-specifications/n181" in
  let w := Sample.with_store
             {[ Triple Sample.product_181 "veeakker:offerings" (OUri o);
                Triple o "gr:hasPriceSpecification" (OUri n);
                Triple n "gr:hasCurrencyValue" (OLit (LDec (999 # 100))) ]} in
  objects_of n "gr:hasCurrencyValue"
    (store (ensureProductOffers Sample.pancakes Sample.product_181 w).2)
  = [OLit (LDec (1037 # 100))].
Proof. vm_compute. reflexivity. Qed.

(** ** Which triples a command can touch *)

(** [only_touches P c]: whatever [c] does, a triple outside [P] is in the
    store afterwards exactly when it was before. *)
Definition only_touches {A} (P : triple → Prop) (c : M A) : Prop :=
  ∀ w t, ¬ P t → (t ∈ store (c w).2 ↔ t ∈ store w).

(** [total c]: [c] returns normally from every world. *)
Definition total {A} (c : M A) : Prop := ∀ w, ∃ a w', c w = (Ok a, w').

Lemma only_touches_mono {A} (P Q : triple → Prop) (c : M A) :
  (∀ t, P t → Q t) → only_touches P c → only_touches Q c.
Proof. intros HPQ Hc w t Ht. apply Hc. auto. Qed.

Lemma only_touches_ret {A} (P : triple → Prop) (a : A) : only_touches P (mret a).
Proof. by intros w t _. Qed.

Lemma only_touches_throw {A} (P : triple → Prop) e : only_touches P (throw e : M A).
Proof. by intros w t _. Qed.

Lemma only_touches_lift {A} (P : triple → Prop) (o : outcome A) : only_touches P (lift o).
Proof. by intros w t _. Qed.

Lemma only_touches_fetched {A} (P : triple → Prop) (o : option A) : only_touches P (fetched o).
Proof. destruct o; by intros w t _. Qed.

Lemma only_touches_query {A} (P : triple → Prop) (f : graph → A) : only_touches P (query f).
Proof. by intros w t _. Qed.

Lemma only_touches_bind {A B} (P : triple → Prop) (m : M A) (k : A → M B) :
  only_touches P m → (∀ a, only_touches P (k a)) → only_touches P (m ≫= k).
Proof.
  intros Hm Hk w t Ht. rewrite bind_unfold. specialize (Hm w t Ht).
  destruct (m w) as [[a|e|] w']; simpl in *; [|done|done].
  by rewrite (Hk a w' t Ht).
Qed.

Lemma only_touches_try_catch {A} (P : triple → Prop) (body : M A) (handler : string → M A) :
  only_touches P body → (∀ e, only_touches P (handler e)) →
  only_touches P (try_catch body handler).
Proof.
  intros Hb Hh w t Ht. unfold try_catch. specialize (Hb w t Ht).
  destruct (body w) as [[a|e|] w']; simpl in *; [done| |done].
  by rewrite (Hh e w' t Ht).
Qed.

Lemma only_touches_for_each {A} (P : triple → Prop) (f : A → M unit) xs :
  (∀ x, only_touches P (f x)) → only_touches P (for_each f xs).
Proof.
  intros Hf. induction xs as [|x xs IH]; simpl.
  - apply only_touches_ret.
  - apply only_touches_bind; auto.
Qed.

Lemma total_bind {A B} (m : M A) (k : A → M B) :
  total m → (∀ a, total (k a)) → total (m ≫= k).
Proof.
  intros Hm Hk w. destruct (Hm w) as (a & w' & E). rewrite (bind_ok _ _ _ _ _ E).
  apply Hk.
Qed.

Lemma total_ret {A} (a : A) : total (mret a).
Proof. intros w. by eexists _, _. Qed.

Lemma total_query {A} (f : graph → A) : total (query f).
Proof. intros w. by eexists _, _. Qed.

Lemma only_touches_update (P : triple → Prop) (f : graph → graph) :
  (∀ g t, ¬ P t → (t ∈ f g ↔ t ∈ g)) → only_touches P (update f).
Proof. intros Hf w t Ht. simpl. by apply Hf. Qed.

Lemma only_touches_uuid (P : triple → Prop) : only_touches P uuid.
Proof. by intros w t _. Qed.

Lemma only_touches_new_Date (P : triple → Prop) : only_touches P new_Date.
Proof. by intros w t _. Qed.

Lemma only_touches_downloadShareFile (P : triple → Prop) U url filename :
  only_touches P (downloadShareFile U url filename).
Proof.
  intros w t _. unfold downloadShareFile.
  by destruct (fetch_ok U url), (has_slash filename.2).
Qed.

Lemma total_update f : total (update f).
Proof. intros w. by eexists _, _. Qed.

Lemma total_uuid : total uuid.
Proof. intros w. by eexists _, _. Qed.

Lemma total_new_Date : total new_Date.
Proof. intros w. by eexists _, _. Qed.

(** [INSERT DATA] touches the triples it lists; a delete by allowlist the
    triples with a listed predicate. *)
Lemma insert_data_touches (P : triple → Prop) ts g t :
  Forall P ts → ¬ P t → (t ∈ insert_data ts g ↔ t ∈ g).
Proof.
  intros Hts Ht. rewrite elem_of_insert_data. split; [|tauto].
  intros [?|Hin]; [done|]. rewrite Forall_forall in Hts. exfalso. by apply Ht, Hts.
Qed.

Lemma delete_preds_touches (P : triple → Prop) s ps g t :
  (∀ t', pred t' ∈ ps → P t') → ¬ P t → (t ∈ delete_preds s ps g ↔ t ∈ g).
Proof.
  intros Hps Ht. rewrite elem_of_delete_preds. split; [tauto|].
  intros Hin. split; [done|]. intros [_ Hp]. by apply Ht, Hps.
Qed.

(** The predicate of a triple is one of [ps]. *)
Definition pred_in (ps : list string) (t : triple) : Prop := pred t ∈ ps.

Global Instance pred_in_dec ps t : Decision (pred_in ps t).
Proof. unfold pred_in. apply _. Defined.

Lemma pred_in_mono ps qs t : ps ⊆ qs → pred_in ps t → pred_in qs t.
Proof. unfold pred_in. set_solver. Qed.

Lemma replace_touches qs s ps ts g t :
  ps ⊆ qs → Forall (pred_in qs) ts → ¬ pred_in qs t →
  (t ∈ insert_data ts (delete_preds s ps g) ↔ t ∈ g).
Proof.
  intros Hps Hts Ht. rewrite (insert_data_touches (pred_in qs)) by done.
  apply (delete_preds_touches (pred_in qs)); [|done]. intros t' Hp. by apply Hps.
Qed.

(** [ps ⊆ qs] for lists of texts given in full. *)
Ltac listed_among :=
  let p := fresh "p" in let Hp := fresh "Hp" in
  intros p Hp;
  repeat (apply elem_of_cons in Hp as [->|Hp]; [decided|]);
  by apply elem_of_nil in Hp.

(** [Forall (pred_in qs) ts] for a list of triples given in full. *)
Ltac all_pred_in :=
  repeat (apply Forall_cons; split; [unfold pred_in; cbn [pred]; decided|]);
  by apply Forall_nil.

Ltac frame_leaf :=
  first [ apply only_touches_ret | apply only_touches_throw | apply only_touches_lift
        | apply only_touches_fetched | apply only_touches_query | apply only_touches_uuid
        | apply only_touches_new_Date | apply only_touches_downloadShareFile ].

Ltac frame_update :=
  apply only_touches_update;
  let g := fresh "g" in let t := fresh "t" in let Ht := fresh "Ht" in
  intros g t Ht;
  first [ eapply replace_touches; [ | | exact Ht]; [listed_among | all_pred_in]
        | eapply insert_data_touches; [|exact Ht]; all_pred_in ].

Ltac frame :=
  repeat first [ frame_leaf | frame_update | apply only_touches_bind; [|intros ?] ].

Lemma ensure_linked_touches owner rel pre cls :
  only_touches (pred_in [rel; rdf_type; "mu:uuid"]) (ensure_linked owner rel pre cls).
Proof.
  unfold ensure_linked. apply only_touches_bind; [frame|]. intros [|b bs]; [|frame].
  apply only_touches_bind; [frame|]. intros k. apply only_touches_bind; [|frame].
  apply only_touches_update. intros g t Ht.
  apply (insert_data_touches (pred_in [rel; rdf_type; "mu:uuid"])); [|done].
  repeat (apply Forall_cons; split; [unfold pred_in; cbn [pred]; set_solver|]).
  by apply Forall_nil.
Qed.

Lemma ensure_linked_total owner rel pre cls : total (ensure_linked owner rel pre cls).
Proof.
  intros w. destruct (ensure_linked_spec owner rel pre cls w) as (u & w' & E & _).
  by exists u, w'.
Qed.

(** ** What each step of [loadProduct] touches *)

Definition meta_predicates : list string :=
  [rdf_type; "mu:uuid"; "adms:identifier"; "skos:notation"; "dct:creator"; "dct:title"].

Lemma ensureProductMeta_touches product :
  only_touches (pred_in meta_predicates) (ensureProductMeta product).
Proof.
  unfold ensureProductMeta. apply only_touches_bind; [frame|]. intros [|b bs]; [|frame].
  frame.
Qed.

Lemma ensureProductMeta_total product : total (ensureProductMeta product).
Proof.
  intros w. unfold ensureProductMeta. rewrite bind_unfold. simpl.
  destruct (product_bindings _ _); by eexists _, _.
Qed.

Lemma ensureProductJobConnection_touches productUri jobUri :
  only_touches (pred_in ["prov:wasGeneratedBy"]) (ensureProductJobConnection productUri jobUri).
Proof. unfold ensureProductJobConnection. frame. Qed.

Lemma base_triples_pred_in product productUri :
  Forall (pred_in base_allowlist) (base_triples product productUri).
Proof.
  unfold base_triples.
  destruct (truthy (description product)), (bio product); simpl; all_pred_in.
Qed.

Lemma ensureBaseProductInfo_touches product productUri :
  only_touches (pred_in base_allowlist) (ensureBaseProductInfo product productUri).
Proof.
  unfold ensureBaseProductInfo. apply only_touches_update. intros g t Ht.
  apply (replace_touches base_allowlist); [done|apply base_triples_pred_in|done].
Qed.

(** ** C2: a unit that cannot be converted *)

(** The payload [loadProduct] works on: the detail page when [external]
    is set, the payload it was given otherwise. *)
Definition payload_used (U : upstream) (listed : product) (options : load_options)
    : option product :=
  if external options then ensureProductPage U (id listed) else Some listed.

(** The predicates of the price and quantity values, and of the links
    from a product to its offering and from the offering to its parts. *)
Definition pricing_value_predicates : list string :=
  ["gr:hasUnitOfMeasurement"; "gr:hasCurrencyValue"; "gr:hascurrencyValue"; "gr:hasValue";
   "gr:amountOfThisGood"; "gr:typeOfGood";
   "veeakker:offerings"; "gr:includesObject"; "gr:hasPriceSpecification"].

(** The links from a product to its two product-level pricing nodes. *)
Definition default_pricing_links : list string :=
  ["veeakker:singleUnitPrice"; "veeakker:targetUnit"].

(** Every pricing triple in the sense of the claim: values and links. *)
Definition pricing_predicates : list string :=
  pricing_value_predicates ++ default_pricing_links.

(** From [pred t ∈ ps] to [¬ pred_in qs t], for disjoint lists of texts
    given in full. *)
Ltac not_among H :=
  unfold pred_in in H |- *;
  repeat (apply elem_of_cons in H as [H|H]; [rewrite H; decided|]);
  by apply elem_of_nil in H.

Lemma touches_run {A} (P : triple → Prop) (c : M A) w r w' t :
  only_touches P c → c w = (r, w') → ¬ P t → (t ∈ store w' ↔ t ∈ store w).
Proof. intros Hc E Ht. specialize (Hc w t Ht). by rewrite E in Hc. Qed.

(** ** C3: supplier exclusion *)

(** A payload whose supplier is a bare name on the ignore list is only
    identity-resolved. *)
Lemma loadProduct_skips_ignored_name U product options w p' :
  payload_used U product options = Some p' →
  ignored (supplier p') = true →
  loadProduct U product options w = (ensureProductMeta p' ≫= λ _, mret tt) w.
Proof.
  intros Hpayload Hignored. unfold loadProduct.
  assert ((if external options then fetched (ensureProductPage U (id product))
           else mret product) w = (Ok p', w)) as E.
  { unfold payload_used in Hpayload. destruct (external options).
    - by rewrite Hpayload.
    - by injection Hpayload as ->. }
  rewrite (bind_ok _ _ _ _ _ E), !bind_unfold.
  destruct (ensureProductMeta p' w) as [[[productUri admsIdentifier]|e|] w1]; [|done|done].
  by rewrite Hignored.
Qed.

(** A supplier given as an object, as detail pages give it, is never on
    the list, whatever its name. *)
Lemma supplier_object_not_ignored info : ignored (SupplierInfo info) = false.
Proof. reflexivity. Qed.

(** C3 at a failing input.  The detail page names the supplier
    "Pintafish (VLB)", in an object; [loadProduct], called with [external]
    set as the page walk calls it, writes the title, creates the offering
    and downloads the picture. *)
Example ignored_supplier_detail_is_loaded :
  let info := {| supplier_name := "Pintafish (VLB)"; supplier_description := None;
                 emailAddress := "info@pintafish.example" |} in
  let detail := Sample.with_supplier (SupplierInfo info) Sample.pancakes in
  let r := loadProduct (Sample.shop detail) Sample.pancakes
             {| external := true; job := None |} Sample.empty_world in
  let productUri := Gen "http://veeakker.be/products/" 0 "" in
  supplier_name info ∈ IGNORED_ORGANIZATIONS ∧
  r.1 = Ok tt ∧
  Triple productUri "dct:title" (OLit (LStr "5 pannenkoeken")) ∈ store r.2 ∧
  objects_of productUri "veeakker:offerings" (store r.2)
    = [OUri (Gen "http://veeakker.be/offerings/" 4 "")] ∧
  downloads r.2 = [("https://img.example/181/c03.png", (7%nat, "png"))].
Proof.
  cbv zeta. split; [decided|]. split; [by vm_compute|]. split; [decided|].
  split; by vm_compute.
Qed.

(** The same payload with the supplier as a bare name is skipped. *)
Example ignored_supplier_name_is_skipped :
  let listed := Sample.with_supplier (SupplierName "Pintafish (VLB)") Sample.pancakes in
  let r := loadProduct (Sample.shop listed) listed
             {| external := false; job := None |} Sample.empty_world in
  r.1 = Ok tt ∧
  objects_of (Gen "http://veeakker.be/products/" 0 "") "dct:title" (store r.2) = [] ∧
  updates r.2 = 1%nat.
Proof. cbv zeta. repeat split; by vm_compute. Qed.

(** ** What a harvest touches *)

(** Every predicate the supplier loader and the page walk write or
    delete: [adms:status] is not among them. *)
Definition harvest_predicates : list string :=
  [ rdf_type; "mu:uuid"; "adms:identifier"; "skos:notation"; "dct:creator"; "dct:title";
    "dct:description"; "veeakker:hasLabel"; "veeakker:plu"; "veeakker:sortIndex";
    "veeakker:lfwProductCanBeOrderedByFractionOfOrderUnit"; "prov:wasGeneratedBy";
    "veeakker:singleUnitPrice"; "veeakker:targetUnit"; "veeakker:offerings";
    "gr:includesObject"; "gr:hasPriceSpecification";
    "gr:hasUnitOfMeasurement"; "gr:hascurrencyValue"; "gr:hasCurrencyValue"; "gr:hasValue";
    "gr:amountOfThisGood"; "gr:typeOfGood";
    "food:ingredientListAsText"; "veeakker:allergensAsText";
    "veeakker:thumbnail"; "dct:source"; "nfo:fileName"; "dct:format"; "nfo:fileSize";
    "dbpedia:fileExtension"; "dct:created"; "nie:dataSource";
    "schema:email"; "gr:offers"; "gr:name" ].

Ltac frame_linked :=
  eapply only_touches_mono; [|apply ensure_linked_touches];
  let t := fresh "t" in let H := fresh "H" in
  intros t H; unfold pred_in in H |- *;
  repeat (apply elem_of_cons in H as [H|H]; [rewrite H; decided|]);
  by apply elem_of_nil in H.

Ltac frame_h :=
  repeat first [ frame_leaf | frame_update | frame_linked
               | apply only_touches_bind; [|intros ?] ].

Lemma ensureProductDefaultPricing_touches product productUri :
  only_touches (pred_in harvest_predicates) (ensureProductDefaultPricing product productUri).
Proof.
  unfold ensureProductDefaultPricing, ensureSingleUnitPriceResource, ensureTargetUnitResource.
  cbv zeta. frame_h.
Qed.

Lemma ensureProductOffers_touches product productUri :
  only_touches (pred_in harvest_predicates) (ensureProductOffers product productUri).
Proof.
  unfold ensureProductOffers, ensureOfferingResources, ensureOffering,
    ensureOfferingTypeAndQuantity, ensureOfferingUnitPrice.
  cbv zeta. frame_h.
Qed.

Lemma ensureProductIngredients_touches U product productUri :
  only_touches (pred_in harvest_predicates) (ensureProductIngredients U product productUri).
Proof.
  unfold ensureProductIngredients. cbv zeta. apply only_touches_update. intros g t Ht.
  destruct (truthy _).
  - apply (replace_touches harvest_predicates); [listed_among|all_pred_in|done].
  - apply (delete_preds_touches (pred_in harvest_predicates)); [|done].
    intros t' Hp. unfold pred_in. revert Hp. generalize (pred t'). listed_among.
Qed.

Lemma ensureProductAllergens_touches U product productUri :
  only_touches (pred_in harvest_predicates) (ensureProductAllergens U product productUri).
Proof.
  unfold ensureProductAllergens. cbv zeta. apply only_touches_update. intros g t Ht.
  destruct (truthy _).
  - apply (replace_touches harvest_predicates); [listed_among|all_pred_in|done].
  - apply (delete_preds_touches (pred_in harvest_predicates)); [|done].
    intros t' Hp. unfold pred_in. revert Hp. generalize (pred t'). listed_among.
Qed.

(** No solution of the second statement instantiates its template. *)
Lemma old_file_template_none solutions : omap old_file_template solutions = [].
Proof. by induction solutions. Qed.

(** What the "remove the old picture" update leaves: everything but the
    allowlisted triples of the shares of the product's thumbnails, and
    the product's thumbnail edges.  The triples of the thumbnail files
    themselves stay. *)
Lemma elem_of_remove_old_picture productUri g t :
  t ∈ remove_old_picture productUri g ↔
    t ∈ g ∧
    ¬ (pred t ∈ share_allowlist ∧
       ∃ thumbnail, Triple productUri "veeakker:thumbnail" thumbnail ∈ g ∧
                    Triple (subj t) "nie:dataSource" thumbnail ∈ g) ∧
    ¬ (subj t = productUri ∧ pred t = "veeakker:thumbnail").
Proof.
  unfold remove_old_picture. cbv zeta.
  rewrite old_file_template_none, list_to_set_nil, difference_empty_L.
  rewrite elem_of_delete_preds, elem_of_filter, Exists_exists, list_elem_of_singleton.
  setoid_rewrite elem_of_objects_of. split.
  - intros [[Hn Hin] Hp]. split; [done|]. split; [|done].
    intros [Hs (th & H1 & H2)]. apply Hn. split; [done|]. by exists th.
  - intros (Hin & Hn & Hp). split; [|done]. split; [|done].
    intros [Hs (th & H1 & H2)]. apply Hn. split; [done|]. by exists th.
Qed.

Lemma remove_old_picture_touches productUri g t :
  ¬ pred_in harvest_predicates t → (t ∈ remove_old_picture productUri g ↔ t ∈ g).
Proof.
  intros Ht. rewrite elem_of_remove_old_picture.
  assert (pred t ∉ share_allowlist) as Hs.
  { intros H. apply Ht. revert H. unfold pred_in. generalize (pred t). listed_among. }
  assert (pred t ≠ "veeakker:thumbnail") as Hth.
  { intros H. apply Ht. unfold pred_in. rewrite H. decided. }
  tauto.
Qed.

Lemma ensureProductPicture_touches U product productUri :
  only_touches (pred_in harvest_predicates) (ensureProductPicture U product productUri).
Proof.
  unfold ensureProductPicture.
  apply only_touches_bind; [destruct (truthy _); frame|]. intros [|]; [frame|].
  apply only_touches_bind.
  { apply only_touches_update. intros g t. apply remove_old_picture_touches. }
  intros _. destruct (truthy _); [|frame].
  unfold first_match.
  apply only_touches_bind; [destruct (match_trailing _ _); frame|]. intros extension.
  apply only_touches_bind; [destruct (match_trailing _ _); frame|]. intros fileName.
  do 4 (apply only_touches_bind; [frame|]; intros ?).
  apply only_touches_bind; [unfold sparqlEscapeString; destruct (mime_getType _ _); frame|].
  intros mimetype. unfold new_picture_triples. cbv zeta. frame_h.
Qed.

Lemma loadProductSupplier_touches U offeringUri supplier :
  only_touches (pred_in harvest_predicates) (loadProductSupplier U offeringUri supplier).
Proof.
  unfold loadProductSupplier. apply only_touches_bind; [frame|]. intros supplierInfos.
  cbv zeta. destruct (head supplierInfos); [|frame]. case_bool_decide; frame_h.
Qed.

Lemma pred_in_harvest_mono ps (c : M unit) :
  ps ⊆ harvest_predicates → only_touches (pred_in ps) c →
  only_touches (pred_in harvest_predicates) c.
Proof. intros Hps. apply only_touches_mono. intros t. by apply pred_in_mono. Qed.

Lemma loadProduct_touches U product options :
  only_touches (pred_in harvest_predicates) (loadProduct U product options).
Proof.
  unfold loadProduct.
  apply only_touches_bind; [destruct (external options); frame|]. intros p'.
  apply only_touches_bind.
  { eapply only_touches_mono; [|apply ensureProductMeta_touches].
    intros t. apply pred_in_mono. listed_among. }
  intros [productUri admsIdentifier]. destruct (ignored _); [frame|].
  apply only_touches_bind.
  { destruct (job options); [|frame]. unfold ensureProductJobConnection. frame. }
  intros _. apply only_touches_bind.
  { eapply only_touches_mono; [|apply ensureBaseProductInfo_touches].
    intros t. apply pred_in_mono. listed_among. }
  intros _. apply only_touches_bind; [apply ensureProductDefaultPricing_touches|].
  intros _. apply only_touches_bind; [apply ensureProductOffers_touches|].
  intros offeringResources.
  apply only_touches_bind; [apply ensureProductIngredients_touches|].
  intros _. apply only_touches_bind; [apply ensureProductAllergens_touches|].
  intros _. apply only_touches_bind; [apply ensureProductPicture_touches|].
  intros _. destruct (supplier p'); [frame|apply loadProductSupplier_touches].
Qed.

Lemma ensure_supplier_touches supplier :
  only_touches (pred_in harvest_predicates) (ensure_supplier supplier).
Proof.
  unfold ensure_supplier. apply only_touches_bind; [frame|]. intros [|]; frame.
Qed.

Lemma rename_suppliers_touches suppliers g t :
  ¬ pred_in harvest_predicates t → (t ∈ rename_suppliers suppliers g ↔ t ∈ g).
Proof.
  intros Ht. unfold rename_suppliers. cbv zeta.
  assert (pred t ≠ "gr:name") as Hname.
  { intros H. apply Ht. unfold pred_in. rewrite H. decided. }
  rewrite elem_of_insert_data, elem_of_filter. split.
  - intros [[_ ?]|H]; [done|].
    apply list_elem_of_fmap in H as ([s n] & -> & _). by destruct Hname.
  - intros Hin. left. split; [|done]. tauto.
Qed.

Lemma loadSuppliers_touches U jobUri :
  only_touches (pred_in harvest_predicates) (loadSuppliers U jobUri).
Proof.
  unfold loadSuppliers. apply only_touches_bind; [frame|]. intros suppliers.
  apply only_touches_bind.
  - apply only_touches_for_each. intros supplier. apply ensure_supplier_touches.
  - intros _. apply only_touches_update. intros g t. apply rename_suppliers_touches.
Qed.

Lemma loadPagesFrom_touches U fuel jobUri counter :
  only_touches (pred_in harvest_predicates) (loadPagesFrom U fuel jobUri counter).
Proof.
  revert counter. induction fuel as [|fuel IH]; intros counter; simpl.
  - by intros w t _.
  - apply only_touches_bind; [frame|]. intros page. apply only_touches_bind.
    + apply only_touches_for_each. intros product. apply loadProduct_touches.
    + intros _. destruct (last page); [frame|apply IH].
Qed.

(** A harvest leaves the status of every job alone: the status of a job
    changes in [startJob], [finishJob] and [errorJob] only. *)
Lemma harvest_keeps_status U fuel jobUri w t :
  pred t = "adms:status" →
  (t ∈ store ((loadSuppliers U jobUri;; loadPages U fuel jobUri) w).2 ↔ t ∈ store w).
Proof.
  intros Hp.
  assert (only_touches (pred_in harvest_predicates)
            (loadSuppliers U jobUri;; loadPages U fuel jobUri)) as H.
  { apply only_touches_bind; [apply loadSuppliers_touches|].
    intros _. apply loadPagesFrom_touches. }
  apply H. unfold pred_in. rewrite Hp. decided.
Qed.

(** ** C7: the job of a harvest that throws *)

Lemma createLoadJob_spec w :
  ∃ w', createLoadJob w = (Ok (Gen "http://veeakker.be/lfw-jobs/" (uuids w) ""), w') ∧
        uuids w' = S (uuids w).
Proof. eexists. unfold createLoadJob. rewrite !bind_unfold. simpl. split; reflexivity. Qed.

Lemma createLoadJob_touches :
  only_touches (pred_in [rdf_type; "mu:uuid"; "dct:created"]) createLoadJob.
Proof. unfold createLoadJob. cbv zeta. frame. Qed.

Lemma set_status_touches jobUri status :
  only_touches (λ t, subj t = jobUri ∧ pred t = "adms:status") (set_status jobUri status).
Proof.
  unfold set_status. apply only_touches_update. intros g t Ht.
  rewrite elem_of_insert_data, elem_of_delete_preds. split.
  - intros [[? _]|H]; [done|]. apply list_elem_of_singleton in H as ->. by destruct Ht.
  - intros Hin. left. split; [done|]. intros [? Hp]. apply list_elem_of_singleton in Hp.
    by destruct Ht.
Qed.

(** The handler of a request touches, of all status triples, those of
    its own job only. *)
Lemma harvest_job_touches U fuel jobUri :
  only_touches (λ t, pred t = "adms:status" → subj t = jobUri)
    (try_catch (harvest_body U fuel jobUri;; mret (200%nat, "Harvest successful"))
               (λ _, errorJob jobUri;; mret (500%nat, "Failed to harvest"))).
Proof.
  assert (∀ status, only_touches (λ t, pred t = "adms:status" → subj t = jobUri)
                      (set_status jobUri status)) as Hset.
  { intros status. eapply only_touches_mono; [|apply set_status_touches]. by intros t [? _]. }
  assert (∀ c : M unit, only_touches (pred_in harvest_predicates) c →
            only_touches (λ t, pred t = "adms:status" → subj t = jobUri) c) as Hharvest.
  { intros c. apply only_touches_mono. intros t Ht Hp. exfalso. revert Ht.
    unfold pred_in. rewrite Hp. decided. }
  apply only_touches_try_catch.
  - apply only_touches_bind; [|frame]. unfold harvest_body.
    apply only_touches_bind; [apply Hset|]. intros _.
    apply only_touches_bind; [apply Hharvest, loadSuppliers_touches|]. intros _.
    apply only_touches_bind; [apply Hharvest, loadPagesFrom_touches|]. intros _.
    apply Hset.
  - intros _. apply only_touches_bind; [apply Hset|frame].
Qed.

Lemma post_harvest_keeps_other_statuses U fuel sessionId w j o :
  j ≠ Gen "http://veeakker.be/lfw-jobs/" (uuids w) "" →
  (Triple j "adms:status" o ∈ store (post_harvest U fuel sessionId w).2
   ↔ Triple j "adms:status" o ∈ store w).
Proof.
  intros Hj. unfold post_harvest. rewrite bind_unfold. unfold isAdminUser, query.
  destruct (bool_decide _); [|done].
  destruct (createLoadJob_spec w) as (w1 & E1 & _). rewrite (bind_ok _ _ _ _ _ E1).
  rewrite (harvest_job_touches U fuel _ w1 (Triple j "adms:status" o)) by (simpl; tauto).
  apply (touches_run _ _ _ _ _ _ createLoadJob_touches E1). decided.
Qed.

(** C7. When the harvest of an administrator throws after its job was
    created (in [startJob], in the supplier loader, in the page walk or
    in [finishJob]), the handler runs [errorJob] last: the request
    answers 500 and the job's only status is [error].  The statuses of all
    other jobs are as they were before the request. *)
Theorem post_harvest_error_status U fuel sessionId w e :
  (isAdminUser sessionId w).1 = Ok true →
  let jobUri := Gen "http://veeakker.be/lfw-jobs/" (uuids w) "" in
  let body := harvest_body U fuel jobUri (createLoadJob w).2 in
  body.1 = Throw e →
  let r := post_harvest U fuel sessionId w in
  r.1 = Ok (500%nat, "Failed to harvest") ∧
  r.2 = (errorJob jobUri body.2).2 ∧
  objects_of jobUri "adms:status" (store r.2) = [status_error] ∧
  (∀ j o, j ≠ jobUri →
     (Triple j "adms:status" o ∈ store r.2 ↔ Triple j "adms:status" o ∈ store w)).
Proof.
  intros Hadmin jobUri body Hbody.
  assert (post_harvest U fuel sessionId w
          = (Ok (500%nat, "Failed to harvest"), (errorJob jobUri body.2).2)) as E.
  { unfold post_harvest. rewrite bind_unfold.
    unfold isAdminUser, query in *. simpl in Hadmin. injection Hadmin as ->.
    destruct (createLoadJob_spec w) as (w1 & E1 & _).
    subst body. rewrite E1 in Hbody |- *. simpl in Hbody |- *.
    rewrite (bind_ok _ _ _ _ _ E1). unfold try_catch.
    destruct (harvest_body U fuel jobUri w1) as [o wb] eqn:Eb. simpl in Hbody. subst o.
    rewrite (bind_throw _ _ _ _ _ Eb). reflexivity. }
  split; [by rewrite E|]. split; [by rewrite E|]. split.
  - cbv zeta. rewrite E. apply set_status_objects.
  - intros j o Hj. by apply post_harvest_keeps_other_statuses.
Qed.

Lemma post_harvest_error_status_witness :
  let U := Sample.shop (Sample.with_unit "lb" Sample.pancakes) in
  let session := Ext "http://mu.semte.ch/sessions/1" in
  let w := Sample.with_store
             {[ Triple session "session:account" (OUri (Ext "account"));
                Triple (Ext "person") "foaf:account" (OUri (Ext "account"));
                Triple (Ext "person") "veeakker:role" (class "veeakker:Administrator") ]} in
  let r := post_harvest U 1 session w in
  r.1 = Ok (500%nat, "Failed to harvest") ∧
  objects_of (Gen "http://veeakker.be/lfw-jobs/" 0 "") "adms:status" (store r.2)
  = [status_error].
Proof.
  intros U session w.
  destruct (post_harvest_error_status U 1 session w "Could not translate unit lb")
    as (H1 & _ & H3 & _).
  - vm_compute. reflexivity.
  - vm_compute. reflexivity.
  - split; [exact H1|exact H3].
Defined.

(** When the body returns, the job is finished. *)
Lemma post_harvest_finished_status U fuel sessionId w wb :
  (isAdminUser sessionId w).1 = Ok true →
  let jobUri := Gen "http://veeakker.be/lfw-jobs/" (uuids w) "" in
  harvest_body U fuel jobUri (createLoadJob w).2 = (Ok tt, wb) →
  let r := post_harvest U fuel sessionId w in
  r = (Ok (200%nat, "Harvest successful"), wb) ∧
  objects_of jobUri "adms:status" (store wb) = [status_finished].
Proof.
  intros Hadmin jobUri Hbody.
  assert (post_harvest U fuel sessionId w = (Ok (200%nat, "Harvest successful"), wb)) as E.
  { unfold post_harvest. rewrite bind_unfold.
    unfold isAdminUser, query in *. simpl in Hadmin. injection Hadmin as ->.
    destruct (createLoadJob_spec w) as (w1 & E1 & _).
    rewrite E1 in Hbody. simpl in Hbody.
    rewrite (bind_ok _ _ _ _ _ E1). unfold try_catch.
    by rewrite (bind_ok _ _ _ _ _ Hbody). }
  cbv zeta. rewrite E. split; [done|].
  unfold harvest_body in Hbody.
  apply bind_ok_inv in Hbody as (_ & w2 & _ & Hbody).
  apply bind_ok_inv in Hbody as (_ & w3 & _ & Hbody).
  apply bind_ok_inv in Hbody as (_ & w4 & _ & Hbody).
  pose proof (set_status_objects jobUri status_finished w4) as H.
  unfold finishJob in Hbody. rewrite Hbody in H. exact H.
Qed.


(** ** Minted IRIs are new *)

(** One more than the uuid inside a minted IRI. *)
Definition uri_bound (u : uri) : nat :=
  match u with Gen _ k _ => S k | _ => 0 end.

Definition obj_bound (o : obj) : nat :=
  match o with
  | OUri u => uri_bound u
  | OLit (LUuid k) => S k
  | OLit _ => 0
  end.

Definition triple_bound (t : triple) : nat :=
  uri_bound (subj t) `max` obj_bound (object t).

(** The store names no uuid that is still to be handed out, in an IRI or
    as a literal: what [uuid()] returns next is new to the store. *)
Definition well_numbered (w : world) : Prop :=
  set_Forall (λ t, (triple_bound t ≤ uuids w)%nat) (store w).

Global Instance well_numbered_dec w : Decision (well_numbered w).
Proof. unfold well_numbered. apply _. Defined.

Lemma well_numbered_subj w pre k suf p o :
  well_numbered w → (uuids w ≤ k)%nat → Triple (Gen pre k suf) p o ∉ store w.
Proof.
  intros Hw Hk Hin. specialize (Hw _ Hin). unfold triple_bound in Hw. simpl in Hw. lia.
Qed.

Lemma well_numbered_obj w pre k suf s p :
  well_numbered w → (uuids w ≤ k)%nat → Triple s p (OUri (Gen pre k suf)) ∉ store w.
Proof.
  intros Hw Hk Hin. specialize (Hw _ Hin). unfold triple_bound in Hw. simpl in Hw. lia.
Qed.

(** ** C5: stable identity *)

Lemma elem_of_product_bindings notation g p i :
  (p, i) ∈ product_bindings notation g ↔
    Triple i "skos:notation" (OLit (LStr notation)) ∈ g ∧
    Triple i rdf_type (class "adms:Identifier") ∈ g ∧
    Triple i "dct:creator" lfw ∈ g ∧
    Triple p "adms:identifier" (OUri i) ∈ g ∧
    Triple p rdf_type (class "schema:Product") ∈ g.
Proof.
  unfold product_bindings. rewrite list_elem_of_bind. split.
  - intros (i' & Hp & Hi). apply list_elem_of_filter in Hi as [[Ht Hc] Hn].
    apply elem_of_subjects_of in Hn.
    apply list_elem_of_bind in Hp as (p' & Hpi & Hp).
    apply list_elem_of_singleton in Hpi as [= -> ->].
    apply list_elem_of_filter in Hp as [Hpt Hp]. apply elem_of_subjects_of in Hp.
    done.
  - intros (Hn & Ht & Hc & Hp & Hpt). exists i. split.
    + apply list_elem_of_bind. exists p. split; [by apply list_elem_of_singleton|].
      apply list_elem_of_filter. split; [done|]. by apply elem_of_subjects_of.
    + apply list_elem_of_filter. split; [done|]. by apply elem_of_subjects_of.
Qed.

(** The select query of [ensureProductMeta] for [notation] reads the
    notation's identifiers, their type and creator, the nodes they
    identify and whether those are products. *)
Lemma product_bindings_same notation g g' :
  (∀ i, Triple i "skos:notation" (OLit (LStr notation)) ∈ g'
        ↔ Triple i "skos:notation" (OLit (LStr notation)) ∈ g) →
  (∀ i, Triple i "skos:notation" (OLit (LStr notation)) ∈ g →
        (Triple i rdf_type (class "adms:Identifier") ∈ g'
         ↔ Triple i rdf_type (class "adms:Identifier") ∈ g) ∧
        (Triple i "dct:creator" lfw ∈ g' ↔ Triple i "dct:creator" lfw ∈ g) ∧
        (∀ p, Triple p "adms:identifier" (OUri i) ∈ g'
              ↔ Triple p "adms:identifier" (OUri i) ∈ g) ∧
        (∀ p, Triple p "adms:identifier" (OUri i) ∈ g →
              (Triple p rdf_type (class "schema:Product") ∈ g'
               ↔ Triple p rdf_type (class "schema:Product") ∈ g))) →
  product_bindings notation g' = product_bindings notation g.
Proof.
  intros Hn Hi. unfold product_bindings.
  rewrite (subjects_of_same _ _ g g') by exact Hn.
  rewrite (list_filter_ext_in
             (λ i, Triple i rdf_type (class "adms:Identifier") ∈ g' ∧ Triple i "dct:creator" lfw ∈ g')
             (λ i, Triple i rdf_type (class "adms:Identifier") ∈ g ∧ Triple i "dct:creator" lfw ∈ g)).
  2:{ intros i Hin. apply elem_of_subjects_of in Hin.
      destruct (Hi i Hin) as (H1 & H2 & _). by rewrite H1, H2. }
  apply list_bind_ext_in. intros i Hin.
  apply list_elem_of_filter in Hin as [_ Hin]. apply elem_of_subjects_of in Hin.
  destruct (Hi i Hin) as (_ & _ & H3 & H4).
  rewrite (subjects_of_same _ _ g g') by exact H3.
  rewrite (list_filter_ext_in
             (λ p, Triple p rdf_type (class "schema:Product") ∈ g')
             (λ p, Triple p rdf_type (class "schema:Product") ∈ g)); [done|].
  intros p Hp. apply elem_of_subjects_of in Hp. by apply H4.
Qed.

(** After the create branch of [ensureProductMeta] the select query has
    the created pair as its only binding. *)
Lemma product_bindings_created notation w b :
  well_numbered w →
  product_bindings notation (store w) = [] →
  let productUri := Gen "http://veeakker.be/products/" (uuids w) "" in
  let admsIdentifier := Gen "http://data.redpencil.io/identifiers/" (S (uuids w)) "" in
  b ∈ product_bindings notation
        (insert_data
           [ Triple productUri rdf_type (class "schema:Product");
             Triple productUri "mu:uuid" (OLit (LUuid (uuids w)));
             Triple productUri "adms:identifier" (OUri admsIdentifier);
             Triple admsIdentifier rdf_type (class "adms:Identifier");
             Triple admsIdentifier "mu:uuid" (OLit (LUuid (S (uuids w))));
             Triple admsIdentifier "skos:notation" (OLit (LStr notation));
             Triple admsIdentifier "dct:creator" lfw;
             Triple admsIdentifier "dct:title" (OLit (LStr ("LFW " ++ notation))) ]
           (store w))
  ↔ b = (productUri, admsIdentifier).
Proof.
  intros Hw Hnone productUri admsIdentifier. destruct b as [p i].
  rewrite elem_of_product_bindings. split.
  - intros (Hn & Ht & Hc & Hp & Hpt).
    assert (¬ (p, i) ∈ product_bindings notation (store w)) as Hold
      by (rewrite Hnone; apply not_elem_of_nil).
    rewrite elem_of_product_bindings in Hold.
    assert (∀ p' o, Triple productUri p' o ∉ store w) as HP
      by (intros; by apply well_numbered_subj).
    assert (∀ p' o, Triple admsIdentifier p' o ∉ store w) as HI
      by (intros; apply well_numbered_subj; [done|lia]).
    assert (∀ s p', Triple s p' (OUri admsIdentifier) ∉ store w) as HIo
      by (intros; apply well_numbered_obj; [done|lia]).
    set_unfold. naive_solver.
  - intros [= -> ->]. set_unfold. naive_solver.
Qed.

(** The predicates the select queries for products and suppliers read. *)
Definition identity_predicates : list string :=
  [ rdf_type; "adms:identifier"; "skos:notation"; "dct:creator" ].

(** Every predicate of a harvest that no select query for a product
    reads. *)
Definition plain_predicates : list string :=
  [ "mu:uuid"; "dct:title";
    "dct:description"; "veeakker:hasLabel"; "veeakker:plu"; "veeakker:sortIndex";
    "veeakker:lfwProductCanBeOrderedByFractionOfOrderUnit"; "prov:wasGeneratedBy";
    "veeakker:singleUnitPrice"; "veeakker:targetUnit"; "veeakker:offerings";
    "gr:includesObject"; "gr:hasPriceSpecification";
    "gr:hasUnitOfMeasurement"; "gr:hascurrencyValue"; "gr:hasCurrencyValue"; "gr:hasValue";
    "gr:amountOfThisGood"; "gr:typeOfGood";
    "food:ingredientListAsText"; "veeakker:allergensAsText";
    "veeakker:thumbnail"; "dct:source"; "nfo:fileName"; "dct:format"; "nfo:fileSize";
    "dbpedia:fileExtension"; "dct:created"; "nie:dataSource";
    "schema:email"; "gr:offers"; "gr:name" ].

(** An identity triple about nodes minted from uuid [k] on, which gives
    no identifier the notation [n]. *)
Definition minted_identity (n : string) (k : nat) (t : triple) : Prop :=
  (k < uri_bound (subj t))%nat ∧
  (pred t = "adms:identifier" → (k < obj_bound (object t))%nat) ∧
  ¬ (pred t = "skos:notation" ∧ object t = OLit (LStr n)).

(** From [g] to [g'] the identity triples have only grown, by triples
    about nodes minted from [k] on, none of them with notation [n]. *)
Definition identity_grown (n : string) (k : nat) (g g' : graph) : Prop :=
  ∀ t, pred t ∈ identity_predicates →
       (t ∈ g → t ∈ g') ∧ (t ∈ g' → t ∉ g → minted_identity n k t).

Lemma identity_grown_refl n k g : identity_grown n k g g.
Proof. intros t _. by split. Qed.

Lemma identity_grown_trans n k g1 g2 g3 :
  identity_grown n k g1 g2 → identity_grown n k g2 g3 → identity_grown n k g1 g3.
Proof.
  intros H12 H23 t Ht. destruct (H12 t Ht) as [K12 N12], (H23 t Ht) as [K23 N23].
  split; [auto|]. intros H3 H1.
  destruct (decide (t ∈ g2)) as [H2|H2]; [by apply N12|by apply N23].
Qed.

Lemma identity_grown_member n k g g' b :
  identity_grown n k g g' → b ∈ product_bindings n g → b ∈ product_bindings n g'.
Proof.
  intros H. destruct b as [p i]. rewrite !elem_of_product_bindings.
  intros (H1 & H2 & H3 & H4 & H5).
  repeat split; (apply H; [cbn [pred]; decided|done]).
Qed.

(** In a store that names no uuid from [k] on, the select query for
    notation [n] has the bindings it had, in their order. *)
Lemma identity_grown_bindings n k g g' :
  set_Forall (λ t, (triple_bound t ≤ k)%nat) g →
  identity_grown n k g g' →
  product_bindings n g' = product_bindings n g.
Proof.
  intros Hk H.
  assert (∀ t, pred t ∈ identity_predicates → t ∈ g' → t ∉ g → minted_identity n k t)
    as Hnew by (intros t Ht; by apply H).
  assert (∀ t, pred t ∈ identity_predicates → t ∈ g → t ∈ g') as Hkeep
    by (intros t Ht; by apply H).
  assert (∀ s p o, Triple s p o ∈ g → (uri_bound s ≤ k)%nat) as Hs.
  { intros s p o Hin. specialize (Hk _ Hin). unfold triple_bound in Hk. simpl in Hk. lia. }
  assert (∀ s p o, p ∈ identity_predicates → Triple s p o ∈ g' → (uri_bound s ≤ k)%nat →
                   Triple s p o ∈ g) as Hold.
  { intros s p o Hp Hin Hb. destruct (decide (Triple s p o ∈ g)) as [|Hn]; [done|].
    destruct (Hnew (Triple s p o) Hp Hin Hn) as [Hf _]. simpl in Hf. lia. }
  apply product_bindings_same.
  - intros i. split; [|apply Hkeep; cbn [pred]; decided].
    intros Hin. destruct (decide (Triple i "skos:notation" (OLit (LStr n)) ∈ g)) as [|Hn];
      [done|].
    destruct (Hnew (Triple i "skos:notation" (OLit (LStr n))) ltac:(cbn [pred]; decided)
                Hin Hn) as (_ & _ & Hf). by destruct Hf.
  - intros i Hi. pose proof (Hs _ _ _ Hi) as Hbi. split; [|split; [|split]].
    + split; [|apply Hkeep; cbn [pred]; decided]. intros Hin. apply Hold; [decided|done|done].
    + split; [|apply Hkeep; cbn [pred]; decided]. intros Hin. apply Hold; [decided|done|done].
    + intros p. split; [|apply Hkeep; cbn [pred]; decided]. intros Hin.
      destruct (decide (Triple p "adms:identifier" (OUri i) ∈ g)) as [|Hn]; [done|].
      destruct (Hnew (Triple p "adms:identifier" (OUri i)) ltac:(cbn [pred]; decided) Hin Hn)
        as (_ & Hf & _).
      specialize (Hf eq_refl). simpl in Hf. lia.
    + intros p Hp. split; [|apply Hkeep; cbn [pred]; decided]. intros Hin.
      apply Hold; [decided|done|]. by eapply Hs.
Qed.

(** A command that leaves the lookup of notation [n] alone, when run
    after [k] uuids were handed out in a store that knows the notation. *)
Definition keeps_identity {A} (n : string) (k : nat) (c : M A) : Prop :=
  ∀ w, (k ≤ uuids w)%nat → product_bindings n (store w) ≠ [] →
       (uuids w ≤ uuids (c w).2)%nat ∧ identity_grown n k (store w) (store (c w).2).

Lemma identity_grown_known n k g g' :
  identity_grown n k g g' → product_bindings n g ≠ [] → product_bindings n g' ≠ [].
Proof.
  intros H Hg. destruct (product_bindings n g) as [|b bs] eqn:E; [done|].
  intros E'. assert (b ∈ product_bindings n g') as Hin.
  { eapply identity_grown_member; [done|]. rewrite E. left. }
  rewrite E' in Hin. by apply elem_of_nil in Hin.
Qed.

Lemma keeps_bind {A B} n k (m : M A) (f : A → M B) :
  keeps_identity n k m → (∀ a, keeps_identity n k (f a)) → keeps_identity n k (m ≫= f).
Proof.
  intros Hm Hf w Hk Hb. rewrite bind_unfold. destruct (Hm w Hk Hb) as [Hu Hg].
  destruct (m w) as [[a|e|] w1]; [|done|done]. cbn [snd] in Hu, Hg.
  destruct (Hf a w1) as [Hu' Hg']; [lia|by eapply identity_grown_known|].
  split; [lia|]. by eapply identity_grown_trans.
Qed.

Lemma keeps_same {A} n k (c : M A) :
  (∀ w, store (c w).2 = store w ∧ (uuids w ≤ uuids (c w).2)%nat) → keeps_identity n k c.
Proof.
  intros H w _ _. destruct (H w) as [-> Hu]. split; [done|apply identity_grown_refl].
Qed.

Lemma keeps_ret {A} n k (a : A) : keeps_identity n k (mret a).
Proof. by apply keeps_same. Qed.

Lemma keeps_throw {A} n k e : keeps_identity n k (throw e : M A).
Proof. by apply keeps_same. Qed.

Lemma keeps_lift {A} n k (o : outcome A) : keeps_identity n k (lift o).
Proof. by apply keeps_same. Qed.

Lemma keeps_fetched {A} n k (o : option A) : keeps_identity n k (fetched o).
Proof. apply keeps_same. by destruct o. Qed.

Lemma keeps_query {A} n k (f : graph → A) : keeps_identity n k (query f).
Proof. by apply keeps_same. Qed.

Lemma keeps_new_Date n k : keeps_identity n k new_Date.
Proof. by apply keeps_same. Qed.

Lemma keeps_first_match n k m : keeps_identity n k (first_match m).
Proof. apply keeps_same. by destruct m. Qed.

Lemma keeps_sparqlEscapeString n k m : keeps_identity n k (sparqlEscapeString m).
Proof. apply keeps_same. by destruct m. Qed.

Lemma keeps_downloadShareFile n k U url filename :
  keeps_identity n k (downloadShareFile U url filename).
Proof.
  apply keeps_same. intros w. unfold downloadShareFile.
  by destruct (fetch_ok U url), (has_slash filename.2).
Qed.

(** What comes after [uuid()] is run with a uuid not below [k]. *)
Lemma keeps_uuid_bind {B} n k (f : nat → M B) :
  (∀ a, (k ≤ a)%nat → keeps_identity n k (f a)) → keeps_identity n k (uuid ≫= f).
Proof.
  intros Hf w Hk Hb. rewrite bind_unfold. cbn [uuid].
  destruct (Hf (uuids w) Hk {| store := store w; uuids := S (uuids w); clock := clock w;
                               downloads := downloads w; updates := updates w |})
    as [Hu Hg]; [simpl; lia|done|].
  simpl in Hu. split; [lia|done].
Qed.

(** An update that names none of the identity predicates. *)
Lemma keeps_update n k f :
  only_touches (pred_in plain_predicates) (update f) → keeps_identity n k (update f).
Proof.
  intros Hf w _ _. split; [done|]. intros t Ht.
  assert (t ∈ store (update f w).2 ↔ t ∈ store w) as Hsame.
  { apply Hf. unfold pred_in. intros Hp. revert Ht Hp. generalize (pred t).
    intros p Hp. repeat (apply elem_of_cons in Hp as [->|Hp]; [decided|]).
    by apply elem_of_nil in Hp. }
  split; intros H; [by apply Hsame|]. intros Hn. destruct Hn. by apply Hsame.
Qed.

(** An insert whose identity triples are about minted nodes. *)
Lemma keeps_insert n k ts :
  Forall (λ t, pred t ∈ identity_predicates → minted_identity n k t) ts →
  keeps_identity n k (update (insert_data ts)).
Proof.
  intros Hts w _ _. split; [done|]. intros t Ht. cbn [update snd store].
  rewrite elem_of_insert_data. split; [by left|].
  intros [?|Hin] Hn; [done|]. rewrite Forall_forall in Hts. by apply Hts.
Qed.

Lemma keeps_ensure_linked n k owner rel pre cls :
  rel ∈ plain_predicates → keeps_identity n k (ensure_linked owner rel pre cls).
Proof.
  intros Hrel. unfold ensure_linked.
  apply keeps_bind; [apply keeps_query|]. intros [|b bs]; [|apply keeps_ret].
  apply keeps_uuid_bind. intros u Hu.
  apply keeps_bind; [|intros ?; apply keeps_ret].
  apply keeps_insert. repeat (apply Forall_cons; split); [| | |by apply Forall_nil];
    cbn [pred subj object].
  - intros H. exfalso. revert Hrel H. generalize rel. intros p Hp.
    repeat (apply elem_of_cons in Hp as [->|Hp]; [decided|]). by apply elem_of_nil in Hp.
  - intros _. split; [simpl; lia|]. by split; [|intros [? _]].
  - intros H. exfalso. revert H. decided.
Qed.

(** Identity resolution of a payload: a notation already known is
    found; another is created from new uuids. *)
Lemma keeps_ensureProductMeta n k q : keeps_identity n k (ensureProductMeta q).
Proof.
  intros w Hk Hb. unfold ensureProductMeta. rewrite bind_unfold. cbn [query].
  destruct (product_bindings (pretty (id q)) (store w)) as [|b bs] eqn:E;
    [|split; [done|apply identity_grown_refl]].
  assert (pretty (id q) ≠ n) as Hn by (intros <-; by rewrite E in Hb).
  simpl. split; [lia|]. intros t Ht. rewrite elem_of_insert_data. split; [by left|].
  intros [?|Hin] Hnew; [done|].
  repeat (apply elem_of_cons in Hin as [->|Hin];
          [first [ exfalso; revert Ht; cbn [pred]; decided
                 | split; [simpl; lia|]; cbn [pred object]; split;
                   [ intros H; first [exfalso; revert H; decided | simpl; lia]
                   | intros [H H']; first [revert H; decided | congruence] ] ]|]).
  by apply elem_of_nil in Hin.
Qed.

Ltac keep :=
  repeat first [ apply keeps_ret | apply keeps_throw | apply keeps_lift | apply keeps_fetched
               | apply keeps_query | apply keeps_new_Date | apply keeps_downloadShareFile
               | apply keeps_first_match | apply keeps_sparqlEscapeString
               | apply keeps_ensure_linked; decided
               | apply keeps_update; frame_update
               | apply keeps_bind; [|intros ?] ].

Lemma keeps_text_update n k s p (text : option string) :
  p ∈ plain_predicates →
  keeps_identity n k
    (update (λ g, let g' := delete_preds s [p] g in
                  match truthy text with
                  | Some text => insert_data [ Triple s p (OLit (LStr text)) ] g'
                  | None => g'
                  end)).
Proof.
  intros Hp. apply keeps_update, only_touches_update. intros g t Ht. cbv zeta.
  assert (pred t ≠ p) as Hne by (intros E; apply Ht; unfold pred_in; by rewrite E).
  destruct (truthy text).
  - rewrite elem_of_insert_data, elem_of_delete_preds, list_elem_of_singleton. split.
    + intros [[? _]|E%list_elem_of_singleton]; [done|]. destruct Hne. by rewrite E.
    + intros Hin. left. split; [done|]. by intros [_ ?].
  - rewrite elem_of_delete_preds. split; [tauto|]. intros Hin. split; [done|].
    by intros [_ ?%list_elem_of_singleton].
Qed.

Lemma keeps_ensureProductPicture U n k product productUri :
  keeps_identity n k (ensureProductPicture U product productUri).
Proof.
  unfold ensureProductPicture.
  apply keeps_bind; [destruct (truthy _); keep|]. intros [|]; [keep|].
  apply keeps_bind.
  { apply keeps_update, only_touches_update. intros g t Ht.
    rewrite elem_of_remove_old_picture.
    assert (pred t ∉ share_allowlist) as Hs.
    { intros H. apply Ht. revert H. unfold pred_in. generalize (pred t). listed_among. }
    assert (pred t ≠ "veeakker:thumbnail") as Hth.
    { intros H. apply Ht. unfold pred_in. rewrite H. decided. }
    tauto. }
  intros _. destruct (truthy _) as [url|]; [|keep].
  apply keeps_bind; [keep|]. intros extension.
  apply keeps_bind; [keep|]. intros fileName.
  apply keeps_uuid_bind. intros shareResourceUuid Hshare.
  apply keeps_uuid_bind. intros fileResourceUuid _.
  do 3 (apply keeps_bind; [keep|]; intros ?).
  apply keeps_insert. unfold new_picture_triples. cbv zeta.
  repeat (apply Forall_cons; split;
          [cbn [pred subj object]; intros H;
           first [ exfalso; revert H; decided
                 | split; [simpl; lia|]; split;
                   [intros H'; exfalso; revert H'; decided
                   |intros [H' _]; revert H'; decided] ]|]).
  by apply Forall_nil.
Qed.

(** Loading a product, whatever the payload and however the load ends,
    leaves the lookup of a notation the store knows as it is. *)
Lemma keeps_loadProduct U n k product options :
  keeps_identity n k (loadProduct U product options).
Proof.
  unfold loadProduct.
  apply keeps_bind; [destruct (external options); keep|]. intros p'.
  apply keeps_bind; [apply keeps_ensureProductMeta|]. intros [productUri admsIdentifier].
  destruct (ignored _); [keep|].
  apply keeps_bind.
  { destruct (job options); [|keep]. unfold ensureProductJobConnection. keep. }
  intros _. apply keeps_bind.
  { unfold ensureBaseProductInfo. apply keeps_update.
    eapply only_touches_mono; [|apply ensureBaseProductInfo_touches].
    intros t. unfold pred_in. generalize (pred t). listed_among. }
  intros _. apply keeps_bind.
  { unfold ensureProductDefaultPricing, ensureSingleUnitPriceResource,
      ensureTargetUnitResource. cbv zeta. keep. }
  intros _. apply keeps_bind.
  { unfold ensureProductOffers, ensureOfferingResources, ensureOffering,
      ensureOfferingTypeAndQuantity, ensureOfferingUnitPrice. cbv zeta. keep. }
  intros offeringResources. apply keeps_bind.
  { unfold ensureProductIngredients. cbv zeta. apply keeps_text_update. decided. }
  intros _. apply keeps_bind.
  { unfold ensureProductAllergens. cbv zeta. apply keeps_text_update. decided. }
  intros _. apply keeps_bind; [apply keeps_ensureProductPicture|]. intros _.
  destruct (supplier p') as [|info]; [keep|].
  unfold loadProductSupplier. apply keeps_bind; [keep|]. intros supplierInfos.
  cbv zeta. destruct (head supplierInfos) as [supplierUri|]; [|keep].
  destruct (bool_decide _); keep.
Qed.

(** The world after a run of loads, each from where the one before
    ended, whether it returned or threw. *)
Definition after_loads (U : upstream) (loads : list (product * load_options)) (w : world)
    : world :=
  fold_left (λ w load, (loadProduct U load.1 load.2 w).2) loads w.

Lemma after_loads_keeps U n k loads w :
  (k ≤ uuids w)%nat → product_bindings n (store w) ≠ [] →
  identity_grown n k (store w) (store (after_loads U loads w)).
Proof.
  revert w. induction loads as [|[q o] loads IH]; intros w Hk Hb.
  - apply identity_grown_refl.
  - destruct (keeps_loadProduct U n k q o w Hk Hb) as [Hu Hg].
    eapply identity_grown_trans; [exact Hg|]. apply IH; [simpl; lia|].
    by eapply identity_grown_known.
Qed.

(** C5. Identity resolution keys on the external id: the pair
    [ensureProductMeta] returns is recorded in the store under the
    stringified id and the source-system marker, and a later call with a
    payload of the same id and any other fields returns that pair and
    writes nothing, whatever products were loaded in between and however
    those loads ended.  The lookups of other ids are as they were before
    the first call, which has written nothing for an id it found and
    the eight triples of a new product and identifier for one it did
    not. *)
Theorem ensureProductMeta_stable U p1 p2 loads w :
  well_numbered w →
  id p1 = id p2 →
  let r1 := ensureProductMeta p1 w in
  let w' := after_loads U loads r1.2 in
  ∃ productUri admsIdentifier,
    r1.1 = Ok (productUri, admsIdentifier) ∧
    Forall (λ t, t ∈ store r1.2)
      [ Triple productUri rdf_type (class "schema:Product");
        Triple productUri "adms:identifier" (OUri admsIdentifier);
        Triple admsIdentifier rdf_type (class "adms:Identifier");
        Triple admsIdentifier "skos:notation" (OLit (LStr (pretty (id p1))));
        Triple admsIdentifier "dct:creator" lfw ] ∧
    ensureProductMeta p2 w' = (Ok (productUri, admsIdentifier), w') ∧
    (∀ p3, id p3 ≠ id p1 →
           product_bindings (pretty (id p3)) (store r1.2)
           = product_bindings (pretty (id p3)) (store w)) ∧
    (∀ t, t ∈ store r1.2 ↔
          t ∈ store w ∨
          (product_bindings (pretty (id p1)) (store w) = [] ∧
           t ∈ [ Triple productUri rdf_type (class "schema:Product");
                 Triple productUri "mu:uuid" (OLit (LUuid (uuids w)));
                 Triple productUri "adms:identifier" (OUri admsIdentifier);
                 Triple admsIdentifier rdf_type (class "adms:Identifier");
                 Triple admsIdentifier "mu:uuid" (OLit (LUuid (S (uuids w))));
                 Triple admsIdentifier "skos:notation" (OLit (LStr (pretty (id p1))));
                 Triple admsIdentifier "dct:creator" lfw;
                 Triple admsIdentifier "dct:title"
                   (OLit (LStr ("LFW " ++ pretty (id p1)))) ])).
Proof.
  intros Hw Hid r1 w'.
  assert (∃ productUri admsIdentifier,
            r1.1 = Ok (productUri, admsIdentifier) ∧
            well_numbered r1.2 ∧
            (∀ b bs, product_bindings (pretty (id p1)) (store r1.2) = b :: bs →
                     b = (productUri, admsIdentifier)) ∧
            product_bindings (pretty (id p1)) (store r1.2) ≠ [] ∧
            (∀ m, m ≠ pretty (id p1) →
                  identity_grown m (uuids w) (store w) (store r1.2)) ∧
            (∀ t, t ∈ store r1.2 ↔
                  t ∈ store w ∨
                  (product_bindings (pretty (id p1)) (store w) = [] ∧
                   t ∈ [ Triple productUri rdf_type (class "schema:Product");
                           Triple productUri "mu:uuid" (OLit (LUuid (uuids w)));
                           Triple productUri "adms:identifier" (OUri admsIdentifier);
                           Triple admsIdentifier rdf_type (class "adms:Identifier");
                           Triple admsIdentifier "mu:uuid" (OLit (LUuid (S (uuids w))));
                           Triple admsIdentifier "skos:notation" (OLit (LStr (pretty (id p1))));
                           Triple admsIdentifier "dct:creator" lfw;
                           Triple admsIdentifier "dct:title"
                             (OLit (LStr ("LFW " ++ pretty (id p1)))) ])))
    as (productUri & admsIdentifier & Hr & Hw1 & Hhead & Hknown & Hother & Hwritten).
  { unfold r1, ensureProductMeta. rewrite bind_unfold. cbn [query].
    destruct (product_bindings (pretty (id p1)) (store w)) as [|[p i] bs] eqn:E.
    - simpl. eexists _, _. split; [reflexivity|].
      pose proof (λ b, product_bindings_created (pretty (id p1)) w b Hw E) as Hb.
      cbv zeta in Hb. split; [|split; [|split; [|split]]]; cycle 4.
      { intros t. cbn [store]. rewrite elem_of_insert_data. split.
        - intros [?|?]; [by left|right; by split].
        - intros [?|[_ ?]]; [by left|by right]. }
      + intros t Ht. cbn [store uuids] in *. apply elem_of_insert_data in Ht as [Ht|Ht].
        * specialize (Hw _ Ht). simpl in Hw. lia.
        * repeat (apply elem_of_cons in Ht as [->|Ht];
                  [unfold triple_bound; simpl; lia|]).
          by apply elem_of_nil in Ht.
      + intros b bs' Eb. apply Hb. cbn [store]. rewrite Eb. left.
      + cbn [store]. intros Eb.
        assert ((Gen "http://veeakker.be/products/" (uuids w) "",
                 Gen "http://data.redpencil.io/identifiers/" (S (uuids w)) "")
                ∈ product_bindings (pretty (id p1))
                    (insert_data
                       [ Triple (Gen "http://veeakker.be/products/" (uuids w) "") rdf_type
                           (class "schema:Product");
                         Triple (Gen "http://veeakker.be/products/" (uuids w) "") "mu:uuid"
                           (OLit (LUuid (uuids w)));
                         Triple (Gen "http://veeakker.be/products/" (uuids w) "")
                           "adms:identifier"
                           (OUri (Gen "http://data.redpencil.io/identifiers/"
                                    (S (uuids w)) ""));
                         Triple (Gen "http://data.redpencil.io/identifiers/" (S (uuids w)) "")
                           rdf_type (class "adms:Identifier");
                         Triple (Gen "http://data.redpencil.io/identifiers/" (S (uuids w)) "")
                           "mu:uuid" (OLit (LUuid (S (uuids w))));
                         Triple (Gen "http://data.redpencil.io/identifiers/" (S (uuids w)) "")
                           "skos:notation" (OLit (LStr (pretty (id p1))));
                         Triple (Gen "http://data.redpencil.io/identifiers/" (S (uuids w)) "")
                           "dct:creator" lfw;
                         Triple (Gen "http://data.redpencil.io/identifiers/" (S (uuids w)) "")
                           "dct:title" (OLit (LStr ("LFW " ++ pretty (id p1)))) ]
                       (store w))) as Hin by (by apply Hb).
        rewrite Eb in Hin. by apply elem_of_nil in Hin.
      + intros m Hm t Ht. cbn [store]. rewrite elem_of_insert_data. split; [by left|].
        intros [?|Hin] Hnew; [done|].
        repeat (apply elem_of_cons in Hin as [->|Hin];
                [first [ exfalso; revert Ht; cbn [pred]; decided
                       | split; [simpl; lia|]; cbn [pred object]; split;
                         [ intros H; first [exfalso; revert H; decided | simpl; lia]
                         | intros [H H']; first [revert H; decided | congruence] ] ]|]).
        by apply elem_of_nil in Hin.
    - simpl. exists p, i. split; [done|]. split; [done|]. split; [|split; [|split]].
      + intros b bs' Eb. rewrite E in Eb. by injection Eb as <-.
      + by rewrite E.
      + intros m _. apply identity_grown_refl.
      + intros t. split; [by left|]. by intros [?|[[=] _]]. }
  exists productUri, admsIdentifier. split; [done|].
  assert ((productUri, admsIdentifier) ∈ product_bindings (pretty (id p1)) (store r1.2))
    as Hpair.
  { destruct (product_bindings (pretty (id p1)) (store r1.2)) as [|b bs] eqn:E; [done|].
    rewrite (Hhead b bs eq_refl). left. }
  split; [|split; [|split; [|done]]].
  - apply elem_of_product_bindings in Hpair as (H1 & H2 & H3 & H4 & H5).
    by repeat (apply Forall_cons; split).
  - assert (product_bindings (pretty (id p1)) (store w')
            = product_bindings (pretty (id p1)) (store r1.2)) as Esame.
    { apply (identity_grown_bindings _ (uuids r1.2)); [exact Hw1|].
      by apply after_loads_keeps. }
    unfold ensureProductMeta. rewrite bind_unfold. cbn [query]. rewrite <- Hid, Esame.
    destruct (product_bindings (pretty (id p1)) (store r1.2)) as [|b bs] eqn:E; [done|].
    by rewrite (Hhead b bs eq_refl).
  - intros p3 Hp3. apply (identity_grown_bindings _ (uuids w)); [exact Hw|].
    apply Hother. intros Heq. by apply Hp3, (inj pretty).
Qed.

Lemma ensureProductMeta_stable_witness :
  let U := Sample.shop Sample.pancakes in
  let renamed := Sample.with_image None (Sample.with_unit "kg" Sample.pancakes) in
  let loads := [(Sample.pancakes, {| external := true; job := None |})] in
  let r1 := ensureProductMeta Sample.pancakes Sample.empty_world in
  let w' := after_loads U loads r1.2 in
  ∃ productUri admsIdentifier,
    r1.1 = Ok (productUri, admsIdentifier) ∧
    Forall (λ t, t ∈ store r1.2)
      [ Triple productUri rdf_type (class "schema:Product");
        Triple productUri "adms:identifier" (OUri admsIdentifier);
        Triple admsIdentifier rdf_type (class "adms:Identifier");
        Triple admsIdentifier "skos:notation" (OLit (LStr (pretty (id Sample.pancakes))));
        Triple admsIdentifier "dct:creator" lfw ] ∧
    ensureProductMeta renamed w' = (Ok (productUri, admsIdentifier), w') ∧
    (∀ p3, id p3 ≠ id Sample.pancakes →
           product_bindings (pretty (id p3)) (store r1.2)
           = product_bindings (pretty (id p3)) (store Sample.empty_world)) ∧
    (∀ t, t ∈ store r1.2 ↔
          t ∈ store Sample.empty_world ∨
          (product_bindings (pretty (id Sample.pancakes)) (store Sample.empty_world) = [] ∧
           t ∈ [ Triple productUri rdf_type (class "schema:Product");
                 Triple productUri "mu:uuid" (OLit (LUuid (uuids Sample.empty_world)));
                 Triple productUri "adms:identifier" (OUri admsIdentifier);
                 Triple admsIdentifier rdf_type (class "adms:Identifier");
                 Triple admsIdentifier "mu:uuid" (OLit (LUuid (S (uuids Sample.empty_world))));
                 Triple admsIdentifier "skos:notation" (OLit (LStr (pretty (id Sample.pancakes))));
                 Triple admsIdentifier "dct:creator" lfw;
                 Triple admsIdentifier "dct:title"
                   (OLit (LStr ("LFW " ++ pretty (id Sample.pancakes)))) ])).
Proof.
  intros U renamed loads.
  apply (ensureProductMeta_stable U Sample.pancakes renamed loads Sample.empty_world).
  - decided.
  - reflexivity.
Defined.

(** The load in between has written the title, the prices and the
    picture of the product; the second call finds the product of the
    first. *)
Example ensureProductMeta_after_a_load :
  let U := Sample.shop Sample.pancakes in
  let r1 := ensureProductMeta Sample.pancakes Sample.empty_world in
  let w' := after_loads U [(Sample.pancakes, {| external := true; job := None |})] r1.2 in
  r1.1 = Ok (Gen "http://veeakker.be/products/" 0 "",
             Gen "http://data.redpencil.io/identifiers/" 1 "") ∧
  uuids w' = 9%nat ∧
  (ensureProductMeta (Sample.with_image None Sample.pancakes) w').1
  = Ok (Gen "http://veeakker.be/products/" 0 "",
        Gen "http://data.redpencil.io/identifiers/" 1 "").
Proof. cbv zeta. repeat split; by vm_compute. Qed.

(** ** C2: the store after the abort *)

(** C2, as the specification states it: after the abort no pricing triple,
    value or link, has been inserted or removed. *)
Definition no_partial_pricing_writes (U : upstream) (product : product)
    (options : load_options) (w : world) : Prop :=
  ∀ p', payload_used U product options = Some p' →
        unitOfMeasurement (measurementUnitPrice (consumerPrice (pricing p')))
          ∉ ["l"; "kg"; "stk"] →
        ∀ t, pred_in pricing_predicates t →
             (t ∈ store (loadProduct U product options w).2 ↔ t ∈ store w).

(** The two product-level pricing nodes: the link from the product, the
    prefix of a minted node and its class. *)
Definition default_pricing_nodes : list (string * string * string) :=
  [ ("veeakker:singleUnitPrice", "http://veeakker.be/price-specifications/",
     "gr:UnitPriceSpecification");
    ("veeakker:targetUnit", "http://veeakker.be/quantitative-values/",
     "gr:QuantitativeValue") ].

(** Every subject of the store was minted before [k]. *)
Definition subjects_below (k : nat) (g : graph) : Prop :=
  ∀ t, t ∈ g → (uri_bound (subj t) ≤ k)%nat.

Lemma well_numbered_subjects_below w : well_numbered w → subjects_below (uuids w) (store w).
Proof. intros Hw t Ht. specialize (Hw _ Ht). unfold triple_bound in Hw. lia. Qed.

Lemma ensureProductMeta_run p w :
  ∃ productUri admsIdentifier w1,
    ensureProductMeta p w = (Ok (productUri, admsIdentifier), w1) ∧
    (uuids w ≤ uuids w1)%nat ∧
    (subjects_below (uuids w) (store w) →
     subjects_below (uuids w1) (store w1) ∧ (uri_bound productUri ≤ uuids w1)%nat).
Proof.
  unfold ensureProductMeta. rewrite bind_unfold. simpl.
  destruct (product_bindings _ _) as [|[P I] bs] eqn:E.
  - eexists _, _, _. split; [reflexivity|]. simpl. split; [lia|]. intros Hb. split; [|lia].
    intros t Ht. apply elem_of_insert_data in Ht as [Ht|Ht].
    + specialize (Hb _ Ht). lia.
    + repeat (apply elem_of_cons in Ht as [->|Ht]; [simpl; lia|]). by apply elem_of_nil in Ht.
  - exists P, I, w. split; [done|]. split; [done|]. intros Hb. split; [done|].
    assert ((P, I) ∈ product_bindings (pretty (id p)) (store w)) as Hin by (rewrite E; left).
    apply elem_of_product_bindings in Hin as (_ & _ & _ & _ & Hin).
    apply (Hb _ Hin).
Qed.

Lemma base_triples_subject product productUri t :
  t ∈ base_triples product productUri → subj t = productUri.
Proof.
  unfold base_triples. intros Ht.
  destruct (truthy (description product)), (bio product); simpl in Ht;
    repeat (apply elem_of_cons in Ht as [->|Ht]; [done|]); by apply elem_of_nil in Ht.
Qed.

(** One find-or-create: it returns; when it had to create, the store
    has grown by the link, the type and the uuid of the minted node. *)
Lemma ensure_linked_run owner rel pre cls w :
  ∃ u w',
    ensure_linked owner rel pre cls w = (Ok u, w') ∧
    (uuids w ≤ uuids w')%nat ∧
    (subjects_below (uuids w) (store w) → (uri_bound owner ≤ uuids w)%nat →
     subjects_below (uuids w') (store w')) ∧
    match objects_of owner rel (store w) with
    | _ :: _ => w' = w
    | [] =>
        uuids w' = S (uuids w) ∧
        ∀ t, t ∈ store w' ↔
             t ∈ store w ∨
             t ∈ [ Triple owner rel (OUri (Gen pre (uuids w) ""));
                   Triple (Gen pre (uuids w) "") rdf_type (class cls);
                   Triple (Gen pre (uuids w) "") "mu:uuid" (OLit (LUuid (uuids w))) ]
    end.
Proof.
  destruct (objects_of owner rel (store w)) as [|b bs] eqn:E.
  - eexists _, _. split; [by apply ensure_linked_created|]. simpl. split; [lia|].
    split; [|split; [done|]].
    + intros Hb Ho t Ht. apply elem_of_insert_data in Ht as [Ht|Ht].
      * specialize (Hb _ Ht). lia.
      * repeat (apply elem_of_cons in Ht as [->|Ht]; [simpl; lia|]). by apply elem_of_nil in Ht.
    + intros t. by rewrite elem_of_insert_data.
  - eexists _, _. split; [by eapply ensure_linked_found|]. by split; [|split].
Qed.

(** C2 (amended). When the unit of the payload is none of "l", "kg",
    "stk", [loadProduct] aborts with the conversion error before any
    pricing update is sent: no price or quantity value and no offering
    link is inserted or removed.  The find-or-create of the two
    product-level pricing nodes has run by then.  For each of the two
    links of the product: if the product had such a link, the links are
    as they were; if it had none, one link has been inserted, from the
    product to a node minted during the call, and (in a store that
    names no uuid still to be handed out) that node has its type and
    its uuid and nothing else. *)
Theorem loadProduct_unit_failure U product options w p' :
  payload_used U product options = Some p' →
  ignored (supplier p') = false →
  unitOfMeasurement (measurementUnitPrice (consumerPrice (pricing p'))) ∉ ["l"; "kg"; "stk"] →
  let r := loadProduct U product options w in
  r.1 = Throw ("Could not translate unit "
               ++ unitOfMeasurement (measurementUnitPrice (consumerPrice (pricing p')))) ∧
  (∀ t, pred_in pricing_value_predicates t → (t ∈ store r.2 ↔ t ∈ store w)) ∧
  (∀ t, pred_in default_pricing_links t → t ∈ store w → t ∈ store r.2) ∧
  ∃ productUri admsIdentifier w1,
    ensureProductMeta p' w = (Ok (productUri, admsIdentifier), w1) ∧
    ∀ rel pre cls, (rel, pre, cls) ∈ default_pricing_nodes →
      match objects_of productUri rel (store w) with
      | _ :: _ => ∀ t, pred t = rel → (t ∈ store r.2 ↔ t ∈ store w)
      | [] =>
          ∃ k, (uuids w ≤ k < uuids r.2)%nat ∧
               (∀ t, pred t = rel →
                     (t ∈ store r.2 ↔
                      t ∈ store w ∨ t = Triple productUri rel (OUri (Gen pre k "")))) ∧
               (well_numbered w →
                ∀ p o, Triple (Gen pre k "") p o ∈ store r.2 ↔
                       (p, o) ∈ [(rdf_type, class cls); ("mu:uuid", OLit (LUuid k))])
      end.
Proof.
  intros Hpayload Hignored Hunit.
  assert (fetched_payload :
    (if external options then fetched (ensureProductPage U (id product)) else mret product) w
    = (Ok p', w)).
  { unfold payload_used in Hpayload. destruct (external options).
    - by rewrite Hpayload.
    - by injection Hpayload as ->. }
  destruct (ensureProductMeta_run p' w)
    as (productUri & admsIdentifier & w1 & E1 & Hu1 & Hb1).
  set (connect := match job options with
                  | Some jobUri => ensureProductJobConnection productUri jobUri
                  | None => mret tt
                  end).
  assert (∃ w2, connect w1 = (Ok tt, w2) ∧ uuids w2 = uuids w1 ∧
                ∀ t, t ∈ store w2 → t ∈ store w1 ∨ subj t = productUri)
    as (w2 & E2 & Hu2 & Hs2).
  { unfold connect. destruct (job options) as [jobUri|].
    - eexists. split; [reflexivity|]. split; [done|]. simpl. intros t Ht.
      apply elem_of_insert_data in Ht as [Ht|Ht]; [by left|right].
      by apply list_elem_of_singleton in Ht as ->.
    - exists w1. split; [done|]. split; [done|]. by left. }
  assert (only_touches (pred_in ["prov:wasGeneratedBy"]) connect) as Hconnect.
  { unfold connect. destruct (job options); [apply ensureProductJobConnection_touches|frame]. }
  destruct (total_update (λ g, insert_data (base_triples p' productUri)
                                 (delete_preds productUri base_allowlist g)) w2)
    as ([] & w3 & E3).
  assert (uuids w3 = uuids w2 ∧ ∀ t, t ∈ store w3 → t ∈ store w2 ∨ subj t = productUri)
    as [Hu3 Hs3].
  { injection E3 as <-. split; [done|]. simpl. intros t Ht.
    apply elem_of_insert_data in Ht as [Ht|Ht].
    - left. by apply elem_of_delete_preds in Ht as [? _].
    - right. by eapply base_triples_subject. }
  destruct (ensure_linked_run productUri "veeakker:singleUnitPrice"
              "http://veeakker.be/price-specifications/" "gr:UnitPriceSpecification" w3)
    as (n & w4 & E4 & Hu4 & Hb4 & Q4).
  destruct (ensure_linked_run productUri "veeakker:targetUnit"
              "http://veeakker.be/quantitative-values/" "gr:QuantitativeValue" w4)
    as (tu & w5 & E5 & Hu5 & Hb5 & Q5).
  assert (loadProduct U product options w
          = (Throw ("Could not translate unit "
                    ++ unitOfMeasurement (measurementUnitPrice (consumerPrice (pricing p')))),
             w5)) as E.
  { unfold loadProduct. rewrite (bind_ok _ _ _ _ _ fetched_payload), (bind_ok _ _ _ _ _ E1).
    rewrite Hignored. fold connect. rewrite (bind_ok _ _ _ _ _ E2).
    unfold ensureBaseProductInfo. rewrite (bind_ok _ _ _ _ _ E3).
    apply bind_throw. unfold ensureProductDefaultPricing, ensureSingleUnitPriceResource,
      ensureTargetUnitResource. cbv zeta.
    rewrite (bind_ok _ _ _ _ _ E4), (bind_ok _ _ _ _ _ E5).
    apply bind_throw. unfold lift.
    by rewrite (convert_unsupported _ Hunit). }
  (* what the steps before the pricing leave alone *)
  assert (∀ t, ¬ pred_in (meta_predicates ++ "prov:wasGeneratedBy" :: base_allowlist) t →
               (t ∈ store w3 ↔ t ∈ store w)) as H3.
  { intros t Ht.
    rewrite (touches_run _ _ _ _ _ t (ensureBaseProductInfo_touches p' productUri) E3)
      by (intros H; apply Ht; unfold pred_in in *; set_solver).
    rewrite (touches_run _ _ _ _ _ t Hconnect E2)
      by (intros H; apply Ht; unfold pred_in in *; set_solver).
    apply (touches_run _ _ _ _ _ t (ensureProductMeta_touches p') E1).
    intros H; apply Ht; unfold pred_in in *; set_solver. }
  assert (∀ t, ¬ pred_in ["veeakker:singleUnitPrice"; rdf_type; "mu:uuid"] t →
               (t ∈ store w4 ↔ t ∈ store w3)) as H4.
  { intros t Ht. by apply (touches_run _ _ _ _ _ t (ensure_linked_touches _ _ _ _) E4). }
  assert (∀ t, ¬ pred_in ["veeakker:targetUnit"; rdf_type; "mu:uuid"] t →
               (t ∈ store w5 ↔ t ∈ store w4)) as H5.
  { intros t Ht. by apply (touches_run _ _ _ _ _ t (ensure_linked_touches _ _ _ _) E5). }
  assert (store w3 ⊆ store w4) as Hsub4.
  { destruct (objects_of productUri "veeakker:singleUnitPrice" (store w3));
      [|by subst w4]. destruct Q4 as [_ Q4]. intros t Ht. apply Q4. by left. }
  assert (store w4 ⊆ store w5) as Hsub5.
  { destruct (objects_of productUri "veeakker:targetUnit" (store w4));
      [|by subst w5]. destruct Q5 as [_ Q5]. intros t Ht. apply Q5. by left. }
  cbv zeta. rewrite E. cbn [fst snd]. split; [done|]. split; [|split].
  - intros t Ht. rewrite H5, H4 by not_among Ht. apply H3. not_among Ht.
  - intros t Ht Hin. apply Hsub5, Hsub4. apply H3; [not_among Ht|done].
  - exists productUri, admsIdentifier, w1. split; [done|].
    assert (∀ rel, rel ∈ default_pricing_links →
              objects_of productUri rel (store w3) = objects_of productUri rel (store w))
      as Hq3.
    { intros rel Hrel. apply objects_of_same. intros o. apply H3.
      unfold pred_in. cbn [pred]. revert Hrel. generalize rel. listed_among. }
    assert (objects_of productUri "veeakker:targetUnit" (store w4)
            = objects_of productUri "veeakker:targetUnit" (store w)) as Hq4.
    { rewrite <- Hq3 by decided. apply objects_of_same. intros o. apply H4. decided. }
    rewrite Hq3 in Q4 by decided. rewrite Hq4 in Q5.
    assert (well_numbered w →
            subjects_below (uuids w3) (store w3) ∧ (uri_bound productUri ≤ uuids w3)%nat)
      as Hbelow3.
    { intros Hw. destruct (Hb1 (well_numbered_subjects_below _ Hw)) as [Hb Hp].
      rewrite Hu3, Hu2. split; [|done]. intros t Ht.
      destruct (Hs3 _ Ht) as [Ht2| ->]; [|done].
      destruct (Hs2 _ Ht2) as [Ht1| ->]; [|done]. by apply Hb. }
    intros rel pre cls Hrel.
    apply elem_of_cons in Hrel as [[= -> -> ->]|Hrel];
      [|apply list_elem_of_singleton in Hrel as [= -> -> ->]].
    + destruct (objects_of productUri "veeakker:singleUnitPrice" (store w)) as [|b bs].
      * destruct Q4 as [Hk4 Q4]. exists (uuids w3). split; [lia|]. split.
        -- intros t Ht. rewrite H5 by (unfold pred_in; rewrite Ht; decided).
           rewrite Q4, !elem_of_cons, !elem_of_nil.
           rewrite <- (H3 t) by (unfold pred_in; rewrite Ht; decided). split.
           ++ intros [?|[?|[->|[->|[]]]]]; [by left|by right|done|done].
           ++ intros [?| ->]; [by left|right; by left].
        -- intros Hw p o. destruct (Hbelow3 Hw) as [Hb3 Hp3].
           assert (productUri ≠ Gen "http://veeakker.be/price-specifications/" (uuids w3) "")
             as Hne by (intros ->; simpl in Hp3; lia).
           assert (Triple (Gen "http://veeakker.be/price-specifications/" (uuids w3) "") p o
                   ∉ store w3) as Hold.
           { intros Hin. specialize (Hb3 _ Hin). simpl in Hb3. lia. }
           assert (Triple (Gen "http://veeakker.be/price-specifications/" (uuids w3) "") p o
                   ∈ store w5 ↔
                   Triple (Gen "http://veeakker.be/price-specifications/" (uuids w3) "") p o
                   ∈ store w4) as ->.
           { destruct (objects_of productUri "veeakker:targetUnit" (store w));
               [|by subst w5]. destruct Q5 as [_ Q5].
             rewrite Q5, !elem_of_cons, !elem_of_nil. split; [|by left].
             intros [?|[[= ? _ _]|[[=]|[[=]|[]]]]]; [done|]. by destruct Hne. }
           rewrite Q4, !elem_of_cons, !elem_of_nil. split.
           ++ intros [?|[[= ? _ _]|[[= -> ->]|[[= -> ->]|[]]]]];
                [done|by destruct Hne|by left|right; by left].
           ++ intros [[= -> ->]|[[= -> ->]|[]]]; right; [right; by left|do 2 right; by left].
      * subst w4. intros t Ht. rewrite H5 by (unfold pred_in; rewrite Ht; decided).
        apply H3. unfold pred_in. rewrite Ht. decided.
    + destruct (objects_of productUri "veeakker:targetUnit" (store w)) as [|b bs].
      * destruct Q5 as [Hk5 Q5]. exists (uuids w4). split; [lia|]. split.
        -- intros t Ht. rewrite Q5, !elem_of_cons, !elem_of_nil.
           rewrite (H4 t) by (unfold pred_in; rewrite Ht; decided).
           rewrite (H3 t) by (unfold pred_in; rewrite Ht; decided). split.
           ++ intros [?|[?|[->|[->|[]]]]]; [by left|by right|done|done].
           ++ intros [?| ->]; [by left|right; by left].
        -- intros Hw p o. destruct (Hbelow3 Hw) as [Hb3 Hp3].
           specialize (Hb4 Hb3 Hp3).
           assert (productUri ≠ Gen "http://veeakker.be/quantitative-values/" (uuids w4) "")
             as Hne by (intros ->; simpl in Hp3; lia).
           assert (Triple (Gen "http://veeakker.be/quantitative-values/" (uuids w4) "") p o
                   ∉ store w4) as Hold.
           { intros Hin. specialize (Hb4 _ Hin). simpl in Hb4. lia. }
           rewrite Q5, !elem_of_cons, !elem_of_nil. split.
           ++ intros [?|[[= ? _ _]|[[= -> ->]|[[= -> ->]|[]]]]];
                [done|by destruct Hne|by left|right; by left].
           ++ intros [[= -> ->]|[[= -> ->]|[]]]; right; [right; by left|do 2 right; by left].
      * subst w5. intros t Ht. rewrite H4 by (unfold pred_in; rewrite Ht; decided).
        apply H3. unfold pred_in. rewrite Ht. decided.
Qed.

(** A store in which product 181 is known and has a single-unit price
    node with a price, and no target-unit node. *)
Definition priced_store : graph :=
  let identifier := Ext "http://data.redpencil.io/identifiers/i181" in
  let price := Ext "http://veeakker.be/price-specifications/s181" in
  {[ Triple Sample.product_181 rdf_type (class "schema:Product");
     Triple Sample.product_181 "adms:identifier" (OUri identifier);
     Triple identifier rdf_type (class "adms:Identifier");
     Triple identifier "skos:notation" (OLit (LStr "181"));
     Triple identifier "dct:creator" lfw;
     Triple Sample.product_181 "veeakker:singleUnitPrice" (OUri price);
     Triple price "gr:hasCurrencyValue" (OLit (LDec 9)) ]}.

Lemma loadProduct_unit_failure_witness :
  let detail := Sample.with_unit "lb" Sample.pancakes in
  let options := {| external := true; job := None |} in
  let w := Sample.with_store priced_store in
  let r := loadProduct (Sample.shop detail) Sample.pancakes options w in
  r.1 = Throw "Could not translate unit lb" ∧
  (∀ t, pred_in pricing_value_predicates t → (t ∈ store r.2 ↔ t ∈ store w)) ∧
  (∀ t, pred_in default_pricing_links t → t ∈ store w → t ∈ store r.2) ∧
  ∃ productUri admsIdentifier w1,
    ensureProductMeta detail w = (Ok (productUri, admsIdentifier), w1) ∧
    ∀ rel pre cls, (rel, pre, cls) ∈ default_pricing_nodes →
      match objects_of productUri rel (store w) with
      | _ :: _ => ∀ t, pred t = rel → (t ∈ store r.2 ↔ t ∈ store w)
      | [] =>
          ∃ k, (uuids w ≤ k < uuids r.2)%nat ∧
               (∀ t, pred t = rel →
                     (t ∈ store r.2 ↔
                      t ∈ store w ∨ t = Triple productUri rel (OUri (Gen pre k "")))) ∧
               (well_numbered w →
                ∀ p o, Triple (Gen pre k "") p o ∈ store r.2 ↔
                       (p, o) ∈ [(rdf_type, class cls); ("mu:uuid", OLit (LUuid k))])
      end.
Proof.
  intros detail options w.
  refine (loadProduct_unit_failure (Sample.shop detail) Sample.pancakes options w detail _ _ _).
  - reflexivity.
  - reflexivity.
  - decided.
Defined.

(** In that store the abort leaves the price of the node in place and
    the product with a target-unit node it did not have. *)
Example unit_failure_on_priced_store :
  let detail := Sample.with_unit "lb" Sample.pancakes in
  let w := Sample.with_store priced_store in
  let r := loadProduct (Sample.shop detail) Sample.pancakes
             {| external := true; job := None |} w in
  r.1 = Throw "Could not translate unit lb" ∧
  objects_of Sample.product_181 "veeakker:singleUnitPrice" (store r.2)
    = [OUri (Ext "http://veeakker.be/price-specifications/s181")] ∧
  objects_of (Ext "http://veeakker.be/price-specifications/s181") "gr:hasCurrencyValue"
    (store r.2) = [OLit (LDec 9)] ∧
  objects_of Sample.product_181 "veeakker:targetUnit" (store r.2)
    = [OUri (Gen "http://veeakker.be/quantitative-values/" 0 "")].
Proof. cbv zeta. repeat split; by vm_compute. Qed.

(** C2 fails as stated: for a product seen for the first time, the link to
    a freshly minted single-unit-price node is in the store after the
    abort. *)
Lemma pricing_links_written_before_abort :
  ¬ no_partial_pricing_writes (Sample.shop (Sample.with_unit "lb" Sample.pancakes))
      Sample.pancakes {| external := true; job := None |} Sample.empty_world.
Proof.
  intros H.
  specialize (H (Sample.with_unit "lb" Sample.pancakes) eq_refl ltac:(decided)
                (Triple (Gen "http://veeakker.be/products/" 0 "") "veeakker:singleUnitPrice"
                   (OUri (Gen "http://veeakker.be/price-specifications/" 2 "")))
                ltac:(decided)).
  apply (not_elem_of_empty (C := graph)) with (x := Triple (Gen "http://veeakker.be/products/" 0 "") "veeakker:singleUnitPrice"
                   (OUri (Gen "http://veeakker.be/price-specifications/" 2 ""))).
  apply H. decided.
Qed.

(** ** C4: conditional image re-fetch *)

(** The world after the replace branch of [ensureProductPicture]. *)
Definition picture_replaced (productUri : uri) (url extension fileName mimetype : string)
    (w : world) : world :=
  {| store := insert_data
                (new_picture_triples productUri url (uuids w) (S (uuids w)) extension fileName
                   mimetype (clock w))
                (remove_old_picture productUri (store w));
     uuids := S (S (uuids w)); clock := S (clock w);
     downloads := (url, (uuids w, extension)) :: downloads w;
     updates := S (S (updates w)) |}.

Lemma ensureProductPicture_same U product productUri w url :
  truthy (image product) = Some url →
  current_picture productUri url (store w) = true →
  ensureProductPicture U product productUri w = (Ok tt, w).
Proof.
  intros Hurl Hsame. unfold ensureProductPicture. rewrite Hurl, bind_unfold. simpl.
  by rewrite Hsame.
Qed.

Lemma ensureProductPicture_changed U product productUri w url extension fileName mimetype :
  truthy (image product) = Some url →
  current_picture productUri url (store w) = false →
  match_trailing ["."%char] url = Some extension →
  match_trailing ["/"%char; ">"%char] url = Some fileName →
  fetch_ok U url = true →
  has_slash extension = false →
  mime_getType U extension = Some mimetype →
  ensureProductPicture U product productUri w
  = (Ok tt, picture_replaced productUri url extension fileName mimetype w).
Proof.
  intros Hurl Hchanged Hext Hname Hfetch Hslash Hmime.
  unfold ensureProductPicture. rewrite Hurl, bind_unfold. simpl. rewrite Hchanged.
  rewrite bind_unfold. simpl. rewrite Hext, Hname. simpl.
  unfold downloadShareFile. rewrite !bind_unfold. simpl. rewrite Hfetch, Hslash. simpl.
  rewrite Hmime. reflexivity.
Qed.

(** When [ensureProductPicture] returns for a payload whose image is not
    the stored one, it went through the replace branch: both matches
    exist, the file could be written and the mime type is known. *)
Lemma ensureProductPicture_returns U product productUri w url w' :
  truthy (image product) = Some url →
  current_picture productUri url (store w) = false →
  ensureProductPicture U product productUri w = (Ok tt, w') →
  ∃ extension fileName mimetype,
    match_trailing ["."%char] url = Some extension ∧
    match_trailing ["/"%char; ">"%char] url = Some fileName ∧
    fetch_ok U url = true ∧
    has_slash extension = false ∧
    mime_getType U extension = Some mimetype ∧
    w' = picture_replaced productUri url extension fileName mimetype w.
Proof.
  intros Hurl Hcur Hrun.
  destruct (match_trailing ["."%char] url) as [extension|] eqn:Hext; cycle 1.
  { exfalso. revert Hrun. unfold ensureProductPicture.
    rewrite Hurl, bind_unfold. simpl. rewrite Hcur, bind_unfold. simpl.
    by rewrite Hext. }
  destruct (match_trailing ["/"%char; ">"%char] url) as [fileName|] eqn:Hname; cycle 1.
  { exfalso. revert Hrun. unfold ensureProductPicture.
    rewrite Hurl, bind_unfold. simpl. rewrite Hcur, bind_unfold. simpl.
    by rewrite Hext, Hname. }
  destruct (fetch_ok U url) eqn:Hfetch; cycle 1.
  { exfalso. revert Hrun. unfold ensureProductPicture.
    rewrite Hurl, bind_unfold. simpl. rewrite Hcur, bind_unfold. simpl.
    rewrite Hext, Hname. simpl. unfold downloadShareFile. rewrite !bind_unfold. simpl.
    by rewrite Hfetch. }
  destruct (has_slash extension) eqn:Hslash.
  { exfalso. revert Hrun. unfold ensureProductPicture.
    rewrite Hurl, bind_unfold. simpl. rewrite Hcur, bind_unfold. simpl.
    rewrite Hext, Hname. simpl. unfold downloadShareFile. rewrite !bind_unfold. simpl.
    by rewrite Hfetch, Hslash. }
  destruct (mime_getType U extension) as [mimetype|] eqn:Hmime; cycle 1.
  { exfalso. revert Hrun. unfold ensureProductPicture.
    rewrite Hurl, bind_unfold. simpl. rewrite Hcur, bind_unfold. simpl.
    rewrite Hext, Hname. simpl. unfold downloadShareFile. rewrite !bind_unfold. simpl.
    rewrite Hfetch, Hslash. simpl. by rewrite Hmime. }
  rewrite (ensureProductPicture_changed _ _ _ _ _ _ _ _ Hurl Hcur Hext Hname Hfetch Hslash
             Hmime) in Hrun.
  injection Hrun as <-. by exists extension, fileName, mimetype.
Qed.

(** A triple of the new picture is about the product's thumbnail edge or
    has a minted subject. *)
Lemma new_picture_triples_inv productUri url k k' extension fileName mimetype creation t :
  t ∈ new_picture_triples productUri url k k' extension fileName mimetype creation →
  t = Triple productUri "veeakker:thumbnail" (OUri (Gen "http://veeakker.be/files/" k "")) ∨
  subj t = Gen "http://veeakker.be/files/" k "" ∨
  subj t = Gen "share://" k ("." ++ extension).
Proof.
  unfold new_picture_triples. cbv zeta. intros H.
  repeat (apply elem_of_cons in H as [->|H]; [simpl; tauto|]).
  by apply elem_of_nil in H.
Qed.

Lemma new_picture_triples_thumbnail productUri url k k' extension fileName mimetype creation t :
  t ∈ new_picture_triples productUri url k k' extension fileName mimetype creation →
  pred t = "veeakker:thumbnail" →
  t = Triple productUri "veeakker:thumbnail" (OUri (Gen "http://veeakker.be/files/" k "")).
Proof.
  unfold new_picture_triples. cbv zeta. intros H Hp.
  apply elem_of_cons in H as [->|H]; [done|].
  repeat (apply elem_of_cons in H as [->|H]; [discriminate Hp|]).
  by apply elem_of_nil in H.
Qed.

(** The predicates and objects the insert gives the new logical file
    and the new share. *)
Definition new_file_properties (url : string) (fileResourceUuid : nat)
    (extension fileName mimetype : string) (creation : nat) : list (string * obj) :=
  [ (rdf_type, class "nfo:FileDataObject");
    ("dct:source", OUri (Ext url));
    ("mu:uuid", OLit (LUuid fileResourceUuid));
    ("nfo:fileName", OLit (LStr fileName));
    ("dct:format", OLit (LStr mimetype));
    ("dbpedia:fileExtension", OLit (LStr extension));
    ("dct:created", OLit (LDate creation)) ].

Definition new_share_properties (fileResourceUri : uri) (shareResourceUuid : nat)
    (extension fileName mimetype : string) (creation : nat) : list (string * obj) :=
  [ (rdf_type, class "nfo:FileDataObject");
    ("mu:uuid", OLit (LUuid shareResourceUuid));
    ("nie:dataSource", OUri fileResourceUri);
    ("nfo:fileName", OLit (LStr fileName));
    ("dct:format", OLit (LStr mimetype));
    ("dbpedia:fileExtension", OLit (LStr extension));
    ("dct:created", OLit (LDate creation)) ].

Lemma new_picture_triples_file productUri url k k' extension fileName mimetype creation p o :
  (uri_bound productUri ≤ k)%nat →
  Triple (Gen "http://veeakker.be/files/" k "") p o
    ∈ new_picture_triples productUri url k k' extension fileName mimetype creation
  ↔ (p, o) ∈ new_file_properties url k' extension fileName mimetype creation.
Proof.
  intros Hb.
  assert (productUri ≠ Gen "http://veeakker.be/files/" k "") as Hne.
  { intros ->. simpl in Hb. lia. }
  unfold new_picture_triples, new_file_properties. cbv zeta.
  rewrite !elem_of_cons, !elem_of_nil. split.
  - intros H.
    repeat (destruct H as [H|H];
            [simplify_eq; first [by destruct Hne | repeat first [by left | right]]|]).
    done.
  - intros H.
    repeat (destruct H as [H|H]; [simplify_eq; repeat first [by left | right]|]).
    done.
Qed.

Lemma new_picture_triples_share productUri url k k' extension fileName mimetype creation p o :
  (uri_bound productUri ≤ k)%nat →
  Triple (Gen "share://" k ("." ++ extension)) p o
    ∈ new_picture_triples productUri url k k' extension fileName mimetype creation
  ↔ (p, o) ∈ new_share_properties (Gen "http://veeakker.be/files/" k "") k extension fileName
              mimetype creation.
Proof.
  intros Hb.
  assert (productUri ≠ Gen "share://" k ("." ++ extension)) as Hne.
  { intros ->. simpl in Hb. lia. }
  unfold new_picture_triples, new_share_properties. cbv zeta.
  rewrite !elem_of_cons, !elem_of_nil. split.
  - intros H.
    repeat (destruct H as [H|H];
            [simplify_eq; first [by destruct Hne | repeat first [by left | right]]|]).
    done.
  - intros H.
    repeat (destruct H as [H|H]; [simplify_eq; repeat first [by left | right]|]).
    done.
Qed.

(** C4. With the stored thumbnail's source equal to the payload's image
    URL, [ensureProductPicture] leaves the world as it is: no download, no
    update.  Otherwise, when the URL has an extension without a slash
    that [mime] knows and a file name, and the download succeeds, it
    downloads once, the product's only thumbnail is the new file, the
    new file and the new share have the properties of the insert and no
    other, and the old shares have lost every triple of their allowlist.
    The old thumbnail files keep their triples, those of the allowlist
    too: the delete meant for them names a variable its pattern does not
    bind. *)
Theorem ensureProductPicture_sync U product productUri w url :
  truthy (image product) = Some url →
  (current_picture productUri url (store w) = true →
   ensureProductPicture U product productUri w = (Ok tt, w)) ∧
  (current_picture productUri url (store w) = false →
   ∀ extension fileName mimetype,
     match_trailing ["."%char] url = Some extension →
     match_trailing ["/"%char; ">"%char] url = Some fileName →
     has_slash extension = false →
     fetch_ok U url = true →
     mime_getType U extension = Some mimetype →
     well_numbered w →
     (uri_bound productUri ≤ uuids w)%nat →
     let r := ensureProductPicture U product productUri w in
     let fileResourceUri := Gen "http://veeakker.be/files/" (uuids w) "" in
     let shareResourceUri := Gen "share://" (uuids w) ("." ++ extension) in
     r.1 = Ok tt ∧
     downloads r.2 = (url, (uuids w, extension)) :: downloads w ∧
     (∀ thumbnail, Triple productUri "veeakker:thumbnail" thumbnail ∈ store r.2
                   ↔ thumbnail = OUri fileResourceUri) ∧
     (∀ p o, Triple fileResourceUri p o ∈ store r.2
             ↔ (p, o) ∈ new_file_properties url (S (uuids w)) extension fileName mimetype
                          (clock w)) ∧
     (∀ p o, Triple shareResourceUri p o ∈ store r.2
             ↔ (p, o) ∈ new_share_properties fileResourceUri (uuids w) extension fileName
                          mimetype (clock w)) ∧
     (∀ share thumbnail p o,
        Triple productUri "veeakker:thumbnail" thumbnail ∈ store w →
        Triple share "nie:dataSource" thumbnail ∈ store w →
        p ∈ share_allowlist → Triple share p o ∉ store r.2) ∧
     (∀ file p o,
        Triple productUri "veeakker:thumbnail" (OUri file) ∈ store w →
        Triple file p o ∈ store w →
        ¬ (∃ thumbnail, Triple productUri "veeakker:thumbnail" thumbnail ∈ store w ∧
                        Triple file "nie:dataSource" thumbnail ∈ store w) →
        ¬ (file = productUri ∧ p = "veeakker:thumbnail") →
        Triple file p o ∈ store r.2)).
Proof.
  intros Hurl. split; [by apply ensureProductPicture_same|].
  intros Hchanged extension fileName mimetype Hext Hname Hslash Hfetch Hmime Hw Hb.
  cbv zeta.
  rewrite (ensureProductPicture_changed _ _ _ _ _ _ _ _ Hurl Hchanged Hext Hname Hfetch
             Hslash Hmime).
  unfold picture_replaced. cbn [fst snd store downloads].
  assert ("veeakker:thumbnail" ∉ share_allowlist) as Hths by decided.
  split; [done|]. split; [done|]. split; [|split; [|split; [|split]]].
  - intros thumbnail. rewrite elem_of_insert_data, elem_of_remove_old_picture. simpl. split.
    + intros [(_ & _ & H)|H]; [tauto|].
      apply new_picture_triples_thumbnail in H; [|done]. by injection H.
    + intros ->. right. unfold new_picture_triples. left.
  - intros p o. rewrite elem_of_insert_data, elem_of_remove_old_picture.
    rewrite new_picture_triples_file by done. split; [|tauto].
    intros [(Hin & _)|H]; [|done]. by eapply well_numbered_subj in Hin.
  - intros p o. rewrite elem_of_insert_data, elem_of_remove_old_picture.
    rewrite new_picture_triples_share by done. split; [|tauto].
    intros [(Hin & _)|H]; [|done]. by eapply well_numbered_subj in Hin.
  - intros share thumbnail p o Hedge Hshare Hp.
    rewrite elem_of_insert_data, elem_of_remove_old_picture. simpl.
    intros [(_ & H & _)|H]; [apply H; split; [done|by exists thumbnail]|].
    apply new_picture_triples_inv in H as [H|[H|H]]; simpl in H.
    + injection H as -> -> ->. done.
    + subst share. by eapply well_numbered_subj in Hshare.
    + subst share. by eapply well_numbered_subj in Hshare.
  - intros file p o Hedge Hin Hshare Hself.
    apply elem_of_insert_data. left. apply elem_of_remove_old_picture. simpl.
    split; [done|]. split; [|done]. intros [_ H]. by apply Hshare.
Qed.

(** The product had a picture from another URL: after the run the old
    share has lost its format, and the old file still has its file
    name. *)
Lemma ensureProductPicture_sync_witness :
  let U := Sample.shop Sample.pancakes in
  let url := "https://img.example/181/c03.png" in
  let old_file := Ext "http://veeakker.be/files/old" in
  let old_share := Ext "share://old.png" in
  let same := Sample.with_store
                {[ Triple Sample.product_181 "veeakker:thumbnail" (OUri old_file);
                   Triple old_file "dct:source" (OUri (Ext url)) ]} in
  let changed := Sample.with_store
                   {[ Triple Sample.product_181 "veeakker:thumbnail" (OUri old_file);
                      Triple old_file "dct:source" (OUri (Ext "https://img.example/181/old.png"));
                      Triple old_file "nfo:fileName" (OLit (LStr "old.png"));
                      Triple old_share "nie:dataSource" (OUri old_file);
                      Triple old_share "dct:format" (OLit (LStr "image/png")) ]} in
  let r := ensureProductPicture U Sample.pancakes Sample.product_181 changed in
  ensureProductPicture U Sample.pancakes Sample.product_181 same = (Ok tt, same) ∧
  r.1 = Ok tt ∧
  downloads r.2 = [(url, (0%nat, "png"))] ∧
  (∀ thumbnail, Triple Sample.product_181 "veeakker:thumbnail" thumbnail ∈ store r.2
                ↔ thumbnail = OUri (Gen "http://veeakker.be/files/" 0 "")) ∧
  (Triple old_share "dct:format" (OLit (LStr "image/png")) ∉ store r.2) ∧
  (Triple old_file "nfo:fileName" (OLit (LStr "old.png")) ∈ store r.2).
Proof.
  intros U url old_file old_share same changed r.
  split.
  - refine (proj1 (ensureProductPicture_sync U Sample.pancakes Sample.product_181 same url
                     eq_refl) _).
    vm_compute. reflexivity.
  - destruct (proj2 (ensureProductPicture_sync U Sample.pancakes Sample.product_181 changed url
                       eq_refl)
                ltac:(vm_compute; reflexivity) "png" "c03.png" "image/png"
                eq_refl eq_refl eq_refl eq_refl eq_refl ltac:(decided) (Nat.le_refl 0))
      as (H1 & H2 & H3 & _ & _ & H6 & H7).
    split; [exact H1|]. split; [exact H2|]. split; [exact H3|]. split.
    + apply (H6 old_share (OUri old_file)); decided.
    + apply H7.
      * decided.
      * decided.
      * intros (thumbnail & _ & Hsource). unfold changed in Hsource.
        cbn [store Sample.with_store] in Hsource. set_unfold in Hsource.
        by repeat destruct Hsource as [Hsource|Hsource].
      * intros [H _]. discriminate H.
Defined.

(** * Harvesting twice *)

(** *** Last writer wins *)

(** An update that deletes by a test on the triple and then inserts
    triples given in full: all updates of the product steps are of
    this form once their subject is resolved. *)
Record op := { deletes : triple → bool; inserts : list triple }.

Definition apply_op (o : op) (g : graph) : graph :=
  insert_data (inserts o) (filter (λ t, ¬ deletes o t) g).

Definition apply_ops (ops : list op) (g : graph) : graph :=
  foldl (λ g o, apply_op o g) g ops.

(** What [o] decides about [t]: present, absent, or nothing. *)
Definition verdict_op (o : op) (t : triple) : option bool :=
  if bool_decide (t ∈ inserts o) then Some true
  else if deletes o t then Some false
  else None.

(** What a sequence of updates decides about [t]: the last update that
    decides anything wins. *)
Fixpoint verdict (ops : list op) (t : triple) : option bool :=
  match ops with
  | [] => None
  | o :: rest =>
      match verdict rest t with
      | Some b => Some b
      | None => verdict_op o t
      end
  end.

(** The store agrees with everything [ops] decides. *)
Definition consistent (g : graph) (ops : list op) : Prop :=
  ∀ t b, verdict ops t = Some b → (t ∈ g ↔ b = true).

Lemma elem_of_apply_op o g t :
  t ∈ apply_op o g ↔ match verdict_op o t with Some b => b = true | None => t ∈ g end.
Proof.
  unfold apply_op, verdict_op. rewrite elem_of_insert_data, elem_of_filter.
  case_bool_decide as Hin; [tauto|]. destruct (deletes o t); simpl.
  - split; [intros [[H _]|?]; [by destruct H|done]|done].
  - split; [intros [[_ ?]|?]; done|]. intros ?. left. split; [|done]. by intros [].
Qed.

Lemma elem_of_apply_ops ops g t :
  t ∈ apply_ops ops g ↔ match verdict ops t with Some b => b = true | None => t ∈ g end.
Proof.
  revert g. induction ops as [|o rest IH]; intros g; simpl; [done|].
  unfold apply_ops in *. simpl. rewrite IH. destruct (verdict rest t); [done|].
  apply elem_of_apply_op.
Qed.

Lemma verdict_app ops1 ops2 t :
  verdict (ops1 ++ ops2) t
  = match verdict ops2 t with Some b => Some b | None => verdict ops1 t end.
Proof.
  induction ops1 as [|o rest IH]; simpl.
  - by destruct (verdict ops2 t).
  - rewrite IH. by destruct (verdict ops2 t).
Qed.

(** A store that agrees with what a sequence of updates decides is left
    as it is by the sequence. *)
Lemma apply_ops_consistent ops g : consistent g ops → apply_ops ops g = g.
Proof.
  intros Hc. apply set_eq. intros t. rewrite elem_of_apply_ops.
  destruct (verdict ops t) as [b|] eqn:E; [|done]. symmetry. by apply Hc.
Qed.

Lemma consistent_nil g : consistent g [].
Proof. by intros t b. Qed.

(** Running one more update keeps the store in agreement. *)
Lemma consistent_snoc g ops o :
  consistent g ops → consistent (apply_op o g) (ops ++ [o]).
Proof.
  intros Hc t b. rewrite verdict_app, elem_of_apply_op. simpl.
  destruct (verdict_op o t) as [b'|] eqn:E.
  - by intros [= ->].
  - apply Hc.
Qed.

(** So does a change of triples about which nothing was decided. *)
Lemma consistent_frame g g' ops :
  consistent g ops →
  (∀ t, verdict ops t ≠ None → (t ∈ g' ↔ t ∈ g)) →
  consistent g' ops.
Proof.
  intros Hc Hsame t b Hv. rewrite Hsame by (by rewrite Hv). by apply Hc.
Qed.

(** *** What the reads of a harvest depend on *)

Lemma current_picture_same productUri url g g' :
  (∀ s, Triple s "dct:source" (OUri (Ext url)) ∈ g'
        ↔ Triple s "dct:source" (OUri (Ext url)) ∈ g) →
  (∀ o, Triple productUri "veeakker:thumbnail" o ∈ g'
        ↔ Triple productUri "veeakker:thumbnail" o ∈ g) →
  current_picture productUri url g' = current_picture productUri url g.
Proof.
  intros Hs Ht. unfold current_picture. rewrite (subjects_of_same _ _ g g') by exact Hs.
  apply bool_decide_ext. rewrite !Exists_exists. by setoid_rewrite Ht.
Qed.

Lemma current_picture_true productUri url g :
  current_picture productUri url g = true ↔
  ∃ picture, Triple productUri "veeakker:thumbnail" (OUri picture) ∈ g ∧
             Triple picture "dct:source" (OUri (Ext url)) ∈ g.
Proof.
  unfold current_picture. rewrite bool_decide_eq_true, Exists_exists.
  setoid_rewrite elem_of_subjects_of. naive_solver.
Qed.

Lemma elem_of_supplier_bindings notation g s :
  s ∈ supplier_bindings notation g ↔
    ∃ i, Triple i "skos:notation" (OLit (LStr notation)) ∈ g ∧
         Triple i "dct:creator" lfw ∈ g ∧
         Triple s "adms:identifier" (OUri i) ∈ g ∧
         Triple s rdf_type (class "gr:BusinessEntity") ∈ g.
Proof.
  unfold supplier_bindings. rewrite list_elem_of_bind. split.
  - intros (i & Hs & Hi). apply list_elem_of_filter in Hi as [Hc Hn].
    apply elem_of_subjects_of in Hn.
    apply list_elem_of_filter in Hs as [Ht Hs]. apply elem_of_subjects_of in Hs.
    by exists i.
  - intros (i & Hn & Hc & Hs & Ht). exists i. split.
    + apply list_elem_of_filter. split; [done|]. by apply elem_of_subjects_of.
    + apply list_elem_of_filter. split; [done|]. by apply elem_of_subjects_of.
Qed.

(** The suppliers the bulk update of [loadSuppliers] renames. *)
Definition named (suppliers : list supplier_summary) (g : graph) (s : uri) (n : string) : Prop :=
  ∃ x, x ∈ suppliers ∧ summary_name x = n ∧
       s ∈ supplier_bindings (pretty (summary_id x)) g.

Lemma elem_of_renamed suppliers g s n : (s, n) ∈ renamed suppliers g ↔ named suppliers g s n.
Proof.
  unfold renamed, named. rewrite list_elem_of_bind. split.
  - intros (x & H & Hx). apply list_elem_of_fmap in H as (s' & [= -> ->] & Hs). by exists x.
  - intros (x & Hx & <- & Hs). exists x. split; [|done]. apply list_elem_of_fmap. by exists s.
Qed.

Lemma elem_of_rename_suppliers suppliers g t :
  t ∈ rename_suppliers suppliers g ↔
    (t ∈ g ∧ ¬ (pred t = "gr:name" ∧ ∃ n, named suppliers g (subj t) n)) ∨
    (∃ s n, named suppliers g s n ∧ t = Triple s "gr:name" (OLit (LStr n))).
Proof.
  unfold rename_suppliers. cbv zeta.
  assert (subj t ∈ (renamed suppliers g).*1 ↔ ∃ n, named suppliers g (subj t) n) as Hs.
  { rewrite list_elem_of_fmap. split.
    - intros ([s n] & E & H). simpl in E. subst s. exists n. by apply elem_of_renamed.
    - intros (n & H). exists (subj t, n). split; [done|]. by apply elem_of_renamed. }
  rewrite elem_of_insert_data, elem_of_filter, Hs, list_elem_of_fmap.
  split.
  - intros [[? ?]|([s n] & -> & H)]; [by left|right]. exists s, n.
    split; [by apply elem_of_renamed|done].
  - intros [[? ?]|(s & n & H & ->)]; [by left|right]. exists (s, n).
    split; [done|by apply elem_of_renamed].
Qed.

(** Stores with the same suppliers and the same names. *)
Definition same_suppliers (g g' : graph) : Prop :=
  (∀ m s, s ∈ supplier_bindings m g' ↔ s ∈ supplier_bindings m g) ∧
  (∀ t, pred t = "gr:name" → (t ∈ g' ↔ t ∈ g)).

Lemma named_same suppliers g g' s n :
  same_suppliers g g' → named suppliers g' s n ↔ named suppliers g s n.
Proof. intros [H _]. unfold named. by setoid_rewrite H. Qed.

Lemma rename_suppliers_same suppliers g g' :
  same_suppliers g g' →
  rename_suppliers suppliers g = g → rename_suppliers suppliers g' = g'.
Proof.
  intros Hs E. apply set_eq. intros t.
  assert (t ∈ rename_suppliers suppliers g ↔ t ∈ g) as Ht by (by rewrite E).
  rewrite elem_of_rename_suppliers in Ht |- *.
  setoid_rewrite (named_same suppliers g g' _ _ Hs).
  destruct (decide (pred t = "gr:name")) as [Hp|Hp].
  - by rewrite (proj2 Hs t Hp).
  - split; [|intros H; left; split; [done|by intros [? _]]].
    intros [[? _]|(s & n & _ & ->)]; [done|by destruct Hp].
Qed.

(** The bulk update changes names only, and a second one changes
    nothing. *)
Lemma rename_suppliers_names suppliers g t :
  pred t ≠ "gr:name" → (t ∈ rename_suppliers suppliers g ↔ t ∈ g).
Proof.
  intros Hp. rewrite elem_of_rename_suppliers. split.
  - intros [[? _]|(s & n & _ & ->)]; [done|by destruct Hp].
  - intros H. left. split; [done|]. by intros [? _].
Qed.

Lemma supplier_bindings_rename suppliers g m s :
  s ∈ supplier_bindings m (rename_suppliers suppliers g) ↔ s ∈ supplier_bindings m g.
Proof.
  rewrite !elem_of_supplier_bindings. by setoid_rewrite rename_suppliers_names.
Qed.

Lemma rename_suppliers_twice suppliers g :
  rename_suppliers suppliers (rename_suppliers suppliers g) = rename_suppliers suppliers g.
Proof.
  apply set_eq. intros t. rewrite (elem_of_rename_suppliers _ (rename_suppliers suppliers g)).
  assert (∀ s n, named suppliers (rename_suppliers suppliers g) s n ↔ named suppliers g s n)
    as Hn.
  { intros s n. unfold named. by setoid_rewrite supplier_bindings_rename. }
  setoid_rewrite Hn. rewrite elem_of_rename_suppliers. tauto.
Qed.

(** What a later run reads to find what an earlier one resolved. *)
Inductive fact :=
  | FProduct (notation : string) (productUri admsIdentifier : uri)
  | FLink (owner : uri) (rel : string) (resource : uri)
  | FPicture (productUri : uri) (url : string)
  | FNoPicture (productUri : uri)
  | FSupplier (name : string) (supplierUri : option uri)
  | FKnown (notation : string)
  | FNames (suppliers : list supplier_summary).

Definition link_predicates : list string :=
  ["veeakker:singleUnitPrice"; "veeakker:targetUnit"; "veeakker:offerings";
   "gr:includesObject"; "gr:hasPriceSpecification"].

Definition holds (f : fact) (g : graph) : Prop :=
  match f with
  | FProduct notation productUri admsIdentifier =>
      ∃ bs, product_bindings notation g = (productUri, admsIdentifier) :: bs
  | FLink owner rel resource =>
      rel ∈ link_predicates ∧
      ∃ b bs, objects_of owner rel g = b :: bs ∧ binding_value b = resource
  | FPicture productUri url => current_picture productUri url g = true
  | FNoPicture productUri => objects_of productUri "veeakker:thumbnail" g = []
  | FSupplier name supplierUri =>
      head (subjects_of "gr:name" (OLit (LStr name)) g) = supplierUri
  | FKnown notation => supplier_bindings notation g ≠ []
  | FNames suppliers => rename_suppliers suppliers g = g
  end.

Lemma known_same notation g g' :
  same_suppliers g g' → supplier_bindings notation g ≠ [] → supplier_bindings notation g' ≠ [].
Proof.
  intros [H _] Hg Hg'. destruct (supplier_bindings notation g) as [|s l] eqn:E; [done|].
  assert (s ∈ supplier_bindings notation g') as Hs by (apply H; rewrite E; left).
  rewrite Hg' in Hs. by apply elem_of_nil in Hs.
Qed.

(** The predicates of the triples a harvest reads. *)
Definition read_predicates : list string :=
  [ rdf_type; "adms:identifier"; "skos:notation"; "dct:creator";
    "veeakker:singleUnitPrice"; "veeakker:targetUnit"; "veeakker:offerings";
    "gr:includesObject"; "gr:hasPriceSpecification";
    "veeakker:thumbnail"; "dct:source"; "nie:dataSource"; "gr:name" ].

Definition agree_on (ps : list string) (g g' : graph) : Prop :=
  ∀ t, pred t ∈ ps → (t ∈ g' ↔ t ∈ g).

Lemma agree_on_refl ps g : agree_on ps g g.
Proof. by intros t _. Qed.

Lemma agree_on_trans ps g1 g2 g3 :
  agree_on ps g1 g2 → agree_on ps g2 g3 → agree_on ps g1 g3.
Proof. intros H1 H2 t Ht. by rewrite (H2 t Ht), (H1 t Ht). Qed.

(** Agreement on a triple whose predicate is given in full. *)
Ltac agreed H := apply H; cbn [pred]; decided.

Lemma same_suppliers_agree g g' : agree_on read_predicates g g' → same_suppliers g g'.
Proof.
  intros H. split.
  - intros m s. rewrite !elem_of_supplier_bindings.
    assert (∀ i, Triple i "skos:notation" (OLit (LStr m)) ∈ g'
                 ↔ Triple i "skos:notation" (OLit (LStr m)) ∈ g) as H1 by (intros; agreed H).
    assert (∀ i, Triple i "dct:creator" lfw ∈ g' ↔ Triple i "dct:creator" lfw ∈ g) as H2
      by (intros; agreed H).
    assert (∀ i, Triple s "adms:identifier" (OUri i) ∈ g'
                 ↔ Triple s "adms:identifier" (OUri i) ∈ g) as H3 by (intros; agreed H).
    assert (Triple s rdf_type (class "gr:BusinessEntity") ∈ g'
            ↔ Triple s rdf_type (class "gr:BusinessEntity") ∈ g) as H4 by agreed H.
    split; intros (i & A & B & C & D); exists i;
      (split; [by apply H1|split; [by apply H2|split; [by apply H3|by apply H4]]]).
  - intros t Hp. apply H. rewrite Hp. decided.
Qed.

Lemma holds_agree f g g' : agree_on read_predicates g g' → holds f g → holds f g'.
Proof.
  intros H. destruct f as [n P I|owner rel x|P url|P|name S|m|ss]; simpl;
    [..|by apply known_same, same_suppliers_agree
       |by apply rename_suppliers_same, same_suppliers_agree].
  - intros [bs E]. exists bs. rewrite <- E. apply product_bindings_same.
    + intros i. agreed H.
    + intros i _. split; [agreed H|]. split; [agreed H|].
      split; [intros p; agreed H|intros p _; agreed H].
  - intros [Hrel (b & bs & E & Hb)]. split; [done|]. exists b, bs. split; [|done].
    rewrite <- E. apply objects_of_same. intros o. apply H. cbn [pred].
    revert Hrel. unfold link_predicates. generalize rel. listed_among.
  - intros E. rewrite <- E. apply current_picture_same; intros ?; agreed H.
  - intros E. rewrite <- E. apply objects_of_same. intros o. agreed H.
  - intros E. rewrite <- E. f_equal. apply subjects_of_same. intros s. agreed H.
Qed.

(** *** The invariant of a run *)

(** The predicates of the values a product step replaces: none of them
    is read by a harvest. *)
Definition value_predicates : list string :=
  [ "dct:title"; "dct:description"; "veeakker:hasLabel"; "veeakker:plu";
    "veeakker:sortIndex"; "veeakker:lfwProductCanBeOrderedByFractionOfOrderUnit";
    "gr:hasUnitOfMeasurement"; "gr:hascurrencyValue"; "gr:hasCurrencyValue"; "gr:hasValue";
    "gr:amountOfThisGood"; "gr:typeOfGood";
    "food:ingredientListAsText"; "veeakker:allergensAsText";
    "schema:email"; "gr:offers"; "prov:wasGeneratedBy" ].

Lemma value_not_read p : p ∈ value_predicates → p ∉ read_predicates.
Proof. revert p. listed_among. Qed.

(** [DELETE { s ?p ?o } WHERE { VALUES ?p { ps } ... }; INSERT DATA { ts }] *)
Definition replace_op (s : uri) (ps : list string) (ts : list triple) : op :=
  {| deletes := λ t, bool_decide (subj t = s ∧ pred t ∈ ps); inserts := ts |}.

Lemma apply_replace_op s ps ts g :
  apply_op (replace_op s ps ts) g = insert_data ts (delete_preds s ps g).
Proof.
  unfold apply_op, replace_op, delete_preds. simpl. f_equal. apply set_eq. intros t.
  rewrite !elem_of_filter. rewrite bool_decide_spec. done.
Qed.

(** An update of values: it decides about triples with a value predicate
    and a subject known before uuid [n] only, and inserts no uuid from
    [n] on. *)
Definition op_ok (n : nat) (o : op) : Prop :=
  (∀ t, verdict_op o t ≠ None →
        pred t ∈ value_predicates ∧ (uri_bound (subj t) ≤ n)%nat) ∧
  Forall (λ t, (triple_bound t ≤ n)%nat) (inserts o).

Lemma op_ok_mono n m o : (n ≤ m)%nat → op_ok n o → op_ok m o.
Proof.
  intros Hnm [H1 H2]. split.
  - intros t Ht. destruct (H1 t Ht). split; [done|lia].
  - eapply Forall_impl; [exact H2|]. simpl. intros. lia.
Qed.

Lemma replace_op_ok n s ps ts :
  ps ⊆ value_predicates → (uri_bound s ≤ n)%nat →
  Forall (λ t, subj t = s ∧ pred t ∈ value_predicates ∧ (obj_bound (object t) ≤ n)%nat) ts →
  op_ok n (replace_op s ps ts).
Proof.
  intros Hps Hs Hts. split.
  - intros t. unfold verdict_op, replace_op. simpl.
    case_bool_decide as Hin.
    + intros _. rewrite Forall_forall in Hts. destruct (Hts t Hin) as (Hs' & ? & _).
      by rewrite Hs'.
    + case_bool_decide as Hd; [|done]. intros _. destruct Hd as [Hs' Hp]. rewrite Hs'.
      split; [by apply Hps|done].
  - simpl. eapply Forall_impl; [exact Hts|]. simpl. intros t (Hs' & _ & Ho).
    unfold triple_bound. rewrite Hs'. lia.
Qed.

Lemma verdict_none n ops t :
  Forall (op_ok n) ops →
  pred t ∉ value_predicates ∨ (n < uri_bound (subj t))%nat →
  verdict ops t = None.
Proof.
  intros Hops Ht. induction Hops as [|o rest [Ho _] _ IH]; simpl; [done|].
  rewrite IH. destruct (verdict_op o t) eqn:E; [|done].
  destruct (Ho t) as [Hp Hb]; [by rewrite E|]. destruct Ht; [done|lia].
Qed.

(** Each product node carries identifiers of one notation. *)
Definition one_notation (g : graph) : Prop :=
  ∀ n n' p i i',
    (p, i) ∈ product_bindings n g → (p, i') ∈ product_bindings n' g → n = n'.

(** No thumbnail is itself a share: it names no data source. *)
Definition thumbnails_plain (g : graph) : Prop :=
  ∀ productUri picture thumbnail,
    Triple productUri "veeakker:thumbnail" (OUri picture) ∈ g →
    Triple picture "nie:dataSource" thumbnail ∉ g.

Record inv (F : list fact) (ops : list op) (w : world) : Prop := {
  inv_numbered : well_numbered w;
  inv_notation : one_notation (store w);
  inv_thumbnails : thumbnails_plain (store w);
  inv_ops : Forall (op_ok (uuids w)) ops;
  inv_consistent : consistent (store w) ops;
  inv_facts : Forall (λ f, holds f (store w)) F }.

Lemma one_notation_agree g g' :
  agree_on read_predicates g g' → one_notation g → one_notation g'.
Proof.
  intros H Hg n n' p i i'.
  assert (∀ m, product_bindings m g' = product_bindings m g) as E.
  { intros m. apply product_bindings_same.
    - intros j. agreed H.
    - intros j _. split; [agreed H|]. split; [agreed H|].
      split; [intros q; agreed H|intros q _; agreed H]. }
  rewrite !E. apply Hg.
Qed.

Lemma thumbnails_plain_agree g g' :
  agree_on read_predicates g g' → thumbnails_plain g → thumbnails_plain g'.
Proof.
  intros H Hg P F th Hedge Hsrc.
  apply (Hg P F th).
  - revert Hedge. agreed H.
  - revert Hsrc. agreed H.
Qed.

(** A change that leaves alone what is read and what was decided. *)
Lemma inv_quiet F ops w w' :
  inv F ops w →
  (uuids w ≤ uuids w')%nat → well_numbered w' →
  agree_on read_predicates (store w) (store w') →
  (∀ t, pred t ∈ value_predicates → (uri_bound (subj t) ≤ uuids w)%nat →
        (t ∈ store w' ↔ t ∈ store w)) →
  inv F ops w'.
Proof.
  intros [Hn Hid Hth Hops Hc Hf] Hle Hn' Hread Hvalue. split.
  - done.
  - by eapply one_notation_agree.
  - by eapply thumbnails_plain_agree.
  - eapply Forall_impl; [exact Hops|]. intros o. by apply op_ok_mono.
  - eapply consistent_frame; [exact Hc|]. intros t Ht.
    destruct (decide (pred t ∈ value_predicates)) as [Hp|Hp];
      [|by rewrite (verdict_none _ _ _ Hops) in Ht by (by left)].
    destruct (decide (uri_bound (subj t) ≤ uuids w)%nat) as [Hb|Hb];
      [|by rewrite (verdict_none _ _ _ Hops) in Ht by (right; lia)].
    by apply Hvalue.
  - eapply Forall_impl; [exact Hf|]. intros f. by apply holds_agree.
Qed.

Definition with_store (g : graph) (w : world) : world :=
  {| store := g; uuids := uuids w; clock := clock w; downloads := downloads w;
     updates := S (updates w) |}.

Lemma update_with_store f w : update f w = (Ok tt, with_store (f (store w)) w).
Proof. reflexivity. Qed.

Lemma consistent_outside n g g' ops :
  Forall (op_ok n) ops →
  (∀ t, pred t ∈ value_predicates → (uri_bound (subj t) ≤ n)%nat → (t ∈ g' ↔ t ∈ g)) →
  consistent g ops → consistent g' ops.
Proof.
  intros Hops Hvalue Hc. eapply consistent_frame; [exact Hc|]. intros t Ht.
  destruct (decide (pred t ∈ value_predicates)) as [Hp|Hp];
    [|by rewrite (verdict_none _ _ _ Hops) in Ht by (by left)].
  destruct (decide (uri_bound (subj t) ≤ n)%nat) as [Hb|Hb];
    [|by rewrite (verdict_none _ _ _ Hops) in Ht by (right; lia)].
  by apply Hvalue.
Qed.

Lemma well_numbered_insert ts g n :
  set_Forall (λ t, (triple_bound t ≤ n)%nat) g →
  Forall (λ t, (triple_bound t ≤ n)%nat) ts →
  set_Forall (λ t, (triple_bound t ≤ n)%nat) (insert_data ts g).
Proof.
  intros Hg Hts t. rewrite elem_of_insert_data. intros [Hin|Hin]; [by apply Hg|].
  rewrite Forall_forall in Hts. by apply Hts.
Qed.

(** An update of values keeps the invariant, and is remembered. *)
Lemma inv_value F ops w o :
  inv F ops w → op_ok (uuids w) o →
  inv F (ops ++ [o]) (with_store (apply_op o (store w)) w).
Proof.
  intros [Hn Hid Hth Hops Hc Hf] Ho.
  assert (agree_on read_predicates (store w) (apply_op o (store w))) as Hread.
  { intros t Ht. rewrite elem_of_apply_op.
    destruct (verdict_op o t) eqn:E; [|done].
    destruct (proj1 Ho t) as [Hp _]; [by rewrite E|]. by apply value_not_read in Hp. }
  split; simpl.
  - unfold well_numbered, apply_op. simpl. apply well_numbered_insert; [|apply Ho].
    intros t Ht. apply elem_of_filter in Ht as [_ Ht]. by apply Hn.
  - by eapply one_notation_agree.
  - by eapply thumbnails_plain_agree.
  - apply Forall_app. split; [done|]. by apply Forall_singleton.
  - by apply consistent_snoc.
  - eapply Forall_impl; [exact Hf|]. intros f. by apply holds_agree.
Qed.

(** [INSERT DATA { ts }] *)
Definition insert_op (ts : list triple) : op := {| deletes := λ _, false; inserts := ts |}.

Lemma apply_insert_op ts g : apply_op (insert_op ts) g = insert_data ts g.
Proof.
  unfold apply_op, insert_op. simpl. f_equal. apply set_eq. intros t.
  rewrite elem_of_filter. naive_solver.
Qed.

Lemma insert_op_ok n ts :
  Forall (λ t, pred t ∈ value_predicates ∧ (triple_bound t ≤ n)%nat) ts →
  op_ok n (insert_op ts).
Proof.
  intros Hts. split.
  - intros t. unfold verdict_op, insert_op. simpl. case_bool_decide as Hin; [|done].
    intros _. rewrite Forall_forall in Hts. destruct (Hts t Hin) as [Hp Hb].
    split; [done|]. unfold triple_bound in Hb. lia.
  - simpl. eapply Forall_impl; [exact Hts|]. by intros t [_ ?].
Qed.

(** Types given to subjects new to the store do not change what the
    select query of [ensureProductMeta] returns. *)
Lemma product_bindings_fresh_types g g' :
  agree_on ["skos:notation"; "adms:identifier"; "dct:creator"] g g' →
  (∀ t, pred t = rdf_type → t ∈ g → t ∈ g') →
  (∀ t, pred t = rdf_type → t ∈ g' → t ∈ g ∨ ∀ p o, Triple (subj t) p o ∉ g) →
  ∀ m, product_bindings m g' = product_bindings m g.
Proof.
  intros Hagree Hkeep Hnew m. apply product_bindings_same.
  - intros i. agreed Hagree.
  - intros i Hi. split; [|split; [agreed Hagree|split]].
    + split; [|by apply Hkeep]. intros H.
      destruct (Hnew (Triple i rdf_type _) eq_refl H) as [?|Hfresh]; [done|].
      by destruct (Hfresh "skos:notation" (OLit (LStr m))).
    + intros p. agreed Hagree.
    + intros p Hp. split; [|by apply Hkeep]. intros H.
      destruct (Hnew (Triple p rdf_type _) eq_refl H) as [?|Hfresh]; [done|].
      by destruct (Hfresh "adms:identifier" (OUri i)).
Qed.

Lemma thumbnails_plain_same g g' :
  agree_on ["veeakker:thumbnail"; "nie:dataSource"] g g' →
  thumbnails_plain g → thumbnails_plain g'.
Proof.
  intros H Hg P F th Hedge Hsrc.
  apply (Hg P F th).
  - revert Hedge. agreed H.
  - revert Hsrc. agreed H.
Qed.

(** A store that has grown by triples about subjects new to it, none of
    them a supplier, has the suppliers it had. *)
Lemma same_suppliers_grown n g g' :
  set_Forall (λ t, (triple_bound t ≤ n)%nat) g →
  (∀ t, pred t ∈ identity_predicates → t ∈ g → t ∈ g') →
  (∀ t, pred t ∈ identity_predicates → t ∈ g' → t ∈ g ∨ (n < uri_bound (subj t))%nat) →
  (∀ s i, Triple s "adms:identifier" i ∈ g' → Triple s "adms:identifier" i ∉ g →
          Triple s rdf_type (class "gr:BusinessEntity") ∉ g') →
  (∀ t, pred t = "gr:name" → (t ∈ g' ↔ t ∈ g)) →
  same_suppliers g g'.
Proof.
  intros Hn Hkeep Hnew Hsup Hname. split; [|done].
  intros m s. rewrite !elem_of_supplier_bindings. split.
  - intros (i & H1 & H2 & H3 & H4). exists i.
    destruct (decide (Triple s "adms:identifier" (OUri i) ∈ g)) as [H3'|H3'];
      [|by destruct (Hsup _ _ H3 H3')].
    pose proof (Hn _ H3') as Hb. unfold triple_bound in Hb. simpl in Hb.
    assert (∀ p o, Triple s p o ∈ g' → p ∈ identity_predicates → Triple s p o ∈ g) as Hs.
    { intros p o Hin Hp. destruct (Hnew (Triple s p o) Hp Hin) as [?|Hf]; [done|].
      simpl in Hf. lia. }
    assert (∀ p o, Triple i p o ∈ g' → p ∈ identity_predicates → Triple i p o ∈ g) as Hi.
    { intros p o Hin Hp. destruct (Hnew (Triple i p o) Hp Hin) as [?|Hf]; [done|].
      simpl in Hf. lia. }
    split; [apply Hi; [done|decided]|]. split; [apply Hi; [done|decided]|].
    split; [done|]. apply Hs; [done|decided].
  - intros (i & H1 & H2 & H3 & H4). exists i.
    split; [apply Hkeep; [cbn [pred]; decided|done]|].
    split; [apply Hkeep; [cbn [pred]; decided|done]|].
    split; apply Hkeep; (done || (cbn [pred]; decided)).
Qed.

Lemma holds_same_suppliers f g g' :
  same_suppliers g g' →
  match f with FKnown _ | FNames _ => holds f g → holds f g' | _ => True end.
Proof.
  intros H. destruct f; try done; cbn [holds].
  - by apply known_same.
  - by apply rename_suppliers_same.
Qed.

Lemma link_not_value rel : rel ∈ link_predicates → rel ∉ value_predicates.
Proof. revert rel. listed_among. Qed.

Lemma link_not_type rel : rel ∈ link_predicates → rel ≠ rdf_type ∧ rel ≠ "mu:uuid".
Proof.
  intros H. split; intros ->; revert H; decided.
Qed.

(** Membership in the store after a find-or-create that created. *)
Lemma elem_of_linked owner rel pre cls w t :
  t ∈ store (linked owner rel pre cls w) ↔
    t ∈ store w ∨
    t = Triple owner rel (OUri (Gen pre (uuids w) "")) ∨
    t = Triple (Gen pre (uuids w) "") rdf_type (class cls) ∨
    t = Triple (Gen pre (uuids w) "") "mu:uuid" (OLit (LUuid (uuids w))).
Proof.
  unfold linked. simpl. rewrite elem_of_insert_data, !elem_of_cons, elem_of_nil. tauto.
Qed.

(** Creating a linked resource keeps the invariant, and the resource is
    what the link finds from then on. *)
Lemma inv_linked F ops w owner rel pre cls :
  inv F ops w →
  objects_of owner rel (store w) = [] →
  rel ∈ link_predicates →
  (uri_bound owner ≤ uuids w)%nat →
  inv (FLink owner rel (Gen pre (uuids w) "") :: F) ops (linked owner rel pre cls w).
Proof.
  intros [Hn Hid Hth Hops Hc Hf] Hnone Hrel Howner.
  destruct (link_not_type rel Hrel) as [Hrt Hru].
  pose proof (link_not_value rel Hrel) as Hrv.
  assert (∀ p o, Triple (Gen pre (uuids w) "") p o ∉ store w) as Hfresh
    by (intros; by apply well_numbered_subj).
  assert (∀ o, Triple owner rel o ∉ store w) as Hempty.
  { intros o Hin. apply elem_of_objects_of in Hin. rewrite Hnone in Hin.
    by apply elem_of_nil in Hin. }
  assert (∀ t, pred t ∉ link_predicates → pred t ≠ rdf_type → pred t ≠ "mu:uuid" →
               (t ∈ store (linked owner rel pre cls w) ↔ t ∈ store w)) as Hsame.
  { intros t H1 H2 H3. rewrite elem_of_linked. split; [|tauto].
    intros [?|[->|[->| ->]]]; done. }
  assert (∀ m, product_bindings m (store (linked owner rel pre cls w))
               = product_bindings m (store w)) as Hpb.
  { apply product_bindings_fresh_types.
    - intros t Ht. apply Hsame.
      + revert Ht. generalize (pred t). intros r Hr.
        repeat (apply elem_of_cons in Hr as [->|Hr]; [decided|]). by apply elem_of_nil in Hr.
      + intros E. rewrite E in Ht. revert Ht. decided.
      + intros E. rewrite E in Ht. revert Ht. decided.
    - intros t _ Hin. apply elem_of_linked. by left.
    - intros t Hp. rewrite elem_of_linked. intros [?|[->|[->| ->]]]; try by left.
      right. apply Hfresh. }
  assert (same_suppliers (store w) (store (linked owner rel pre cls w))) as Hsup.
  { apply (same_suppliers_grown (uuids w)); [exact Hn|..].
    - intros t _ Hin. apply elem_of_linked. by left.
    - intros t Hp. rewrite elem_of_linked. intros [?|[->|[->| ->]]]; [by left|..].
      + exfalso. revert Hp Hrel. cbn [pred]. generalize rel. listed_among.
      + right. simpl. lia.
      + right. simpl. lia.
    - intros s i. rewrite elem_of_linked. intros [?|[[= -> E _]|[[= _ E _]|[= _ E _]]]] ?;
        [done|exfalso..]; try discriminate E. revert Hrel. rewrite <- E. decided.
    - intros t Hp. apply Hsame; rewrite Hp; [decided|done|done]. }
  split.
  - intros t. rewrite elem_of_linked. unfold linked. simpl.
    intros [Hin|[->|[->| ->]]]; [specialize (Hn _ Hin); simpl in Hn; lia|..];
      unfold triple_bound; simpl; lia.
  - intros n n' p i i'. rewrite !Hpb. apply Hid.
  - eapply thumbnails_plain_same; [|exact Hth]. intros t Ht. apply Hsame.
    + revert Ht. generalize (pred t). intros r Hr.
      repeat (apply elem_of_cons in Hr as [->|Hr]; [decided|]). by apply elem_of_nil in Hr.
    + intros E. rewrite E in Ht. revert Ht. decided.
    + intros E. rewrite E in Ht. revert Ht. decided.
  - eapply Forall_impl; [exact Hops|]. intros o. apply op_ok_mono. simpl. lia.
  - eapply consistent_outside; [exact Hops| |exact Hc]. intros t Hp _.
    rewrite elem_of_linked. split; [|tauto].
    intros [?|[->|[->| ->]]]; [done|by destruct Hrv|..]; exfalso; revert Hp; cbn [pred]; decided.
  - apply Forall_cons. split.
    + cbn [holds]. split; [done|]. exists (OUri (Gen pre (uuids w) "")), []. split; [|done].
      apply objects_of_unique. intros o. rewrite elem_of_linked. split.
      * intros [Hin|[[= ->]|[[= _ Hp _]|[= _ Hp _]]]]; [by destruct (Hempty o)|done|..].
        -- by destruct Hrt.
        -- by destruct Hru.
      * intros ->. right. by left.
    + eapply Forall_impl; [exact Hf|]. intros f Hholds.
      destruct f as [m P I|owner0 rel0 x|P url|P|name S|m|ss];
        [..|by apply (holds_same_suppliers (FKnown m) _ _ Hsup)
           |by apply (holds_same_suppliers (FNames ss) _ _ Hsup)]; cbn [holds] in *.
      * destruct Hholds as [bs E]. exists bs. by rewrite Hpb.
      * destruct Hholds as [Hrel0 (b & bs & E & Hb)]. split; [done|]. exists b, bs.
        split; [|done]. rewrite <- E. apply objects_of_same. intros o.
        rewrite elem_of_linked. split; [|tauto].
        destruct (link_not_type rel0 Hrel0) as [Hrt0 Hru0].
        intros [?|[[= -> -> ->]|[[= _ Hp _]|[= _ Hp _]]]]; [done|..].
        -- by rewrite Hnone in E.
        -- by destruct Hrt0.
        -- by destruct Hru0.
      * rewrite <- Hholds. apply current_picture_same; intros ?;
          (apply Hsame; cbn [pred]; [decided|done|done]).
      * rewrite <- Hholds. apply objects_of_same. intros o.
        apply Hsame; cbn [pred]; [decided|done|done].
      * rewrite <- Hholds. f_equal. apply subjects_of_same. intros s.
        apply Hsame; cbn [pred]; [decided|done|done].
Qed.

(** The world after the create branch of [ensureProductMeta]. *)
Definition product_triples (notation : string) (n : nat) : list triple :=
  let productUri := Gen "http://veeakker.be/products/" n "" in
  let admsIdentifier := Gen "http://data.redpencil.io/identifiers/" (S n) "" in
  [ Triple productUri rdf_type (class "schema:Product");
    Triple productUri "mu:uuid" (OLit (LUuid n));
    Triple productUri "adms:identifier" (OUri admsIdentifier);
    Triple admsIdentifier rdf_type (class "adms:Identifier");
    Triple admsIdentifier "mu:uuid" (OLit (LUuid (S n)));
    Triple admsIdentifier "skos:notation" (OLit (LStr notation));
    Triple admsIdentifier "dct:creator" lfw;
    Triple admsIdentifier "dct:title" (OLit (LStr ("LFW " ++ notation))) ].

Definition product_created (notation : string) (w : world) : world :=
  {| store := insert_data (product_triples notation (uuids w)) (store w);
     uuids := S (S (uuids w)); clock := clock w; downloads := downloads w;
     updates := S (updates w) |}.

Lemma ensureProductMeta_found product w b bs :
  product_bindings (pretty (id product)) (store w) = b :: bs →
  ensureProductMeta product w = (Ok b, w).
Proof. intros E. unfold ensureProductMeta. rewrite bind_unfold. simpl. by rewrite E. Qed.

Lemma ensureProductMeta_created product w :
  product_bindings (pretty (id product)) (store w) = [] →
  ensureProductMeta product w
  = (Ok (Gen "http://veeakker.be/products/" (uuids w) "",
         Gen "http://data.redpencil.io/identifiers/" (S (uuids w)) ""),
     product_created (pretty (id product)) w).
Proof. intros E. unfold ensureProductMeta. rewrite bind_unfold. simpl. by rewrite E. Qed.

Lemma product_triples_subject notation n t :
  t ∈ product_triples notation n →
  pred t ∈ meta_predicates ∧
  (subj t = Gen "http://veeakker.be/products/" n "" ∨
   subj t = Gen "http://data.redpencil.io/identifiers/" (S n) "") ∧
  (triple_bound t ≤ S (S n))%nat ∧
  (n < uri_bound (subj t))%nat.
Proof.
  unfold product_triples. cbv zeta. intros H.
  repeat (apply elem_of_cons in H as [->|H];
          [unfold triple_bound; split; [cbn [pred]; decided|simpl; split; [tauto|lia]]|]).
  by apply elem_of_nil in H.
Qed.

(** Bindings of the select query after a product was created. *)
Lemma elem_of_product_bindings_created notation w m p i :
  well_numbered w →
  (p, i) ∈ product_bindings m (store (product_created notation w)) ↔
    (p, i) ∈ product_bindings m (store w) ∨
    (m = notation ∧ p = Gen "http://veeakker.be/products/" (uuids w) "" ∧
     i = Gen "http://data.redpencil.io/identifiers/" (S (uuids w)) "").
Proof.
  intros Hw. rewrite !elem_of_product_bindings. unfold product_created, product_triples.
  cbv zeta. simpl.
  assert (∀ p' o, Triple (Gen "http://veeakker.be/products/" (uuids w) "") p' o ∉ store w)
    as HP by (intros; by apply well_numbered_subj).
  assert (∀ p' o, Triple (Gen "http://data.redpencil.io/identifiers/" (S (uuids w)) "") p' o
                  ∉ store w) as HI by (intros; apply well_numbered_subj; [done|lia]).
  assert (∀ s p', Triple s p' (OUri (Gen "http://data.redpencil.io/identifiers/"
                                       (S (uuids w)) "")) ∉ store w) as HIo
    by (intros; apply well_numbered_obj; [done|lia]).
  set_unfold. naive_solver.
Qed.

(** Creating a product keeps the invariant, and the created pair is what
    the select query lists first from then on. *)
Lemma inv_product_created F ops w notation :
  inv F ops w →
  product_bindings notation (store w) = [] →
  inv (FProduct notation (Gen "http://veeakker.be/products/" (uuids w) "")
         (Gen "http://data.redpencil.io/identifiers/" (S (uuids w)) "") :: F)
      ops (product_created notation w).
Proof.
  intros [Hn Hid Hth Hops Hc Hf] Hnone.
  assert (∀ t, t ∈ store (product_created notation w)
               ↔ t ∈ store w ∨ t ∈ product_triples notation (uuids w)) as Hin.
  { intros t. unfold product_created. simpl. apply elem_of_insert_data. }
  assert (∀ t, pred t ∉ meta_predicates →
               (t ∈ store (product_created notation w) ↔ t ∈ store w)) as Hsame.
  { intros t Ht. rewrite Hin. split; [|tauto]. intros [?|H]; [done|].
    by apply product_triples_subject in H as [? _]. }
  assert (∀ t, t ∈ product_triples notation (uuids w) →
               ∀ p o, Triple (subj t) p o ∉ store w) as Hfresh.
  { intros t Ht p o. apply product_triples_subject in Ht as (_ & [-> | ->] & _);
      apply well_numbered_subj; (done || lia). }
  assert (same_suppliers (store w) (store (product_created notation w))) as Hsup.
  { apply (same_suppliers_grown (uuids w)); [exact Hn|..].
    - intros t _ Ht. apply Hin. by left.
    - intros t _. rewrite Hin. intros [?|H]; [by left|right].
      by apply product_triples_subject in H as (_ & _ & _ & ?).
    - intros s i Hnew Hold. apply Hin in Hnew as [?|Hnew]; [done|].
      pose proof (Hfresh _ Hnew) as Hs. simpl in Hs.
      rewrite Hin. intros [H|H]; [by destruct (Hs rdf_type (class "gr:BusinessEntity"))|].
      unfold product_triples in H. cbv zeta in H.
      repeat (apply elem_of_cons in H as [H|H]; [discriminate H|]). by apply elem_of_nil in H.
    - intros t Hp. apply Hsame. rewrite Hp. decided. }
  split.
  - intros t. rewrite Hin. unfold product_created. simpl. intros [H|H].
    + specialize (Hn _ H). simpl in Hn. lia.
    + by apply product_triples_subject in H as (_ & _ & ? & _).
  - intros n n' p i i'. rewrite !elem_of_product_bindings_created by done.
    intros [H1|(-> & -> & ->)] [H2|(-> & E & E')]; [by eapply Hid|..|done].
    + subst p. apply elem_of_product_bindings in H1 as (_ & _ & _ & H & _).
      by apply well_numbered_subj in H.
    + apply elem_of_product_bindings in H2 as (_ & _ & _ & H & _).
      by apply well_numbered_subj in H.
  - eapply thumbnails_plain_same; [|exact Hth]. intros t Ht. apply Hsame.
    intros H. revert Ht. unfold meta_predicates in H.
    repeat (apply elem_of_cons in H as [->|H]; [decided|]). by apply elem_of_nil in H.
  - eapply Forall_impl; [exact Hops|]. intros o. apply op_ok_mono. simpl. lia.
  - eapply consistent_outside; [exact Hops| |exact Hc]. intros t Hp Hb.
    rewrite Hin. split; [|tauto]. intros [?|H]; [done|].
    apply product_triples_subject in H as (_ & _ & _ & ?). lia.
  - apply Forall_cons. split.
    + cbn [holds].
      pose proof (λ b, product_bindings_created notation w b Hn Hnone) as Hb. simpl in Hb.
      fold (product_triples notation (uuids w)) in Hb.
      change (insert_data (product_triples notation (uuids w)) (store w))
        with (store (product_created notation w)) in Hb.
      destruct (product_bindings notation (store (product_created notation w)))
        as [|b bs] eqn:E.
      * exfalso. eapply not_elem_of_nil, Hb. reflexivity.
      * exists bs. f_equal. apply Hb. left.
    + eapply Forall_impl; [exact Hf|]. intros f Hholds.
      destruct f as [m P I|owner0 rel0 x|P url|P|name S|m|ss];
        [..|by apply (holds_same_suppliers (FKnown m) _ _ Hsup)
           |by apply (holds_same_suppliers (FNames ss) _ _ Hsup)]; cbn [holds] in *.
      * destruct Hholds as [bs E]. exists bs. rewrite <- E.
        assert (m ≠ notation) as Hm by (intros ->; by rewrite Hnone in E).
        apply product_bindings_same.
        -- intros i. rewrite Hin. split; [|tauto]. intros [?|H]; [done|].
           unfold product_triples in H. cbv zeta in H.
           repeat (apply elem_of_cons in H as [H|H]; [try discriminate H|]).
           ++ injection H as _ ->. done.
           ++ by apply elem_of_nil in H.
        -- intros i Hi.
           assert (∀ t, subj t = i → t ∈ store (product_created notation w) ↔ t ∈ store w)
             as Hi'.
           { intros t <-. rewrite Hin. split; [|tauto]. intros [?|H]; [done|].
             by destruct (Hfresh t H "skos:notation" (OLit (LStr m))). }
           split; [by apply Hi'|]. split; [by apply Hi'|]. split.
           ++ intros p. rewrite Hin. split; [|tauto]. intros [?|H]; [done|].
              unfold product_triples in H. cbv zeta in H.
              repeat (apply elem_of_cons in H as [H|H]; [try discriminate H|]).
              ** injection H as _ Hi2. subst i. exfalso. eapply well_numbered_subj; [exact Hn| |exact Hi]. lia.
              ** by apply elem_of_nil in H.
           ++ intros p Hp. rewrite Hin. split; [|tauto]. intros [?|H]; [done|].
              by destruct (Hfresh _ H "adms:identifier" (OUri i)).
      * destruct Hholds as [Hrel0 (b & bs & E & Hb)]. split; [done|]. exists b, bs.
        split; [|done]. rewrite <- E. apply objects_of_same. intros o. apply Hsame.
        cbn [pred]. intros H. revert Hrel0. unfold meta_predicates in H.
        repeat (apply elem_of_cons in H as [->|H]; [decided|]). by apply elem_of_nil in H.
      * rewrite <- Hholds. apply current_picture_same; intros ?;
          (apply Hsame; cbn [pred]; decided).
      * rewrite <- Hholds. apply objects_of_same. intros o. apply Hsame; cbn [pred]; decided.
      * rewrite <- Hholds. f_equal. apply subjects_of_same. intros s.
        apply Hsame; cbn [pred]; decided.
Qed.

(** *** Pictures *)

Definition picture_subject (f : fact) : option uri :=
  match f with
  | FPicture productUri _ | FNoPicture productUri => Some productUri
  | _ => None
  end.

Lemma product_bindings_agree g g' :
  agree_on identity_predicates g g' → ∀ m, product_bindings m g' = product_bindings m g.
Proof.
  intros H. apply product_bindings_fresh_types.
  - intros t Ht. apply H. revert Ht. generalize (pred t). listed_among.
  - intros t Hp. apply H. rewrite Hp. decided.
  - intros t Hp Hin. left. revert Hin. apply H. rewrite Hp. decided.
Qed.

Lemma same_suppliers_identity g g' :
  agree_on ("gr:name" :: identity_predicates) g g' → same_suppliers g g'.
Proof.
  intros H. split.
  - intros m s. rewrite !elem_of_supplier_bindings.
    split; intros (i & A & B & C & D); exists i;
      (split; [revert A; agreed H|split; [revert B; agreed H
        |split; [revert C; agreed H|revert D; agreed H]]]).
  - intros t Hp. apply H. rewrite Hp. decided.
Qed.

(** Facts that are not about pictures depend on identities, links and
    names only. *)
Lemma holds_plain f g g' :
  (∀ m, product_bindings m g' = product_bindings m g) →
  same_suppliers g g' →
  agree_on link_predicates g g' →
  picture_subject f = None →
  holds f g → holds f g'.
Proof.
  intros Hpb Hsup Hlink. destruct f as [m P I|owner rel x|P url|P|name S|m|ss]; cbn [holds];
    try done; intros _.
  - intros [bs E]. exists bs. by rewrite Hpb.
  - intros [Hrel (b & bs & E & Hb)]. split; [done|]. exists b, bs. split; [|done].
    rewrite <- E. apply objects_of_same. intros o. by apply Hlink.
  - intros E. rewrite <- E. f_equal. apply subjects_of_same. intros s. by apply Hsup.
  - by apply known_same.
  - by apply rename_suppliers_same.
Qed.

Lemma file_allowlist_share p : p ∈ file_allowlist → p ∈ share_allowlist.
Proof. revert p. listed_among. Qed.

Lemma remove_old_picture_subseteq productUri g t :
  t ∈ remove_old_picture productUri g → t ∈ g.
Proof. rewrite elem_of_remove_old_picture. tauto. Qed.

Lemma remove_old_picture_keeps productUri g t :
  pred t ∉ share_allowlist → pred t ≠ "veeakker:thumbnail" →
  t ∈ remove_old_picture productUri g ↔ t ∈ g.
Proof.
  intros Hs Ht. rewrite elem_of_remove_old_picture.
  pose proof (file_allowlist_share (pred t)). tauto.
Qed.

(** Removing the picture of a product keeps the invariant; the pictures
    of the other products are as they were. *)
Lemma inv_unpictured F ops w productUri :
  inv F ops w →
  (∀ url, FPicture productUri url ∉ F) →
  inv (FNoPicture productUri :: F) ops
      (with_store (remove_old_picture productUri (store w)) w).
Proof.
  intros [Hn Hid Hth Hops Hc Hf] Hnone.
  set (g' := remove_old_picture productUri (store w)).
  assert (∀ ps, (∀ p, p ∈ ps → (p ∉ share_allowlist) ∧ p ≠ "veeakker:thumbnail") →
                agree_on ps (store w) g') as Hagree.
  { intros ps Hps t Ht. destruct (Hps _ Ht). by apply remove_old_picture_keeps. }
  assert (∀ m, product_bindings m g' = product_bindings m (store w)) as Hpb.
  { apply product_bindings_agree, Hagree. intros p Hp. split; [|intros ->]; revert Hp.
    - revert p. listed_among.
    - decided. }
  assert (same_suppliers (store w) g') as Hsup.
  { apply same_suppliers_identity, Hagree. intros p Hp. split; [|intros ->]; revert Hp.
    - revert p. listed_among.
    - decided. }
  assert (agree_on link_predicates (store w) g') as Hlink.
  { apply Hagree. intros p Hp. split; [|intros ->]; revert Hp.
    - revert p. listed_among.
    - decided. }
  split; simpl; fold g'.
  - intros t Ht. apply remove_old_picture_subseteq in Ht. by apply Hn.
  - intros n n' p i i'. rewrite !Hpb. apply Hid.
  - intros P F' th H1 H2. apply remove_old_picture_subseteq in H1.
    apply remove_old_picture_subseteq in H2. by apply (Hth P F' th).
  - done.
  - eapply consistent_outside; [exact Hops| |exact Hc]. intros t Hp _.
    apply remove_old_picture_keeps; [|intros E; rewrite E in Hp]; revert Hp.
    + generalize (pred t). listed_among.
    + decided.
  - apply Forall_cons. split.
    + cbn [holds]. apply objects_of_nil. intros o. unfold g'.
      rewrite elem_of_remove_old_picture. simpl. tauto.
    + rewrite Forall_forall in Hf |- *. intros f Hin. specialize (Hf f Hin).
      destruct (picture_subject f) as [P|] eqn:E; [|by apply (holds_plain f (store w))].
      destruct f as [| |P' url|P'| | |]; try discriminate E; cbn [holds] in *.
      * assert (P' ≠ productUri) as HP by (intros ->; by destruct (Hnone url)).
        apply current_picture_true in Hf as (pic & H1 & H2). apply current_picture_true.
        exists pic. unfold g'. rewrite !elem_of_remove_old_picture. simpl.
        split; (split; [done|]).
        -- split; [intros [H _]; revert H; decided|]. by intros [? _].
        -- split; [|intros [_ [=]]].
           intros [_ (th & _ & Hsrc)]. by destruct (Hth P' pic th).
      * apply objects_of_nil. intros o Ho. apply remove_old_picture_subseteq in Ho.
        apply elem_of_objects_of in Ho. rewrite Hf in Ho. by apply elem_of_nil in Ho.
Qed.

(** The world after the download and the insert of a new picture. *)
Definition pictured (productUri : uri) (url extension fileName mimetype : string)
    (w : world) : world :=
  {| store := insert_data
                (new_picture_triples productUri url (uuids w) (S (uuids w)) extension fileName
                   mimetype (clock w))
                (store w);
     uuids := S (S (uuids w)); clock := S (clock w);
     downloads := (url, (uuids w, extension)) :: downloads w;
     updates := S (updates w) |}.

Lemma picture_replaced_pictured productUri url extension fileName mimetype w :
  picture_replaced productUri url extension fileName mimetype w
  = pictured productUri url extension fileName mimetype
      (with_store (remove_old_picture productUri (store w)) w).
Proof. reflexivity. Qed.

Definition picture_predicates : list string :=
  [ "veeakker:thumbnail"; rdf_type; "dct:source"; "mu:uuid"; "nfo:fileName"; "dct:format";
    "dbpedia:fileExtension"; "dct:created"; "nie:dataSource" ].

Lemma new_picture_triples_spec productUri url k extension fileName mimetype creation t :
  t ∈ new_picture_triples productUri url k (S k) extension fileName mimetype creation →
  pred t ∈ picture_predicates ∧
  (triple_bound t ≤ S (S k) `max` uri_bound productUri)%nat ∧
  (t = Triple productUri "veeakker:thumbnail" (OUri (Gen "http://veeakker.be/files/" k "")) ∨
   (k < uri_bound (subj t))%nat ∧ pred t ≠ "veeakker:thumbnail" ∧
   pred t ≠ "adms:identifier" ∧
   (pred t = "nie:dataSource" → subj t = Gen "share://" k ("." ++ extension))).
Proof.
  unfold new_picture_triples. cbv zeta. intros H.
  repeat (apply elem_of_cons in H as [->|H];
          [split; [cbn [pred]; decided|]; split; [unfold triple_bound; simpl; lia|];
           first [by left|right; simpl; split; [lia|done]]|]).
  by apply elem_of_nil in H.
Qed.

(** Storing a new picture for a product without one keeps the
    invariant; the picture is the product's from then on. *)
Lemma inv_pictured F ops w productUri url extension fileName mimetype :
  inv F ops w →
  (uri_bound productUri ≤ uuids w)%nat →
  FNoPicture productUri ∉ F →
  inv (FPicture productUri url :: F) ops
      (pictured productUri url extension fileName mimetype w).
Proof.
  intros [Hn Hid Hth Hops Hc Hf] HP Hnone.
  set (ts := new_picture_triples productUri url (uuids w) (S (uuids w)) extension fileName
               mimetype (clock w)).
  set (g' := insert_data ts (store w)).
  assert (∀ t, t ∈ g' ↔ t ∈ store w ∨ t ∈ ts) as Hin by (intros; apply elem_of_insert_data).
  assert (∀ t, pred t ∉ picture_predicates → (t ∈ g' ↔ t ∈ store w)) as Hsame.
  { intros t Ht. rewrite Hin. split; [|tauto]. intros [?|H]; [done|].
    by apply new_picture_triples_spec in H as [? _]. }
  assert (∀ t, t ∈ ts → pred t ≠ "veeakker:thumbnail" → ∀ p o, Triple (subj t) p o ∉ store w)
    as Hfresh.
  { intros t Ht Hp p o Hold. apply new_picture_triples_spec in Ht as (_ & _ & [->|[Hb _]]);
      [done|]. specialize (Hn _ Hold). unfold triple_bound in Hn. simpl in Hn. lia. }
  assert (∀ m, product_bindings m g' = product_bindings m (store w)) as Hpb.
  { apply product_bindings_fresh_types.
    - intros t Ht. apply Hsame. intros H. revert Ht. unfold picture_predicates in H.
      repeat (apply elem_of_cons in H as [->|H]; [decided|]). by apply elem_of_nil in H.
    - intros t _ Ht. apply Hin. by left.
    - intros t Hp. rewrite Hin. intros [?|Ht]; [by left|right].
      apply Hfresh; [done|]. by rewrite Hp. }
  assert (same_suppliers (store w) g') as Hsup.
  { apply (same_suppliers_grown (uuids w)); [exact Hn|..].
    - intros t _ Ht. apply Hin. by left.
    - intros t Hp. rewrite Hin. intros [?|Ht]; [by left|right].
      apply new_picture_triples_spec in Ht as (_ & _ & [->|[Hb _]]); [|done].
      exfalso. revert Hp. decided.
    - intros s i Hnew Hold. apply Hin in Hnew as [?|Hnew]; [done|].
      apply new_picture_triples_spec in Hnew as (_ & _ & [[=]|(_ & _ & H & _)]).
      by destruct H.
    - intros t Hp. apply Hsame. rewrite Hp. decided. }
  assert (agree_on link_predicates (store w) g') as Hlink.
  { intros t Ht. apply Hsame. intros H. revert Ht. unfold picture_predicates in H.
    repeat (apply elem_of_cons in H as [->|H]; [decided|]). by apply elem_of_nil in H. }
  split; unfold pictured; cbn [store uuids]; fold ts; fold g'.
  - intros t. rewrite Hin. cbn [uuids]. intros [Ht|Ht].
    + specialize (Hn _ Ht). simpl in Hn. lia.
    + apply new_picture_triples_spec in Ht as (_ & Hb & _). lia.
  - intros n n' p i i'. rewrite !Hpb. apply Hid.
  - intros P pic th. rewrite !Hin. intros [H1|H1] [H2|H2].
    + by apply (Hth P pic th).
    + apply new_picture_triples_spec in H2 as (_ & _ & [[=]|(_ & _ & _ & Hs)]).
      simpl in Hs. rewrite Hs in H1 by done.
      by eapply well_numbered_obj in H1.
    + apply new_picture_triples_spec in H1 as (_ & _ & [[= -> ->]|(_ & H & _)]);
        [|by destruct H].
      by eapply well_numbered_subj in H2.
    + apply new_picture_triples_spec in H1 as (_ & _ & [[= -> ->]|(_ & H & _)]);
        [|by destruct H].
      apply new_picture_triples_spec in H2 as (_ & _ & [[=]|(_ & _ & _ & Hs)]).
      simpl in Hs. by specialize (Hs eq_refl).
  - eapply Forall_impl; [exact Hops|]. intros o. apply op_ok_mono. lia.
  - eapply consistent_outside; [exact Hops| |exact Hc]. intros t Hp _.
    apply Hsame. intros H. revert Hp. unfold picture_predicates in H.
    repeat (apply elem_of_cons in H as [->|H]; [decided|]). by apply elem_of_nil in H.
  - apply Forall_cons. split.
    + cbn [holds]. apply current_picture_true.
      exists (Gen "http://veeakker.be/files/" (uuids w) "").
      split; apply Hin; right; unfold ts, new_picture_triples; cbv zeta.
      * left.
      * do 2 right. left.
    + rewrite Forall_forall in Hf |- *. intros f Hf'. specialize (Hf f Hf').
      destruct (picture_subject f) as [P|] eqn:E; [|by apply (holds_plain f (store w))].
      destruct f as [| |P' url'|P'| | |]; try discriminate E; cbn [holds] in *.
      * apply current_picture_true in Hf as (pic & H1 & H2). apply current_picture_true.
        exists pic. split; apply Hin; by left.
      * assert (P' ≠ productUri) as HP' by (intros ->; by destruct Hnone).
        rewrite <- Hf. apply objects_of_same. intros o. rewrite Hin. split; [|tauto].
        intros [?|H]; [done|].
        apply new_picture_triples_spec in H as (_ & _ & [[= ? _]|(_ & H & _)]); done.
Qed.

(** *** The steps of a first run *)

Lemma inv_fact F ops w f : inv F ops w → holds f (store w) → inv (f :: F) ops w.
Proof. intros [] Hf. split; try done. by apply Forall_cons. Qed.

Lemma inv_incl F F' ops w : inv F ops w → (∀ f, f ∈ F' → f ∈ F) → inv F' ops w.
Proof.
  intros [? ? ? ? ? Hf] Hincl. split; try done.
  rewrite Forall_forall in Hf |- *. auto.
Qed.

Lemma binding_value_bound b : (uri_bound (binding_value b) ≤ obj_bound b)%nat.
Proof. destruct b as [u|[]]; simpl; lia. Qed.

Lemma ensure_linked_inv F ops w owner rel pre cls :
  inv F ops w → rel ∈ link_predicates → (uri_bound owner ≤ uuids w)%nat →
  ∃ x w', ensure_linked owner rel pre cls w = (Ok x, w') ∧
          inv (FLink owner rel x :: F) ops w' ∧
          (uuids w ≤ uuids w')%nat ∧ (uri_bound x ≤ uuids w')%nat.
Proof.
  intros Hinv Hrel Howner.
  destruct (objects_of owner rel (store w)) as [|b bs] eqn:E.
  - eexists _, _. split; [by apply ensure_linked_created|].
    split; [by apply inv_linked|]. simpl. lia.
  - exists (binding_value b), w. split; [by eapply ensure_linked_found|].
    split; [|split; [done|]].
    + apply inv_fact; [done|]. cbn [holds]. split; [done|]. by exists b, bs.
    + assert (Triple owner rel b ∈ store w) as Hin
        by (apply elem_of_objects_of; rewrite E; left).
      pose proof (inv_numbered _ _ _ Hinv _ Hin) as Hb. unfold triple_bound in Hb.
      simpl in Hb. pose proof (binding_value_bound b). lia.
Qed.

Lemma ensureProductMeta_inv F ops w d :
  inv F ops w →
  ∃ P I w', ensureProductMeta d w = (Ok (P, I), w') ∧
            inv (FProduct (pretty (id d)) P I :: F) ops w' ∧
            (uuids w ≤ uuids w')%nat ∧ (uri_bound P ≤ uuids w')%nat.
Proof.
  intros Hinv.
  destruct (product_bindings (pretty (id d)) (store w)) as [|[P I] bs] eqn:E.
  - eexists _, _, _. split; [by apply ensureProductMeta_created|].
    split; [by apply inv_product_created|]. simpl. lia.
  - exists P, I, w. split; [by eapply ensureProductMeta_found|].
    split; [|split; [done|]].
    + apply inv_fact; [done|]. cbn [holds]. by exists bs.
    + assert ((P, I) ∈ product_bindings (pretty (id d)) (store w)) as Hin
        by (rewrite E; left).
      apply elem_of_product_bindings in Hin as (_ & _ & _ & Hin & _).
      pose proof (inv_numbered _ _ _ Hinv _ Hin) as Hb. unfold triple_bound in Hb.
      simpl in Hb. lia.
Qed.

(** An update of values. *)
Lemma update_inv F ops w o f :
  inv F ops w → op_ok (uuids w) o → (∀ g, f g = apply_op o g) →
  ∃ w', update f w = (Ok tt, w') ∧ inv F (ops ++ [o]) w' ∧ uuids w' = uuids w.
Proof.
  intros Hinv Ho Hf. exists (with_store (apply_op o (store w)) w).
  split; [by rewrite update_with_store, Hf|]. split; [by apply inv_value|done].
Qed.

(** The fact about its picture a product step leaves behind. *)
Definition picture_fact (d : product) (productUri : uri) : fact :=
  match truthy (image d) with
  | Some url => FPicture productUri url
  | None => FNoPicture productUri
  end.

Lemma ensureProductPicture_inv U F ops w d productUri w' :
  inv F ops w → (uri_bound productUri ≤ uuids w)%nat →
  (∀ f, f ∈ F → picture_subject f = Some productUri → f = picture_fact d productUri) →
  ensureProductPicture U d productUri w = (Ok tt, w') →
  inv (picture_fact d productUri :: F) ops w' ∧ (uuids w ≤ uuids w')%nat.
Proof.
  intros Hinv HP Hold Hrun. unfold picture_fact in *.
  destruct (truthy (image d)) as [url|] eqn:Hurl.
  - destruct (current_picture productUri url (store w)) eqn:Hcur.
    + rewrite (ensureProductPicture_same _ _ _ _ _ Hurl Hcur) in Hrun.
      injection Hrun as <-. split; [|done]. by apply inv_fact.
    + assert (∀ f, f ∈ F → picture_subject f ≠ Some productUri) as Hnone.
      { intros f Hf Hs. pose proof (Hold f Hf Hs) as ->.
        pose proof (inv_facts _ _ _ Hinv) as Hall.
        rewrite Forall_forall in Hall. specialize (Hall _ Hf). cbn [holds] in Hall.
        by rewrite Hall in Hcur. }
      destruct (ensureProductPicture_returns _ _ _ _ _ _ Hurl Hcur Hrun)
        as (extension & fileName & mimetype & _ & _ & _ & _ & _ & ->).
      rewrite picture_replaced_pictured. split; [|simpl; lia].
      apply inv_pictured; [|done|].
      * apply (inv_incl (FNoPicture productUri :: F)); [|intros; by right].
        apply inv_unpictured; [done|]. intros u Hu. by apply (Hnone _ Hu).
      * intros Hu. by apply (Hnone _ Hu).
  - revert Hrun. unfold ensureProductPicture. rewrite Hurl, !bind_unfold. simpl.
    intros [= <-]. split; [|simpl; lia].
    apply (inv_unpictured F ops w productUri Hinv). intros u Hu.
    by pose proof (Hold _ Hu eq_refl).
Qed.

(** What [loadProductSupplier] writes for the supplier its query finds. *)
Definition supplier_ops (U : upstream) (info : supplier_info) (offeringUri : uri)
    (supplierUri : option uri) : list op :=
  match supplierUri with
  | Some s =>
      if bool_decide (s = Ext "") then []
      else [ replace_op s ["schema:email"; "dct:description"]
               [ Triple s "schema:email" (OLit (LStr (emailAddress info)));
                 Triple s "dct:description"
                   (OLit (LStr (sanitize U (replace_newlines
                                              (or_empty (supplier_description info))))));
                 Triple s "gr:offers" (OUri offeringUri) ] ]
  | None => []
  end.

Lemma loadProductSupplier_inv U F ops w offeringUri info :
  inv F ops w → (uri_bound offeringUri ≤ uuids w)%nat →
  let supplierUri := head (subjects_of "gr:name" (OLit (LStr (supplier_name info))) (store w)) in
  ∃ w', loadProductSupplier U offeringUri info w = (Ok tt, w') ∧
        inv (FSupplier (supplier_name info) supplierUri :: F)
            (ops ++ supplier_ops U info offeringUri supplierUri) w' ∧
        uuids w' = uuids w.
Proof.
  intros Hinv Hoff So. unfold loadProductSupplier. rewrite bind_unfold. simpl. fold So.
  assert (holds (FSupplier (supplier_name info) So) (store w)) as Hfact by done.
  destruct So as [s|] eqn:E; simpl.
  - case_bool_decide as Hs.
    + exists w. rewrite app_nil_r. split; [done|]. split; [by apply inv_fact|done].
    + eexists (with_store (apply_op _ (store w)) w).
      split; [rewrite apply_replace_op; reflexivity|]. split; [|done].
      apply inv_value; [by apply inv_fact|]. apply replace_op_ok.
      * listed_among.
      * assert (s ∈ subjects_of "gr:name" (OLit (LStr (supplier_name info))) (store w))
          as Hin.
        { unfold So in E. destruct (subjects_of _ _ _); [done|]. injection E as ->. left. }
        apply elem_of_subjects_of in Hin.
        pose proof (inv_numbered _ _ _ Hinv _ Hin) as Hb. unfold triple_bound in Hb.
        cbn in Hb. lia.
      * repeat (apply Forall_cons; split; [split; [done|split; [decided|simpl; lia]]|]).
        by apply Forall_nil.
  - exists w. rewrite app_nil_r. split; [done|]. split; [by apply inv_fact|done].
Qed.

(** *** What a product step decides *)

Record resolution := {
  res_product : uri;
  res_identifier : uri;
  res_single : uri;
  res_target : uri;
  res_offering : uri;
  res_quantity : uri;
  res_price : uri;
  res_supplier : option uri }.

Definition measure (d : product) : string :=
  unitOfMeasurement (measurementUnitPrice (consumerPrice (pricing d))).

Definition unit_of (d : product) : string :=
  match convertLfwUnitToCEFACT (measure d) with Ok u => u | _ => "" end.

Definition single_op (d : product) (single : uri) : op :=
  replace_op single ["gr:hasUnitOfMeasurement"; "gr:hascurrencyValue"]
    [ Triple single "gr:hasUnitOfMeasurement" (OLit (LStr (unit_of d)));
      Triple single "gr:hasCurrencyValue"
        (OLit (LDec (money_amount (measurementUnitPrice (consumerPrice (pricing d)))))) ].

Definition target_op (d : product) (target : uri) : op :=
  replace_op target ["gr:hasUnitOfMeasurement"; "gr:hasValue"]
    [ Triple target "gr:hasUnitOfMeasurement" (OLit (LStr (unit_of d)));
      Triple target "gr:hasValue"
        (OLit (LDec (measurementUnitVsOrderUnitRatio (pricing d)))) ].

Definition price_op (d : product) (price : uri) : op :=
  replace_op price ["gr:hasUnitOfMeasurement"; "gr:hasCurrencyValue"]
    [ Triple price "gr:hasUnitOfMeasurement" (OLit (LStr "C62"));
      Triple price "gr:hasCurrencyValue"
        (OLit (LDec (money_amount (orderUnitPrice (consumerPrice (pricing d)))))) ].

Definition quantity_op (d : product) (quantity : uri) : op :=
  replace_op quantity ["gr:amountOfThisGood"; "gr:hasUnitOfMeasurement"; "gr:typeOfGood"]
    [ Triple quantity "gr:amountOfThisGood"
        (OLit (LDec (measurementUnitVsOrderUnitRatio (pricing d))));
      Triple quantity "gr:hasUnitOfMeasurement" (OLit (LStr (unit_of d))) ].

Lemma lift_bind {A B} (o : outcome A) (k : A → M B) w :
  (lift o ≫= k) w
  = match o with
    | Ok a => k a w
    | Throw e => (Throw e, w)
    | Unfinished => (Unfinished, w)
    end.
Proof. rewrite bind_unfold. unfold lift. by destruct o. Qed.

Lemma update_bind {B} (f : graph → graph) (k : unit → M B) w :
  (update f ≫= k) w = k tt (with_store (f (store w)) w).
Proof. by rewrite bind_unfold. Qed.

Lemma ret_bind {A B} (a : A) (k : A → M B) w : (mret a ≫= k) w = k a w.
Proof. by rewrite bind_unfold. Qed.

Lemma bind_assoc_M {A B C} (m : M A) (k : A → M B) (h : B → M C) w :
  (m ≫= (λ a, k a ≫= h)) w = ((m ≫= k) ≫= h) w.
Proof. rewrite !bind_unfold. by destruct (m w) as [[a|e|] w']. Qed.

Lemma single_op_ok d single n : (uri_bound single ≤ n)%nat → op_ok n (single_op d single).
Proof.
  intros H. apply replace_op_ok; [listed_among|done|].
  repeat (apply Forall_cons; split; [split; [done|split; [decided|simpl; lia]]|]).
  by apply Forall_nil.
Qed.

Lemma target_op_ok d target n : (uri_bound target ≤ n)%nat → op_ok n (target_op d target).
Proof.
  intros H. apply replace_op_ok; [listed_among|done|].
  repeat (apply Forall_cons; split; [split; [done|split; [decided|simpl; lia]]|]).
  by apply Forall_nil.
Qed.

Lemma price_op_ok d price n : (uri_bound price ≤ n)%nat → op_ok n (price_op d price).
Proof.
  intros H. apply replace_op_ok; [listed_among|done|].
  repeat (apply Forall_cons; split; [split; [done|split; [decided|simpl; lia]]|]).
  by apply Forall_nil.
Qed.

Lemma quantity_op_ok d quantity n :
  (uri_bound quantity ≤ n)%nat → op_ok n (quantity_op d quantity).
Proof.
  intros H. apply replace_op_ok; [listed_among|done|].
  repeat (apply Forall_cons; split; [split; [done|split; [decided|simpl; lia]]|]).
  by apply Forall_nil.
Qed.

Lemma convert_unit_of d u : convertLfwUnitToCEFACT (measure d) = Ok u → unit_of d = u.
Proof. unfold unit_of. by intros ->. Qed.

Lemma ensureProductDefaultPricing_inv F ops w d productUri w' :
  inv F ops w → (uri_bound productUri ≤ uuids w)%nat →
  ensureProductDefaultPricing d productUri w = (Ok tt, w') →
  ∃ single target,
    inv (FLink productUri "veeakker:targetUnit" target
         :: FLink productUri "veeakker:singleUnitPrice" single :: F)
        (ops ++ [single_op d single; target_op d target]) w' ∧
    (uuids w ≤ uuids w')%nat ∧
    convertLfwUnitToCEFACT (measure d) = Ok (unit_of d).
Proof.
  intros Hinv HP Hrun. unfold ensureProductDefaultPricing in Hrun. cbv zeta in Hrun.
  unfold ensureSingleUnitPriceResource, ensureTargetUnitResource in Hrun.
  destruct (ensure_linked_inv F ops w productUri "veeakker:singleUnitPrice"
              "http://veeakker.be/price-specifications/" "gr:UnitPriceSpecification" Hinv)
    as (single & w1 & H1 & Hinv1 & Hle1 & Hb1); [decided|done|].
  rewrite (bind_ok _ _ _ _ _ H1) in Hrun.
  destruct (ensure_linked_inv _ ops w1 productUri "veeakker:targetUnit"
              "http://veeakker.be/quantitative-values/" "gr:QuantitativeValue" Hinv1)
    as (target & w2 & H2 & Hinv2 & Hle2 & Hb2); [decided|lia|].
  rewrite (bind_ok _ _ _ _ _ H2) in Hrun.
  rewrite lift_bind in Hrun. fold (measure d) in Hrun.
  destruct (convertLfwUnitToCEFACT (measure d)) as [u| |] eqn:Hu; [|done|done].
  pose proof (convert_unit_of _ _ Hu) as <-.
  rewrite update_bind, lift_bind in Hrun.
  rewrite <- apply_replace_op in Hrun. fold (single_op d single) in Hrun.
  rewrite update_with_store in Hrun. cbn [store] in Hrun.
  rewrite <- apply_replace_op in Hrun. fold (target_op d target) in Hrun.
  injection Hrun as <-.
  exists single, target. split; [|split; [simpl; lia|done]].
  replace (ops ++ [single_op d single; target_op d target])%list
    with ((ops ++ [single_op d single]) ++ [target_op d target])%list
    by (by rewrite <- app_assoc).
  apply (inv_value _ _ (with_store (apply_op (single_op d single) (store w2)) w2));
    [apply inv_value; [done|]|].
  - apply single_op_ok. lia.
  - apply target_op_ok. simpl. lia.
Qed.

Lemma ensureProductOffers_inv F ops w d productUri resources w' :
  inv F ops w → (uri_bound productUri ≤ uuids w)%nat →
  ensureProductOffers d productUri w = (Ok resources, w') →
  inv (FLink (offering resources) "gr:hasPriceSpecification" (unitPrice resources)
       :: FLink (offering resources) "gr:includesObject" (typeAndQuantity resources)
       :: FLink productUri "veeakker:offerings" (offering resources) :: F)
      (ops ++ [price_op d (unitPrice resources); quantity_op d (typeAndQuantity resources)]) w' ∧
  (uuids w ≤ uuids w')%nat ∧ (uri_bound (offering resources) ≤ uuids w')%nat.
Proof.
  intros Hinv HP Hrun. unfold ensureProductOffers, ensureOfferingResources in Hrun.
  unfold ensureOffering, ensureOfferingTypeAndQuantity, ensureOfferingUnitPrice in Hrun.
  cbv zeta in Hrun.
  destruct (ensure_linked_inv F ops w productUri "veeakker:offerings"
              "http://veeakker.be/offerings/" "gr:Offering" Hinv)
    as (off & w1 & H1 & Hinv1 & Hle1 & Hb1); [decided|done|].
  destruct (ensure_linked_inv _ ops w1 off "gr:includesObject"
              "http://veeakker.be/type-and-quantities/" "gr:TypeAndQuantityNode" Hinv1)
    as (quantity & w2 & H2 & Hinv2 & Hle2 & Hb2); [decided|lia|].
  destruct (ensure_linked_inv _ ops w2 off "gr:hasPriceSpecification"
              "http://veeakker.be/price-specifications/" "gr:UnitPriceSpecification" Hinv2)
    as (price & w3 & H3 & Hinv3 & Hle3 & Hb3); [decided|lia|].
  rewrite <- bind_assoc_M, (bind_ok _ _ _ _ _ H1) in Hrun.
  rewrite <- bind_assoc_M, (bind_ok _ _ _ _ _ H2) in Hrun.
  rewrite <- bind_assoc_M, (bind_ok _ _ _ _ _ H3) in Hrun.
  rewrite ret_bind in Hrun. cbn [unitPrice typeAndQuantity] in Hrun.
  rewrite update_bind, lift_bind in Hrun. fold (measure d) in Hrun.
  destruct (convertLfwUnitToCEFACT (measure d)) as [u| |] eqn:Hu; [|done|done].
  pose proof (convert_unit_of _ _ Hu) as <-.
  rewrite update_bind in Hrun.
  rewrite <- !apply_replace_op in Hrun. cbn [store with_store] in Hrun.
  rewrite <- ?apply_replace_op in Hrun.
  fold (price_op d price) in Hrun. fold (quantity_op d quantity) in Hrun.
  injection Hrun as <- <-. cbn [offering unitPrice typeAndQuantity].
  split; [|split; simpl; lia].
  replace (ops ++ [price_op d price; quantity_op d quantity])%list
    with ((ops ++ [price_op d price]) ++ [quantity_op d quantity])%list
    by (by rewrite <- app_assoc).
  apply (inv_value _ _ (with_store (apply_op (price_op d price) (store w3)) w3));
    [apply inv_value; [done|]|].
  - apply price_op_ok. lia.
  - apply quantity_op_ok. simpl. lia.
Qed.

Definition job_op (productUri jobUri : uri) : op :=
  insert_op [ Triple productUri "prov:wasGeneratedBy" (OUri jobUri) ].

Definition base_op (d : product) (productUri : uri) : op :=
  replace_op productUri base_allowlist (base_triples d productUri).

Definition text_op (productUri : uri) (p : string) (text : option string) : op :=
  replace_op productUri [p]
    match truthy text with
    | Some text => [ Triple productUri p (OLit (LStr text)) ]
    | None => []
    end.

Definition ingredients_text (U : upstream) (d : product) : option string :=
  html_list <$>
    ((λ l, sanitize U <$> (ingredient_name <$> sort_by position l)) <$> ingredients d).

Definition allergens_text (U : upstream) (d : product) : option string :=
  html_list <$>
    ((λ l, sanitize U <$> (allergen_name <$> sort_by allergen_id l)) <$> allergens d).

Lemma job_op_ok productUri jobUri n :
  (uri_bound productUri ≤ n)%nat → (uri_bound jobUri ≤ n)%nat →
  op_ok n (job_op productUri jobUri).
Proof.
  intros HP Hj. apply insert_op_ok, Forall_singleton. split; [decided|].
  unfold triple_bound. simpl. lia.
Qed.

Lemma base_op_ok d productUri n : (uri_bound productUri ≤ n)%nat → op_ok n (base_op d productUri).
Proof.
  intros H. apply replace_op_ok; [listed_among|done|]. unfold base_triples.
  destruct (truthy (description d)), (bio d); simpl;
    repeat (apply Forall_cons; split; [split; [done|split; [decided|simpl; lia]]|]);
    by apply Forall_nil.
Qed.

Lemma text_op_ok productUri p text n :
  p ∈ value_predicates → (uri_bound productUri ≤ n)%nat → op_ok n (text_op productUri p text).
Proof.
  intros Hp H. apply replace_op_ok; [|done|].
  - intros q Hq. apply list_elem_of_singleton in Hq. by subst q.
  - destruct (truthy text); [|by apply Forall_nil].
    apply Forall_singleton. split; [done|]. split; [done|simpl; lia].
Qed.

Lemma insert_data_nil g : insert_data [] g = g.
Proof. unfold insert_data. simpl. by rewrite union_empty_r_L. Qed.

Lemma ensureProductIngredients_run U d productUri w :
  ensureProductIngredients U d productUri w
  = (Ok tt, with_store (apply_op (text_op productUri "food:ingredientListAsText"
                                    (ingredients_text U d)) (store w)) w).
Proof.
  unfold ensureProductIngredients. cbv zeta. rewrite update_with_store.
  unfold text_op. rewrite apply_replace_op. fold (ingredients_text U d).
  destruct (truthy (ingredients_text U d)); [done|]. by rewrite insert_data_nil.
Qed.

Lemma ensureProductAllergens_run U d productUri w :
  ensureProductAllergens U d productUri w
  = (Ok tt, with_store (apply_op (text_op productUri "veeakker:allergensAsText"
                                    (allergens_text U d)) (store w)) w).
Proof.
  unfold ensureProductAllergens. cbv zeta. rewrite update_with_store.
  unfold text_op. rewrite apply_replace_op. fold (allergens_text U d).
  destruct (truthy (allergens_text U d)); [done|]. by rewrite insert_data_nil.
Qed.

Lemma ensureBaseProductInfo_run d productUri w :
  ensureBaseProductInfo d productUri w
  = (Ok tt, with_store (apply_op (base_op d productUri) (store w)) w).
Proof.
  unfold ensureBaseProductInfo. rewrite update_with_store. unfold base_op.
  by rewrite apply_replace_op.
Qed.

Lemma ensureProductJobConnection_run productUri jobUri w :
  ensureProductJobConnection productUri jobUri w
  = (Ok tt, with_store (apply_op (job_op productUri jobUri) (store w)) w).
Proof.
  unfold ensureProductJobConnection. rewrite update_with_store. unfold job_op.
  by rewrite apply_insert_op.
Qed.

(** The updates of a product step, in the order they are sent. *)
Definition supplier_part (U : upstream) (d : product) (R : resolution) : list op :=
  match supplier d with
  | SupplierInfo info => supplier_ops U info (res_offering R) (res_supplier R)
  | SupplierName _ => []
  end.

Definition plan (U : upstream) (jobUri : uri) (d : product) (R : resolution) : list op :=
  if ignored (supplier d) then []
  else
    [ job_op (res_product R) jobUri;
      base_op d (res_product R);
      single_op d (res_single R);
      target_op d (res_target R);
      price_op d (res_price R);
      quantity_op d (res_quantity R);
      text_op (res_product R) "food:ingredientListAsText" (ingredients_text U d);
      text_op (res_product R) "veeakker:allergensAsText" (allergens_text U d) ]
    ++ supplier_part U d R.

(** What a later step for the same payload reads, and finds. *)
Definition supplier_fact (d : product) (R : resolution) : list fact :=
  match supplier d with
  | SupplierInfo info => [ FSupplier (supplier_name info) (res_supplier R) ]
  | SupplierName _ => []
  end.

Definition facts_of (d : product) (R : resolution) : list fact :=
  FProduct (pretty (id d)) (res_product R) (res_identifier R) ::
  if ignored (supplier d) then []
  else
    [ FLink (res_product R) "veeakker:singleUnitPrice" (res_single R);
      FLink (res_product R) "veeakker:targetUnit" (res_target R);
      FLink (res_product R) "veeakker:offerings" (res_offering R);
      FLink (res_offering R) "gr:includesObject" (res_quantity R);
      FLink (res_offering R) "gr:hasPriceSpecification" (res_price R);
      picture_fact d (res_product R) ]
    ++ supplier_fact d R.

(** A payload whose unit the converter knows. *)
Definition convertible (d : product) : Prop :=
  ignored (supplier d) = false → convertLfwUnitToCEFACT (measure d) = Ok (unit_of d).

(** *** A product step of a first run *)

Definition harvest_options (jobUri : uri) : load_options :=
  {| external := true; job := Some jobUri |}.

(** Every fact about a picture is the one of a payload that the facts
    resolve to the product. *)
Definition pictures_explained (U : upstream) (F : list fact) : Prop :=
  ∀ f P, f ∈ F → picture_subject f = Some P →
    ∃ d I, FProduct (pretty (id d)) P I ∈ F ∧
           ensureProductPage U (id d) = Some d ∧ f = picture_fact d P.

Lemma picture_fact_subject d P : picture_subject (picture_fact d P) = Some P.
Proof. unfold picture_fact. by destruct (truthy (image d)). Qed.

Lemma pictures_explained_step U F d R :
  ensureProductPage U (id d) = Some d →
  pictures_explained U F → pictures_explained U (facts_of d R ++ F).
Proof.
  intros Hd HF f P Hf Hs. apply elem_of_app in Hf as [Hf|Hf].
  - exists d, (res_identifier R). unfold facts_of in *.
    apply elem_of_cons in Hf as [->|Hf]; [done|].
    destruct (ignored (supplier d)); [by apply elem_of_nil in Hf|].
    apply elem_of_app in Hf as [Hf|Hf].
    + repeat (apply elem_of_cons in Hf as [->|Hf]; [try discriminate Hs|]);
        [|by apply elem_of_nil in Hf].
      rewrite picture_fact_subject in Hs. injection Hs as <-.
      split; [apply elem_of_app; left; left|done].
    + unfold supplier_fact in Hf. destruct (supplier d); [by apply elem_of_nil in Hf|].
      apply list_elem_of_singleton in Hf as ->. discriminate Hs.
  - destruct (HF f P Hf Hs) as (d0 & I & H1 & H2 & H3). exists d0, I.
    split; [apply elem_of_app; by right|done].
Qed.

(** With the facts in force, a fact about the picture of the product
    of [d] is the one [d] gives. *)
Lemma picture_fact_known U F ops w d P I :
  inv F ops w → pictures_explained U F →
  ensureProductPage U (id d) = Some d →
  FProduct (pretty (id d)) P I ∈ F →
  ∀ f, f ∈ F → picture_subject f = Some P → f = picture_fact d P.
Proof.
  intros Hinv HF Hd HP f Hf Hs.
  destruct (HF f P Hf Hs) as (d0 & I0 & H0 & Hd0 & ->).
  pose proof (inv_facts _ _ _ Hinv) as Hall. rewrite Forall_forall in Hall.
  destruct (Hall _ H0) as [bs0 E0]. destruct (Hall _ HP) as [bs E].
  assert (pretty (id d0) = pretty (id d)) as Hid.
  { apply (inv_notation _ _ _ Hinv _ _ P I0 I); [rewrite E0|rewrite E]; left. }
  apply (inj pretty) in Hid. rewrite Hid in Hd0. rewrite Hd0 in Hd. by injection Hd as ->.
Qed.

Lemma pictures_explained_more U F new :
  pictures_explained U F → Forall (λ f, picture_subject f = None) new →
  pictures_explained U (new ++ F).
Proof.
  intros HF Hnew f P Hf Hs. apply elem_of_app in Hf as [Hf|Hf].
  - rewrite Forall_forall in Hnew. rewrite (Hnew _ Hf) in Hs. discriminate Hs.
  - destruct (HF f P Hf Hs) as (d0 & I & H1 & H2 & H3). exists d0, I.
    split; [apply elem_of_app; by right|done].
Qed.

(** A product step that returns leaves the facts and the updates of its
    payload behind. *)
Lemma loadProduct_inv U jobUri p d F ops w w' :
  ensureProductPage U (id p) = Some d →
  ensureProductPage U (id d) = Some d →
  inv F ops w → pictures_explained U F → (uri_bound jobUri ≤ uuids w)%nat →
  loadProduct U p (harvest_options jobUri) w = (Ok tt, w') →
  ∃ R, inv (facts_of d R ++ F) (ops ++ plan U jobUri d R) w' ∧
       (uuids w ≤ uuids w')%nat ∧ convertible d.
Proof.
  intros Hp Hd Hinv HF Hj Hrun.
  unfold loadProduct, harvest_options in Hrun. cbn [external job] in Hrun.
  rewrite Hp in Hrun. unfold fetched in Hrun. rewrite ret_bind in Hrun.
  destruct (ensureProductMeta_inv F ops w d Hinv) as (P & I & w1 & Hmeta & Hinv1 & Hle1 & HP).
  rewrite (bind_ok _ _ _ _ _ Hmeta) in Hrun. cbv beta iota in Hrun.
  destruct (ignored (supplier d)) eqn:Hig.
  { injection Hrun as <-.
    exists {| res_product := P; res_identifier := I; res_single := P; res_target := P;
              res_offering := P; res_quantity := P; res_price := P; res_supplier := None |}.
    unfold facts_of, plan, convertible. rewrite Hig, app_nil_r. cbn [res_product res_identifier].
    split; [done|]. split; [done|]. done. }
  rewrite (bind_ok _ _ _ _ _ (ensureProductJobConnection_run P jobUri w1)) in Hrun.
  assert (uri_bound jobUri ≤ uuids w1)%nat as Hj1 by lia.
  pose proof (inv_value _ _ _ _ Hinv1 (job_op_ok P jobUri _ HP Hj1)) as Hinv2.
  set (w2 := with_store _ w1) in Hrun, Hinv2.
  rewrite (bind_ok _ _ _ _ _ (ensureBaseProductInfo_run d P w2)) in Hrun.
  pose proof (inv_value _ _ _ _ Hinv2 (base_op_ok d P _ HP)) as Hinv3.
  set (w3 := with_store _ w2) in Hrun, Hinv3.
  apply bind_ok_inv in Hrun as ([] & w4 & Hpricing & Hrun).
  destruct (ensureProductDefaultPricing_inv _ _ _ _ _ _ Hinv3 HP Hpricing)
    as (single & target & Hinv4 & Hle4 & Hu).
  change (uuids w3) with (uuids w1) in Hle4.
  apply bind_ok_inv in Hrun as (resources & w5 & Hoffers & Hrun).
  destruct (ensureProductOffers_inv _ _ _ d P resources w5 Hinv4) as (Hinv5 & Hle5 & Hoff);
    [lia|done|].
  rewrite (bind_ok _ _ _ _ _ (ensureProductIngredients_run U d P w5)) in Hrun.
  assert (uri_bound P ≤ uuids w5)%nat as HP5 by lia.
  pose proof (inv_value _ _ _ _ Hinv5
    (text_op_ok P "food:ingredientListAsText" (ingredients_text U d) _
       ltac:(decided) HP5)) as Hinv6.
  set (w6 := with_store _ w5) in Hrun, Hinv6.
  rewrite (bind_ok _ _ _ _ _ (ensureProductAllergens_run U d P w6)) in Hrun.
  pose proof (inv_value _ _ _ _ Hinv6
    (text_op_ok P "veeakker:allergensAsText" (allergens_text U d) _
       ltac:(decided) HP5)) as Hinv7.
  set (w7 := with_store _ w6) in Hrun, Hinv7.
  apply bind_ok_inv in Hrun as ([] & w8 & Hpic & Hrun).
  match type of Hinv7 with inv ?F7 _ _ =>
    assert (pictures_explained U F7) as HF7 end.
  { apply (pictures_explained_more U F [_; _; _; _; _; _]); [done|].
    repeat (apply Forall_cons; split; [done|]). by apply Forall_nil. }
  destruct (ensureProductPicture_inv U _ _ _ d P w8 Hinv7) as [Hinv8 Hle8]; [|..|exact Hpic|].
  { change (uuids w7) with (uuids w5). lia. }
  { apply (picture_fact_known U _ _ _ d P I Hinv7 HF7 Hd). do 5 right. left. }
  change (uuids w7) with (uuids w5) in Hle8.
  set (R := λ s, {| res_product := P; res_identifier := I; res_single := single;
                    res_target := target; res_offering := offering resources;
                    res_quantity := typeAndQuantity resources;
                    res_price := unitPrice resources; res_supplier := s |}).
  destruct (supplier d) as [name|info] eqn:Hsup.
  - injection Hrun as <-. exists (R None). split; [|split; [lia|by intros _]].
    unfold plan, facts_of, supplier_part, supplier_fact. rewrite !Hsup, !Hig.
    cbn [R res_product res_identifier res_single res_target res_offering res_quantity
         res_price res_supplier].
    repeat rewrite <- app_assoc in Hinv8. cbn [app] in Hinv8 |- *.
    eapply inv_incl; [exact Hinv8|]. intros f Hf.
    rewrite !elem_of_cons in Hf |- *. tauto.
  - destruct (loadProductSupplier_inv U _ _ _ (offering resources) info Hinv8)
      as (w9 & Hsupplier & Hinv9 & Hu9); [lia|].
    rewrite Hsupplier in Hrun. injection Hrun as <-.
    exists (R (head (subjects_of "gr:name" (OLit (LStr (supplier_name info))) (store w8)))).
    split; [|split; [lia|by intros _]].
    unfold plan, facts_of, supplier_part, supplier_fact. rewrite !Hsup, !Hig.
    cbn [R res_product res_identifier res_single res_target res_offering res_quantity
         res_price res_supplier].
    repeat rewrite <- app_assoc in Hinv9. cbn [app] in Hinv9 |- *.
    eapply inv_incl; [exact Hinv9|]. intros f Hf.
    rewrite !elem_of_cons in Hf |- *. tauto.
Qed.

(** *** A product step of a second run *)

(** Nothing but the store (and the count of requests) has changed. *)
Definition quiet (w w' : world) : Prop :=
  uuids w' = uuids w ∧ clock w' = clock w ∧ downloads w' = downloads w.

Lemma quiet_refl w : quiet w w.
Proof. done. Qed.

Lemma quiet_trans w1 w2 w3 : quiet w1 w2 → quiet w2 w3 → quiet w1 w3.
Proof. intros (? & ? & ?) (? & ? & ?). repeat split; congruence. Qed.

Lemma apply_op_agree n o g : op_ok n o → agree_on read_predicates g (apply_op o g).
Proof.
  intros Ho t Ht. rewrite elem_of_apply_op.
  destruct (verdict_op o t) eqn:E; [|done].
  destruct (proj1 Ho t) as [Hp _]; [by rewrite E|]. by apply value_not_read in Hp.
Qed.

Lemma apply_ops_agree n os g :
  Forall (op_ok n) os → agree_on read_predicates g (apply_ops os g).
Proof.
  intros Hos. revert g. induction Hos as [|o os Ho _ IH]; intros g; [apply agree_on_refl|].
  unfold apply_ops. simpl. eapply agree_on_trans; [by eapply apply_op_agree|apply IH].
Qed.

Lemma holds_apply_op n o f g : op_ok n o → holds f g → holds f (apply_op o g).
Proof. intros Ho. apply holds_agree. by eapply apply_op_agree. Qed.

Lemma ensure_linked_again owner rel pre cls x w :
  holds (FLink owner rel x) (store w) → ensure_linked owner rel pre cls w = (Ok x, w).
Proof. intros (_ & b & bs & E & <-). by eapply ensure_linked_found. Qed.

Lemma ensureProductMeta_again d P I w :
  holds (FProduct (pretty (id d)) P I) (store w) → ensureProductMeta d w = (Ok (P, I), w).
Proof. intros [bs E]. by eapply ensureProductMeta_found. Qed.

Lemma ensureProductDefaultPricing_again d productUri single target w :
  holds (FLink productUri "veeakker:singleUnitPrice" single) (store w) →
  holds (FLink productUri "veeakker:targetUnit" target) (store w) →
  convertLfwUnitToCEFACT (measure d) = Ok (unit_of d) →
  ensureProductDefaultPricing d productUri w
  = (Ok tt, with_store (apply_op (target_op d target) (apply_op (single_op d single) (store w)))
              (with_store (apply_op (single_op d single) (store w)) w)).
Proof.
  intros H1 H2 Hu. unfold ensureProductDefaultPricing. cbv zeta.
  unfold ensureSingleUnitPriceResource, ensureTargetUnitResource.
  rewrite (bind_ok _ _ _ _ _ (ensure_linked_again _ _ _ _ _ _ H1)).
  rewrite (bind_ok _ _ _ _ _ (ensure_linked_again _ _ _ _ _ _ H2)).
  rewrite lift_bind. fold (measure d). rewrite Hu.
  rewrite update_bind, lift_bind.
  rewrite update_with_store. rewrite <- !apply_replace_op. cbn [store with_store].
  by rewrite <- ?apply_replace_op.
Qed.

Lemma ensureProductOffers_again d productUri off quantity price w :
  holds (FLink productUri "veeakker:offerings" off) (store w) →
  holds (FLink off "gr:includesObject" quantity) (store w) →
  holds (FLink off "gr:hasPriceSpecification" price) (store w) →
  convertLfwUnitToCEFACT (measure d) = Ok (unit_of d) →
  ensureProductOffers d productUri w
  = (Ok {| offering := off; typeAndQuantity := quantity; unitPrice := price |},
     with_store (apply_op (quantity_op d quantity) (apply_op (price_op d price) (store w)))
       (with_store (apply_op (price_op d price) (store w)) w)).
Proof.
  intros H1 H2 H3 Hu. unfold ensureProductOffers, ensureOfferingResources.
  unfold ensureOffering, ensureOfferingTypeAndQuantity, ensureOfferingUnitPrice. cbv zeta.
  rewrite <- bind_assoc_M, (bind_ok _ _ _ _ _ (ensure_linked_again _ _ _ _ _ _ H1)).
  rewrite <- bind_assoc_M, (bind_ok _ _ _ _ _ (ensure_linked_again _ _ _ _ _ _ H2)).
  rewrite <- bind_assoc_M, (bind_ok _ _ _ _ _ (ensure_linked_again _ _ _ _ _ _ H3)).
  rewrite ret_bind. cbn [unitPrice typeAndQuantity].
  rewrite update_bind, lift_bind. fold (measure d). rewrite Hu.
  rewrite update_bind. rewrite <- !apply_replace_op. cbn [store with_store].
  by rewrite <- ?apply_replace_op.
Qed.

(** Without a thumbnail there is nothing to remove. *)
Lemma remove_old_picture_none productUri g :
  objects_of productUri "veeakker:thumbnail" g = [] → remove_old_picture productUri g = g.
Proof.
  intros Hnone. apply set_eq. intros t. rewrite elem_of_remove_old_picture.
  assert (∀ o, Triple productUri "veeakker:thumbnail" o ∉ g) as H.
  { intros o Ho. apply elem_of_objects_of in Ho. rewrite Hnone in Ho.
    by apply elem_of_nil in Ho. }
  split; [tauto|]. intros Ht. split; [done|]. split.
  - intros [_ (th & Hth & _)]. by destruct (H th).
  - intros [Hs Hp]. destruct t as [s p o]. simpl in *. subst. by destruct (H o).
Qed.

Lemma ensureProductPicture_again U d productUri w :
  holds (picture_fact d productUri) (store w) →
  ∃ w', ensureProductPicture U d productUri w = (Ok tt, w') ∧
        store w' = store w ∧ quiet w w'.
Proof.
  unfold picture_fact. destruct (truthy (image d)) as [url|] eqn:Hurl; cbn [holds]; intros H.
  - exists w. split; [by eapply ensureProductPicture_same|done].
  - exists (with_store (remove_old_picture productUri (store w)) w).
    split; [|split; [by apply remove_old_picture_none|done]].
    unfold ensureProductPicture. rewrite Hurl, !bind_unfold. reflexivity.
Qed.

Lemma loadProductSupplier_again U offeringUri info supplierUri w :
  holds (FSupplier (supplier_name info) supplierUri) (store w) →
  ∃ w', loadProductSupplier U offeringUri info w = (Ok tt, w') ∧
        store w' = apply_ops (supplier_ops U info offeringUri supplierUri) (store w) ∧
        quiet w w'.
Proof.
  cbn [holds]. intros H. unfold loadProductSupplier. rewrite bind_unfold. simpl. rewrite H.
  unfold supplier_ops. destruct supplierUri as [s|]; [|by exists w].
  case_bool_decide; [by exists w|].
  eexists. split; [reflexivity|]. split; [|done]. unfold apply_ops. simpl.
  by rewrite apply_replace_op.
Qed.

(** With the facts of its payload in force, a product step resolves
    what they say, mints nothing, downloads nothing and sends the
    updates of its plan. *)
Lemma loadProduct_again U jobUri p d R n w :
  ensureProductPage U (id p) = Some d →
  convertible d →
  Forall (λ f, holds f (store w)) (facts_of d R) →
  Forall (op_ok n) (plan U jobUri d R) →
  ∃ w', loadProduct U p (harvest_options jobUri) w = (Ok tt, w') ∧
        store w' = apply_ops (plan U jobUri d R) (store w) ∧
        quiet w w'.
Proof.
  intros Hp Hu Hfacts Hops.
  unfold loadProduct, harvest_options. cbn [external job].
  rewrite Hp. unfold fetched. rewrite ret_bind.
  unfold facts_of in Hfacts. apply Forall_cons in Hfacts as [HP Hfacts].
  rewrite (bind_ok _ _ _ _ _ (ensureProductMeta_again _ _ _ _ HP)). cbv beta iota.
  unfold plan, convertible in *.
  destruct (ignored (supplier d)) eqn:Hig; [by exists w|].
  specialize (Hu eq_refl).
  cbn [app] in Hfacts, Hops.
  apply Forall_cons in Hfacts as [Hsingle Hfacts].
  apply Forall_cons in Hfacts as [Htarget Hfacts].
  apply Forall_cons in Hfacts as [Hoff Hfacts].
  apply Forall_cons in Hfacts as [Hquantity Hfacts].
  apply Forall_cons in Hfacts as [Hprice Hfacts].
  apply Forall_cons in Hfacts as [Hpicture Hfacts].
  apply Forall_cons in Hops as [Ho1 Hops].
  apply Forall_cons in Hops as [Ho2 Hops].
  apply Forall_cons in Hops as [Ho3 Hops].
  apply Forall_cons in Hops as [Ho4 Hops].
  apply Forall_cons in Hops as [Ho5 Hops].
  apply Forall_cons in Hops as [Ho6 Hops].
  apply Forall_cons in Hops as [Ho7 Hops].
  apply Forall_cons in Hops as [Ho8 Hops].
  set (P := res_product R) in *.
  rewrite (bind_ok _ _ _ _ _ (ensureProductJobConnection_run P jobUri w)).
  set (g1 := apply_op (job_op P jobUri) (store w)).
  rewrite (bind_ok _ _ _ _ _ (ensureBaseProductInfo_run d P _)). cbn [store with_store].
  set (g2 := apply_op (base_op d P) g1).
  assert (∀ f, holds f (store w) → holds f g2) as H2.
  { intros f Hf. do 2 (eapply holds_apply_op; [eassumption|]). done. }
  rewrite (bind_ok _ _ _ _ _
             (ensureProductDefaultPricing_again d P (res_single R) (res_target R)
                (with_store g2 (with_store g1 w)) (H2 _ Hsingle) (H2 _ Htarget) Hu)).
  cbn [store with_store].
  set (g3 := apply_op (single_op d (res_single R)) g2).
  set (g4 := apply_op (target_op d (res_target R)) g3).
  assert (∀ f, holds f (store w) → holds f g4) as H4.
  { intros f Hf. do 2 (eapply holds_apply_op; [eassumption|]). by apply H2. }
  match goal with |- ∃ w', (_ ≫= _) ?w4 = _ ∧ _ =>
    rewrite (bind_ok _ _ _ _ _
               (ensureProductOffers_again d P (res_offering R) (res_quantity R) (res_price R)
                  w4 (H4 _ Hoff) (H4 _ Hquantity) (H4 _ Hprice) Hu)) end.
  cbn [store with_store].
  set (g5 := apply_op (price_op d (res_price R)) g4).
  set (g6 := apply_op (quantity_op d (res_quantity R)) g5).
  rewrite (bind_ok _ _ _ _ _ (ensureProductIngredients_run U d P _)). cbn [store with_store].
  set (g7 := apply_op (text_op P "food:ingredientListAsText" (ingredients_text U d)) g6).
  rewrite (bind_ok _ _ _ _ _ (ensureProductAllergens_run U d P _)). cbn [store with_store].
  set (g8 := apply_op (text_op P "veeakker:allergensAsText" (allergens_text U d)) g7).
  assert (∀ f, holds f (store w) → holds f g8) as H8.
  { intros f Hf. do 4 (eapply holds_apply_op; [eassumption|]). by apply H4. }
  match goal with |- ∃ w', (_ ≫= _) ?w8 = _ ∧ _ =>
    destruct (ensureProductPicture_again U d P w8 (H8 _ Hpicture))
      as (w9 & Hpic & Hstore9 & Hquiet9) end.
  rewrite (bind_ok _ _ _ _ _ Hpic). cbn [store with_store offering] in *.
  unfold supplier_part, supplier_fact in *.
  destruct (supplier d) as [name|info] eqn:Hsup.
  - exists w9. split; [done|]. split; [by rewrite Hstore9, app_nil_r|].
    eapply quiet_trans; [|exact Hquiet9]. done.
  - apply Forall_cons in Hfacts as [Hsupplier _].
    destruct (loadProductSupplier_again U (res_offering R) info (res_supplier R) w9)
      as (w10 & Hrun & Hstore10 & Hquiet10).
    { rewrite Hstore9. by apply H8. }
    exists w10. split; [done|]. split.
    + rewrite Hstore10, Hstore9. unfold apply_ops. by rewrite foldl_app.
    + eapply quiet_trans; [|exact Hquiet10]. eapply quiet_trans; [|exact Hquiet9]. done.
Qed.

(** *** The product phase *)

(** The payload a listed product is loaded with, and what the step
    resolved. *)
Definition resolved (U : upstream) (p : product) (r : product * resolution) : Prop :=
  ensureProductPage U (id p) = Some r.1 ∧
  ensureProductPage U (id r.1) = Some r.1 ∧
  convertible r.1.

Definition all_facts (rs : list (product * resolution)) : list fact :=
  rs ≫= λ r, facts_of r.1 r.2.

Definition all_ops (U : upstream) (jobUri : uri) (rs : list (product * resolution)) : list op :=
  rs ≫= λ r, plan U jobUri r.1 r.2.

Lemma pictures_explained_equiv U F F' :
  (∀ f, f ∈ F' ↔ f ∈ F) → pictures_explained U F → pictures_explained U F'.
Proof.
  intros H HF f P Hf Hs. apply H in Hf. destruct (HF f P Hf Hs) as (d & I & H1 & H2 & H3).
  exists d, I. split; [by apply H|done].
Qed.

(** Details are kept under the id they are asked for. *)
Definition details_by_id (U : upstream) : Prop :=
  ∀ k d, ensureProductPage U k = Some d → id d = k.

Lemma products_inv U jobUri ps F ops w w' :
  details_by_id U →
  inv F ops w → pictures_explained U F → (uri_bound jobUri ≤ uuids w)%nat →
  for_each (λ p, loadProduct U p (harvest_options jobUri)) ps w = (Ok tt, w') →
  ∃ rs, Forall2 (resolved U) ps rs ∧
        inv (all_facts rs ++ F) (ops ++ all_ops U jobUri rs) w' ∧
        (uuids w ≤ uuids w')%nat.
Proof.
  intros HU. revert F ops w. induction ps as [|p ps IH]; intros F ops w Hinv HF Hj Hrun.
  - injection Hrun as <-. exists []. split; [constructor|]. unfold all_facts, all_ops.
    simpl. by rewrite app_nil_r.
  - simpl in Hrun. apply bind_ok_inv in Hrun as ([] & w1 & Hstep & Hrun).
    assert (∃ d, ensureProductPage U (id p) = Some d) as [d Hd].
    { unfold loadProduct, harvest_options in Hstep. cbn [external job] in Hstep.
      destruct (ensureProductPage U (id p)) as [d|]; [by exists d|].
      by rewrite bind_unfold in Hstep. }
    assert (ensureProductPage U (id d) = Some d) as Hd' by (by rewrite (HU _ _ Hd)).
    destruct (loadProduct_inv U jobUri p d F ops w w1 Hd Hd' Hinv HF Hj Hstep)
      as (R & Hinv1 & Hle1 & Hconv).
    destruct (IH (facts_of d R ++ F)%list (ops ++ plan U jobUri d R)%list w1 Hinv1)
      as (rs & Hrs & Hinv2 & Hle2); [by apply pictures_explained_step|lia|done|].
    exists ((d, R) :: rs). split; [by constructor|]. split; [|lia].
    unfold all_facts, all_ops in *. cbn [mbind list_bind fst snd].
    rewrite <- (app_assoc ops) in Hinv2.
    eapply inv_incl; [exact Hinv2|]. intros f. rewrite !elem_of_app. tauto.
Qed.

Lemma products_again U jobUri ps rs n w :
  Forall2 (resolved U) ps rs →
  Forall (λ f, holds f (store w)) (all_facts rs) →
  Forall (op_ok n) (all_ops U jobUri rs) →
  ∃ w', for_each (λ p, loadProduct U p (harvest_options jobUri)) ps w = (Ok tt, w') ∧
        store w' = apply_ops (all_ops U jobUri rs) (store w) ∧
        quiet w w'.
Proof.
  intros Hrs. revert w. induction Hrs as [|p [d R] ps rs (Hd & _ & Hconv) _ IH];
    intros w Hfacts Hops.
  - by exists w.
  - unfold all_facts, all_ops in *. cbn [mbind list_bind fst snd] in *.
    apply Forall_app in Hfacts as [Hfacts1 Hfacts2].
    apply Forall_app in Hops as [Hops1 Hops2].
    destruct (loadProduct_again U jobUri p d R n w Hd Hconv Hfacts1 Hops1)
      as (w1 & Hstep & Hstore1 & Hquiet1).
    destruct (IH w1) as (w2 & Hrest & Hstore2 & Hquiet2); [|done|].
    { eapply Forall_impl; [exact Hfacts2|]. intros f. apply holds_agree.
      rewrite Hstore1. by eapply apply_ops_agree. }
    exists w2. split; [|split].
    + simpl. by rewrite (bind_ok _ _ _ _ _ Hstep).
    + rewrite Hstore2, Hstore1. unfold apply_ops. by rewrite foldl_app.
    + by eapply quiet_trans.
Qed.

(** *** The pages of a harvest *)

(** The products listed by the pages from [counter] on, up to the last
    page. *)
Fixpoint catalog (U : upstream) (fuel counter : nat) : option (list product) :=
  match fuel with
  | O => None
  | S fuel' =>
      match ensurePage U counter with
      | None => None
      | Some page =>
          if last page then Some (content page)
          else (content page ++.) <$> catalog U fuel' (S counter)
      end
  end.

Lemma for_each_app {A} (f : A → M unit) xs ys w :
  for_each f (xs ++ ys) w = (for_each f xs ≫= λ _, for_each f ys) w.
Proof.
  revert w. induction xs as [|x xs IH]; intros w; simpl.
  - by rewrite ret_bind.
  - rewrite <- bind_assoc_M. rewrite !bind_unfold.
    destruct (f x w) as [[[]|e|] w1]; [|done|done]. apply IH.
Qed.

Lemma loadPagesFrom_catalog U fuel jobUri counter ps w :
  catalog U fuel counter = Some ps →
  loadPagesFrom U fuel jobUri counter w
  = for_each (λ p, loadProduct U p (harvest_options jobUri)) ps w.
Proof.
  revert counter ps w. induction fuel as [|fuel IH]; intros counter ps w; simpl; [done|].
  destruct (ensurePage U counter) as [page|]; [|done]. unfold fetched. rewrite ret_bind.
  destruct (last page) eqn:Hlast.
  - intros [= <-]. rewrite bind_unfold.
    change (λ product, loadProduct U product {| external := true; job := Some jobUri |})
      with (λ p, loadProduct U p (harvest_options jobUri)).
    by destruct (for_each _ (content page) w) as [[[]|e|] w1].
  - destruct (catalog U fuel (S counter)) as [rest|] eqn:Hrest; [|done].
    intros [= <-]. rewrite for_each_app.
    change (λ product, loadProduct U product {| external := true; job := Some jobUri |})
      with (λ p, loadProduct U p (harvest_options jobUri)).
    rewrite !bind_unfold.
    destruct (for_each _ (content page) w) as [[[]|e|] w1]; [|done|done].
    by apply IH.
Qed.

Lemma loadPagesFrom_ok U fuel jobUri counter w w' :
  loadPagesFrom U fuel jobUri counter w = (Ok tt, w') →
  ∃ ps, catalog U fuel counter = Some ps.
Proof.
  revert counter w. induction fuel as [|fuel IH]; intros counter w; simpl; [done|].
  destruct (ensurePage U counter) as [page|]; [|by rewrite bind_unfold].
  unfold fetched. rewrite ret_bind. intros Hrun.
  apply bind_ok_inv in Hrun as ([] & w1 & _ & Hrun).
  destruct (last page); [by eexists|].
  destruct (IH _ _ Hrun) as [rest ->]. by eexists.
Qed.

(** *** The supplier phase *)

(** A store that has grown by triples about subjects new to it, none of
    them a product, has the products it had. *)
Lemma product_bindings_grown n g g' :
  set_Forall (λ t, (triple_bound t ≤ n)%nat) g →
  (∀ t, pred t ∈ identity_predicates → t ∈ g → t ∈ g') →
  (∀ t, pred t ∈ identity_predicates → t ∈ g' → t ∈ g ∨ (n < uri_bound (subj t))%nat) →
  (∀ s i, Triple s "adms:identifier" i ∈ g' → Triple s "adms:identifier" i ∉ g →
          Triple s rdf_type (class "schema:Product") ∉ g') →
  ∀ m p i, (p, i) ∈ product_bindings m g' ↔ (p, i) ∈ product_bindings m g.
Proof.
  intros Hn Hkeep Hnew Hprod m p i. rewrite !elem_of_product_bindings. split.
  - intros (H1 & H2 & H3 & H4 & H5).
    destruct (decide (Triple p "adms:identifier" (OUri i) ∈ g)) as [H4'|H4'];
      [|by destruct (Hprod _ _ H4 H4')].
    pose proof (Hn _ H4') as Hb. unfold triple_bound in Hb. simpl in Hb.
    assert (∀ q o, Triple p q o ∈ g' → q ∈ identity_predicates → Triple p q o ∈ g) as Hp.
    { intros q o Hin Hq. destruct (Hnew (Triple p q o) Hq Hin) as [?|Hf]; [done|].
      simpl in Hf. lia. }
    assert (∀ q o, Triple i q o ∈ g' → q ∈ identity_predicates → Triple i q o ∈ g) as Hi.
    { intros q o Hin Hq. destruct (Hnew (Triple i q o) Hq Hin) as [?|Hf]; [done|].
      simpl in Hf. lia. }
    split; [apply Hi; [done|decided]|]. split; [apply Hi; [done|decided]|].
    split; [apply Hi; [done|decided]|]. split; [done|]. apply Hp; [done|decided].
  - intros (H1 & H2 & H3 & H4 & H5).
    split; [apply Hkeep; [cbn [pred]; decided|done]|].
    split; [apply Hkeep; [cbn [pred]; decided|done]|].
    split; [apply Hkeep; [cbn [pred]; decided|done]|].
    split; apply Hkeep; (done || (cbn [pred]; decided)).
Qed.

Definition supplier_triples (notation : string) (n : nat) : list triple :=
  let supplierUri := Gen "http://veeakker.be/suppliers/" n "" in
  let identifierUri := Gen "http://data.redpencil.io/identifiers/" (S n) "" in
  [ Triple supplierUri rdf_type (class "gr:BusinessEntity");
    Triple supplierUri "mu:uuid" (OLit (LUuid n));
    Triple supplierUri "adms:identifier" (OUri identifierUri);
    Triple identifierUri rdf_type (class "adms:Identifier");
    Triple identifierUri "mu:uuid" (OLit (LUuid (S n)));
    Triple identifierUri "skos:notation" (OLit (LStr notation));
    Triple identifierUri "dct:creator" lfw;
    Triple identifierUri "dct:title" (OLit (LStr ("LFW Supplier ID " ++ notation))) ].

(** The world after the create branch of [ensure_supplier]. *)
Definition supplier_created (notation : string) (w : world) : world :=
  {| store := insert_data (supplier_triples notation (uuids w)) (store w);
     uuids := S (S (uuids w)); clock := clock w; downloads := downloads w;
     updates := S (updates w) |}.

Lemma ensure_supplier_known s w :
  supplier_bindings (pretty (summary_id s)) (store w) ≠ [] → ensure_supplier s w = (Ok tt, w).
Proof.
  intros H. unfold ensure_supplier. rewrite bind_unfold. simpl.
  by rewrite bool_decide_eq_true_2.
Qed.

Lemma ensure_supplier_created s w :
  supplier_bindings (pretty (summary_id s)) (store w) = [] →
  ensure_supplier s w = (Ok tt, supplier_created (pretty (summary_id s)) w).
Proof.
  intros H. unfold ensure_supplier. rewrite bind_unfold. simpl.
  rewrite bool_decide_eq_false_2 by (by intros []). reflexivity.
Qed.

Lemma supplier_triples_spec notation n t :
  t ∈ supplier_triples notation n →
  (pred t ∈ meta_predicates) ∧
  (triple_bound t ≤ S (S n))%nat ∧
  (n < uri_bound (subj t))%nat ∧
  t ≠ Triple (subj t) rdf_type (class "schema:Product").
Proof.
  unfold supplier_triples. cbv zeta. intros H.
  repeat (apply elem_of_cons in H as [->|H];
          [split; [cbn [pred]; decided|]; split; [unfold triple_bound; simpl; lia|];
           split; [simpl; lia|done]|]).
  by apply elem_of_nil in H.
Qed.

Definition about_suppliers (f : fact) : Prop :=
  match f with FKnown _ => True | _ => False end.

Lemma known_more notation g g' :
  (∀ s, s ∈ supplier_bindings notation g → s ∈ supplier_bindings notation g') →
  supplier_bindings notation g ≠ [] → supplier_bindings notation g' ≠ [].
Proof.
  intros H Hg Hg'. destruct (supplier_bindings notation g) as [|s l] eqn:E; [done|].
  assert (s ∈ supplier_bindings notation g') as Hs by (apply H; left).
  rewrite Hg' in Hs. by apply elem_of_nil in Hs.
Qed.

Lemma inv_supplier_created F w notation :
  inv F [] w → Forall about_suppliers F →
  inv (FKnown notation :: F) [] (supplier_created notation w).
Proof.
  intros [Hn Hid Hth _ _ Hf] HF.
  set (g' := store (supplier_created notation w)).
  assert (∀ t, t ∈ g' ↔ t ∈ store w ∨ t ∈ supplier_triples notation (uuids w)) as Hin.
  { intros t. apply elem_of_insert_data. }
  assert (∀ m p i, (p, i) ∈ product_bindings m g' ↔ (p, i) ∈ product_bindings m (store w))
    as Hpb.
  { apply (product_bindings_grown (uuids w)); [exact Hn|..].
    - intros t _ Ht. apply Hin. by left.
    - intros t _. rewrite Hin. intros [?|H]; [by left|right].
      by apply supplier_triples_spec in H as (_ & _ & ? & _).
    - intros s i Hnew Hold. apply Hin in Hnew as [?|Hnew]; [done|].
      apply supplier_triples_spec in Hnew as (_ & _ & Hb & _). simpl in Hb.
      rewrite Hin. intros [H|H].
      + specialize (Hn _ H). unfold triple_bound in Hn. simpl in Hn. lia.
      + by apply supplier_triples_spec in H as (_ & _ & _ & ?). }
  split.
  - intros t. fold g'. rewrite Hin. unfold supplier_created. cbn [uuids]. intros [H|H].
    + specialize (Hn _ H). simpl in Hn. lia.
    + by apply supplier_triples_spec in H as (_ & ? & _).
  - intros n n' p i i'. fold g'. rewrite !Hpb. apply Hid.
  - eapply thumbnails_plain_same; [|exact Hth]. intros t Ht. fold g'. rewrite Hin.
    split; [|tauto]. intros [?|H]; [done|].
    apply supplier_triples_spec in H as (H & _). exfalso. revert Ht.
    unfold meta_predicates in H.
    repeat (apply elem_of_cons in H as [->|H]; [decided|]). by apply elem_of_nil in H.
  - by apply Forall_nil.
  - apply consistent_nil.
  - apply Forall_cons. split.
    + cbn [holds]. fold g'.
      assert (Gen "http://veeakker.be/suppliers/" (uuids w) "" ∈ supplier_bindings notation g')
        as Hs.
      { apply elem_of_supplier_bindings.
        exists (Gen "http://data.redpencil.io/identifiers/" (S (uuids w)) "").
        repeat split; apply Hin; right; unfold supplier_triples; cbv zeta.
        - do 5 right. left.
        - do 6 right. left.
        - do 2 right. left.
        - left. }
      intros E. rewrite E in Hs. by apply elem_of_nil in Hs.
    + rewrite Forall_forall in Hf, HF |- *. intros f Hin'. specialize (Hf f Hin').
      specialize (HF f Hin'). destruct f; try done. cbn [holds] in *. fold g'.
      revert Hf. apply known_more. intros s. rewrite !elem_of_supplier_bindings.
      intros (i & H1 & H2 & H3 & H4). exists i. rewrite !Hin. tauto.
Qed.

Lemma suppliers_inv F w suppliers :
  inv F [] w → Forall about_suppliers F →
  ∃ F' w', for_each ensure_supplier suppliers w = (Ok tt, w') ∧
           inv F' [] w' ∧ Forall about_suppliers F' ∧
           (∀ s, s ∈ suppliers → FKnown (pretty (summary_id s)) ∈ F') ∧
           (∀ f, f ∈ F → f ∈ F') ∧
           (uuids w ≤ uuids w')%nat.
Proof.
  revert F w. induction suppliers as [|s suppliers IH]; intros F w Hinv HF.
  - exists F, w. split; [done|]. split; [done|]. split; [done|]. split; [|done].
    intros s Hs. by apply elem_of_nil in Hs.
  - assert (∃ w1, ensure_supplier s w = (Ok tt, w1) ∧
                  inv (FKnown (pretty (summary_id s)) :: F) [] w1 ∧
                  (uuids w ≤ uuids w1)%nat) as (w1 & Hstep & Hinv1 & Hle1).
    { destruct (supplier_bindings (pretty (summary_id s)) (store w)) as [|x l] eqn:E.
      - eexists. split; [by apply ensure_supplier_created|].
        split; [by apply inv_supplier_created|simpl; lia].
      - exists w. split; [apply ensure_supplier_known; by rewrite E|].
        split; [|done]. apply inv_fact; [done|]. cbn [holds]. by rewrite E. }
    destruct (IH _ w1 Hinv1) as (F' & w' & Hrest & Hinv' & HF' & Hknown & Hincl & Hle');
      [by apply Forall_cons|].
    exists F', w'. split; [simpl; by rewrite (bind_ok _ _ _ _ _ Hstep)|].
    split; [done|]. split; [done|]. split; [|split; [|lia]].
    + intros x Hx. apply elem_of_cons in Hx as [->|Hx]; [apply Hincl; left|by apply Hknown].
    + intros f Hf. apply Hincl. by right.
Qed.

(** The bulk update of names keeps the invariant, and a second one
    changes nothing from then on. *)
Lemma inv_renamed F w suppliers :
  inv F [] w → Forall about_suppliers F →
  inv (FNames suppliers :: F) [] (with_store (rename_suppliers suppliers (store w)) w).
Proof.
  intros [Hn Hid Hth _ _ Hf] HF.
  set (g' := rename_suppliers suppliers (store w)).
  assert (∀ ps, "gr:name" ∉ ps → agree_on ps (store w) g') as Hagree.
  { intros ps Hps t Ht. apply rename_suppliers_names. intros E. by rewrite E in Ht. }
  split; unfold with_store; cbn [store uuids]; fold g'.
  - intros t. cbn [store uuids]. unfold g'. rewrite elem_of_rename_suppliers.
    intros [[Ht _]|(s & n & (x & _ & _ & Hs) & ->)]; [by apply Hn|].
    apply elem_of_supplier_bindings in Hs as (i & _ & _ & Hs & _).
    specialize (Hn _ Hs). unfold triple_bound in *. simpl in *. lia.
  - intros n n' p i i'. rewrite !(product_bindings_agree (store w) g'); [apply Hid|..];
      apply Hagree; decided.
  - eapply thumbnails_plain_same; [|exact Hth]. apply Hagree. decided.
  - by apply Forall_nil.
  - apply consistent_nil.
  - apply Forall_cons. split; [apply rename_suppliers_twice|].
    rewrite Forall_forall in Hf, HF |- *. intros f Hin'. specialize (Hf f Hin').
    specialize (HF f Hin'). destruct f; try done. cbn [holds] in *.
    revert Hf. apply known_more. intros s Hs. by apply supplier_bindings_rename.
Qed.

Lemma loadSuppliers_inv U jobUri w w' :
  well_numbered w → one_notation (store w) → thumbnails_plain (store w) →
  loadSuppliers U jobUri w = (Ok tt, w') →
  ∃ suppliers F,
    ensureSuppliersPage U = Some suppliers ∧
    inv (FNames suppliers :: F) [] w' ∧
    Forall about_suppliers F ∧
    (∀ s, s ∈ suppliers → FKnown (pretty (summary_id s)) ∈ F) ∧
    (uuids w ≤ uuids w')%nat.
Proof.
  intros Hn Hid Hth Hrun. unfold loadSuppliers in Hrun.
  destruct (ensureSuppliersPage U) as [suppliers|]; [|by rewrite bind_unfold in Hrun].
  unfold fetched in Hrun. rewrite ret_bind in Hrun.
  assert (inv [] [] w) as Hinv.
  { by split. }
  destruct (suppliers_inv [] w suppliers Hinv) as (F & w1 & Hloop & Hinv1 & HF & Hknown & _ & Hle);
    [by apply Forall_nil|].
  rewrite (bind_ok _ _ _ _ _ Hloop), update_with_store in Hrun. injection Hrun as <-.
  exists suppliers, F. split; [done|]. split; [by apply inv_renamed|]. by repeat split.
Qed.

Lemma suppliers_again suppliers w :
  Forall (λ s, holds (FKnown (pretty (summary_id s))) (store w)) suppliers →
  for_each ensure_supplier suppliers w = (Ok tt, w).
Proof.
  induction 1 as [|s suppliers Hs _ IH]; [done|]. simpl.
  by rewrite (bind_ok _ _ _ _ _ (ensure_supplier_known s w Hs)).
Qed.

Lemma loadSuppliers_again U jobUri suppliers w :
  ensureSuppliersPage U = Some suppliers →
  holds (FNames suppliers) (store w) →
  Forall (λ s, holds (FKnown (pretty (summary_id s))) (store w)) suppliers →
  ∃ w', loadSuppliers U jobUri w = (Ok tt, w') ∧ store w' = store w ∧ quiet w w'.
Proof.
  intros Hpage Hnames Hknown. exists (with_store (rename_suppliers suppliers (store w)) w).
  split; [|by split].
  unfold loadSuppliers. rewrite Hpage. unfold fetched. rewrite ret_bind.
  by rewrite (bind_ok _ _ _ _ _ (suppliers_again suppliers w Hknown)).
Qed.

(** *** What the updates decide about the job of a product *)

Definition generated_by (productUri jobUri : uri) : triple :=
  Triple productUri "prov:wasGeneratedBy" (OUri jobUri).

Definition value_ops (U : upstream) (d : product) (R : resolution) : list op :=
  [ base_op d (res_product R);
    single_op d (res_single R);
    target_op d (res_target R);
    price_op d (res_price R);
    quantity_op d (res_quantity R);
    text_op (res_product R) "food:ingredientListAsText" (ingredients_text U d);
    text_op (res_product R) "veeakker:allergensAsText" (allergens_text U d) ]
  ++ supplier_part U d R.

Lemma plan_unfold U jobUri d R :
  plan U jobUri d R
  = if ignored (supplier d) then [] else job_op (res_product R) jobUri :: value_ops U d R.
Proof. reflexivity. Qed.

(** An update that decides nothing about the job of a product. *)
Definition silent (o : op) : Prop :=
  ∀ t, pred t = "prov:wasGeneratedBy" → verdict_op o t = None.

Lemma replace_op_silent s ps ts :
  "prov:wasGeneratedBy" ∉ ps → Forall (λ x, pred x ≠ "prov:wasGeneratedBy") ts →
  silent (replace_op s ps ts).
Proof.
  intros Hps Hts t Ht. unfold verdict_op, replace_op. simpl.
  rewrite bool_decide_eq_false_2.
  - rewrite bool_decide_eq_false_2; [done|]. intros [_ H]. by rewrite Ht in H.
  - intros Hin. rewrite Forall_forall in Hts. by apply (Hts t Hin).
Qed.

Ltac silent_replace :=
  apply replace_op_silent; [decided|];
  repeat (apply Forall_cons; split; [done|]); by apply Forall_nil.

Lemma value_ops_silent U d R : Forall silent (value_ops U d R).
Proof.
  unfold value_ops. apply Forall_app. split.
  - repeat (apply Forall_cons; split;
            [first [ silent_replace
                   | unfold base_op, base_triples;
                     destruct (truthy (description d)), (bio d); simpl; silent_replace
                   | unfold text_op; destruct (truthy _); silent_replace ]|]).
    by apply Forall_nil.
  - unfold supplier_part, supplier_ops. destruct (supplier d) as [|info]; [by apply Forall_nil|].
    destruct (res_supplier R) as [s|]; [|by apply Forall_nil].
    case_bool_decide; [by apply Forall_nil|]. apply Forall_singleton. silent_replace.
Qed.

Lemma verdict_silent os t :
  Forall silent os → pred t = "prov:wasGeneratedBy" → verdict os t = None.
Proof.
  intros Hos Ht. induction Hos as [|o os Ho _ IH]; simpl; [done|]. by rewrite IH, Ho.
Qed.

Lemma verdict_job_op productUri jobUri t :
  verdict_op (job_op productUri jobUri) t
  = if bool_decide (t = generated_by productUri jobUri) then Some true else None.
Proof.
  unfold verdict_op, job_op, insert_op. simpl.
  case_bool_decide as H1; case_bool_decide as H2; try done.
  - by apply list_elem_of_singleton in H1.
  - destruct H1. by apply list_elem_of_singleton.
Qed.

(** About the job of a product, a plan decides that the product was
    generated by the job of the run, and nothing else. *)
Lemma verdict_plan_job U jobUri d R t :
  pred t = "prov:wasGeneratedBy" →
  verdict (plan U jobUri d R) t
  = if ignored (supplier d) then None
    else if bool_decide (t = generated_by (res_product R) jobUri) then Some true else None.
Proof.
  intros Ht. rewrite plan_unfold. destruct (ignored (supplier d)); [done|].
  cbn [verdict]. by rewrite (verdict_silent _ _ (value_ops_silent U d R) Ht), verdict_job_op.
Qed.

(** About anything else, the plans of two runs decide the same. *)
Lemma verdict_plan_other U j1 j2 d R t :
  pred t ≠ "prov:wasGeneratedBy" → verdict (plan U j2 d R) t = verdict (plan U j1 d R) t.
Proof.
  intros Ht. rewrite !plan_unfold. destruct (ignored (supplier d)); [done|].
  cbn [verdict]. rewrite !verdict_job_op.
  rewrite !bool_decide_eq_false_2; [done|..]; intros ->; by destruct Ht.
Qed.

Lemma all_ops_cons U jobUri r rs :
  all_ops U jobUri (r :: rs) = (plan U jobUri r.1 r.2 ++ all_ops U jobUri rs)%list.
Proof. reflexivity. Qed.

Lemma verdict_all_other U j1 j2 rs t :
  pred t ≠ "prov:wasGeneratedBy" → verdict (all_ops U j2 rs) t = verdict (all_ops U j1 rs) t.
Proof.
  intros Ht. induction rs as [|r rs IH]; [done|].
  by rewrite !all_ops_cons, !verdict_app, IH, (verdict_plan_other U j1 j2).
Qed.

Lemma verdict_all_job_true U jobUri rs t b :
  pred t = "prov:wasGeneratedBy" → verdict (all_ops U jobUri rs) t = Some b → b = true.
Proof.
  intros Ht. induction rs as [|r rs IH]; [done|].
  rewrite all_ops_cons, verdict_app. destruct (verdict (all_ops U jobUri rs) t) as [b'|].
  - intros [= <-]. by apply IH.
  - rewrite verdict_plan_job by done. destruct (ignored _); [done|].
    case_bool_decide; [|done]. by intros [= <-].
Qed.

Lemma verdict_all_job U j1 j2 rs t b :
  pred t = "prov:wasGeneratedBy" → verdict (all_ops U j2 rs) t = Some b →
  ∃ productUri, t = generated_by productUri j2 ∧
                verdict (all_ops U j1 rs) (generated_by productUri j1) = Some true.
Proof.
  intros Ht. induction rs as [|r rs IH]; [done|].
  rewrite all_ops_cons, verdict_app.
  destruct (verdict (all_ops U j2 rs) t) as [b'|] eqn:E.
  - intros [= <-]. destruct (IH eq_refl) as (P & -> & HP). exists P. split; [done|].
    by rewrite all_ops_cons, verdict_app, HP.
  - rewrite verdict_plan_job by done. destruct (ignored (supplier r.1)) eqn:Hig; [done|].
    case_bool_decide as Hedge; [|done]. intros _. exists (res_product r.2).
    split; [done|]. rewrite all_ops_cons, verdict_app.
    destruct (verdict (all_ops U j1 rs) _) as [b'|] eqn:E'.
    + f_equal.
      by apply (verdict_all_job_true U j1 rs (generated_by (res_product r.2) j1) b' eq_refl E').
    + rewrite verdict_plan_job by done. rewrite Hig. by rewrite bool_decide_eq_true_2.
Qed.

(** The updates of a run with another job are as well-formed. *)
Lemma plan_ok_job U j1 j2 d R n :
  (uri_bound j2 ≤ n)%nat → Forall (op_ok n) (plan U j1 d R) → Forall (op_ok n) (plan U j2 d R).
Proof.
  intros Hj. rewrite !plan_unfold. destruct (ignored (supplier d)); [done|].
  intros H. apply Forall_cons in H as [[_ H1] H2]. apply Forall_cons. split; [|done].
  apply Forall_cons in H1 as [H1 _]. unfold triple_bound in H1. simpl in H1.
  apply job_op_ok; lia.
Qed.

Lemma all_ops_ok_job U j1 j2 rs n :
  (uri_bound j2 ≤ n)%nat →
  Forall (op_ok n) (all_ops U j1 rs) → Forall (op_ok n) (all_ops U j2 rs).
Proof.
  intros Hj. induction rs as [|r rs IH]; [done|]. rewrite !all_ops_cons, !Forall_app.
  intros [H1 H2]. split; [by eapply plan_ok_job|by apply IH].
Qed.

(** *** Two runs *)

(** [await loadSuppliers(jobUri); await loadPages(jobUri);] *)
Definition harvest (U : upstream) (fuel : nat) (jobUri : uri) : M unit :=
  loadSuppliers U jobUri;; loadPages U fuel jobUri.

Lemma one_notation_empty : one_notation ∅.
Proof. intros n n' p i i' H. apply elem_of_product_bindings in H as (H & _). set_solver. Qed.

Lemma thumbnails_plain_empty : thumbnails_plain ∅.
Proof. intros P F th H. set_solver. Qed.

(** X1. A second run of the harvest, on the same upstream payloads,
    returns as the first did, mints no uuid and downloads no file,
    hence creates no resource; it removes no triple, and the only
    triples it adds tag products the first run tagged with its job with
    the job of the second run.  With the same job for both runs the store
    is left as it was. *)
Theorem harvest_twice U fuel j1 j2 w w1 :
  details_by_id U →
  well_numbered w → one_notation (store w) → thumbnails_plain (store w) →
  (uri_bound j1 ≤ uuids w)%nat → (uri_bound j2 ≤ uuids w1)%nat →
  harvest U fuel j1 w = (Ok tt, w1) →
  ∃ w2, harvest U fuel j2 w1 = (Ok tt, w2) ∧
        uuids w2 = uuids w1 ∧ downloads w2 = downloads w1 ∧
        store w1 ⊆ store w2 ∧
        (∀ t, t ∈ store w2 → t ∉ store w1 →
              ∃ productUri, t = generated_by productUri j2 ∧
                            generated_by productUri j1 ∈ store w1) ∧
        (j1 = j2 → store w2 = store w1).
Proof.
  intros HU Hn Hid Hth Hj1 Hj2 Hrun. unfold harvest in Hrun.
  apply bind_ok_inv in Hrun as ([] & ws & Hsup & Hpages).
  destruct (loadSuppliers_inv U j1 w ws Hn Hid Hth Hsup)
    as (suppliers & Fs & Hpage & Hinvs & HFs & Hknown & Hles).
  unfold loadPages in Hpages.
  destruct (loadPagesFrom_ok _ _ _ _ _ _ Hpages) as [ps Hps].
  rewrite (loadPagesFrom_catalog _ _ _ _ _ _ Hps) in Hpages.
  destruct (products_inv U j1 ps _ _ ws w1 HU Hinvs) as (rs & Hrs & Hinv1 & Hle1);
    [|lia|done|].
  { intros f P Hf Hs. apply elem_of_cons in Hf as [->|Hf]; [done|].
    rewrite Forall_forall in HFs. specialize (HFs f Hf). by destruct f. }
  cbn [app] in Hinv1.
  pose proof (inv_facts _ _ _ Hinv1) as Hfacts. apply Forall_app in Hfacts as [Hfacts1 Hfacts2].
  apply Forall_cons in Hfacts2 as [Hnames Hfacts2]. rewrite Forall_forall in Hfacts2.
  destruct (loadSuppliers_again U j2 suppliers w1 Hpage Hnames) as (w1' & Hsup2 & Hstore1 & Hq1).
  { apply Forall_forall. intros s Hs. by apply Hfacts2, Hknown. }
  destruct (products_again U j2 ps rs (uuids w1) w1' Hrs) as (w2 & Hpages2 & Hstore2 & Hq2).
  { by rewrite Hstore1. }
  { eapply all_ops_ok_job; [done|]. apply (inv_ops _ _ _ Hinv1). }
  rewrite Hstore1 in Hstore2.
  pose proof (inv_consistent _ _ _ Hinv1) as Hc.
  assert (∀ t, t ∈ store w2 ↔
               match verdict (all_ops U j2 rs) t with
               | Some b => b = true
               | None => t ∈ store w1
               end) as Hin.
  { intros t. rewrite Hstore2. apply elem_of_apply_ops. }
  assert (∀ t, t ∈ store w1 → t ∈ store w2) as Hkeep.
  { intros t Ht. apply Hin. destruct (verdict (all_ops U j2 rs) t) as [b|] eqn:E; [|done].
    destruct (decide (pred t = "prov:wasGeneratedBy")) as [Hp|Hp].
    - by eapply verdict_all_job_true.
    - rewrite (verdict_all_other U j1 j2) in E by done. by apply (Hc t b E). }
  assert (∀ t, t ∈ store w2 → t ∉ store w1 →
               ∃ productUri, t = generated_by productUri j2 ∧
                             generated_by productUri j1 ∈ store w1) as Hnew.
  { intros t Ht Hold. apply Hin in Ht.
    destruct (verdict (all_ops U j2 rs) t) as [b|] eqn:E; [subst b|done].
    destruct (decide (pred t = "prov:wasGeneratedBy")) as [Hp|Hp].
    - destruct (verdict_all_job U j1 j2 rs t true Hp E) as (P & -> & HP).
      exists P. split; [done|]. by apply (Hc _ true HP).
    - rewrite (verdict_all_other U j1 j2) in E by done. destruct Hold. by apply (Hc t true E). }
  exists w2. split; [|split; [|split; [|split; [|split]]]].
  - unfold harvest. rewrite (bind_ok _ _ _ _ _ Hsup2). unfold loadPages.
    by rewrite (loadPagesFrom_catalog _ _ _ _ _ _ Hps).
  - destruct Hq1 as (E1 & _), Hq2 as (E2 & _). by rewrite E2, E1.
  - destruct Hq1 as (_ & _ & E1), Hq2 as (_ & _ & E2). by rewrite E2, E1.
  - intros t. apply Hkeep.
  - exact Hnew.
  - intros <-. apply set_eq. intros t. split; [|apply Hkeep].
    intros Ht. destruct (decide (t ∈ store w1)) as [|Hold]; [done|].
    by destruct (Hnew t Ht Hold) as (P & -> & HP).
Qed.

(** *** Two runs of a small shop *)

(** The shop of the samples, whose detail page names the supplier in
    full, harvested under two jobs. *)
Definition nijswolkje : supplier_info :=
  {| supplier_name := "Het Nijswolkje";
     supplier_description := Some "Pannenkoeken van de hoeve";
     emailAddress := "hoeve@nijswolkje.example" |}.

Definition detailed_shop : upstream :=
  Sample.shop (Sample.with_supplier (SupplierInfo nijswolkje) Sample.pancakes).

Definition first_job : uri := Ext "http://veeakker.be/lfw-jobs/0b54c2d0".
Definition second_job : uri := Ext "http://veeakker.be/lfw-jobs/7f3a91e6".

Definition after_first : world := (harvest detailed_shop 1 first_job Sample.empty_world).2.

Lemma detailed_shop_by_id : details_by_id detailed_shop.
Proof.
  intros k d. unfold detailed_shop, Sample.shop. cbn [ensureProductPage].
  destruct (decide (k = 181)) as [->|]; [|done]. by intros [= <-].
Qed.

Lemma first_run_returns :
  harvest detailed_shop 1 first_job Sample.empty_world = (Ok tt, after_first).
Proof.
  assert ((harvest detailed_shop 1 first_job Sample.empty_world).1 = Ok tt) as H
    by (vm_compute; reflexivity).
  unfold after_first. destruct (harvest _ _ _ _) as [r w]. simpl in H. by subst.
Qed.

Lemma harvest_twice_witness :
  ∃ w2, harvest detailed_shop 1 second_job after_first = (Ok tt, w2) ∧
        uuids w2 = uuids after_first ∧ downloads w2 = downloads after_first ∧
        store after_first ⊆ store w2 ∧
        (∀ t, t ∈ store w2 → t ∉ store after_first →
              ∃ productUri, t = generated_by productUri second_job ∧
                            generated_by productUri first_job ∈ store after_first) ∧
        (first_job = second_job → store w2 = store after_first).
Proof.
  apply (harvest_twice detailed_shop 1 first_job second_job Sample.empty_world after_first).
  - exact detailed_shop_by_id.
  - decided.
  - exact one_notation_empty.
  - exact thumbnails_plain_empty.
  - apply Nat.le_0_l.
  - apply Nat.le_0_l.
  - exact first_run_returns.
Defined.

(** * Further properties *)

(** ** Find-or-create *)

(** [c] returns a resource, deletes nothing, and a second call returns
    the same resource and leaves the world as the first left it. *)
Definition settles (c : M uri) (w : world) : Prop :=
  ∃ u, (c w).1 = Ok u ∧ store w ⊆ store (c w).2 ∧ c (c w).2 = (Ok u, (c w).2).

Lemma ensure_linked_settles owner rel pre cls w :
  rel ∈ link_predicates → settles (ensure_linked owner rel pre cls) w.
Proof.
  intros Hrel. unfold settles.
  destruct (objects_of owner rel (store w)) as [|b bs] eqn:E.
  - rewrite (ensure_linked_created _ _ _ _ _ E). exists (Gen pre (uuids w) "").
    split; [done|]. split.
    + intros t Ht. apply elem_of_linked. by left.
    + cbn [snd]. apply (ensure_linked_found _ _ _ _ _ (OUri (Gen pre (uuids w) "")) []).
      apply objects_of_unique. intros o. rewrite elem_of_linked.
      destruct (link_not_type rel Hrel) as [Hrt Hru]. split.
      * intros [Hin|[[= ->]|[[= _ Hp _]|[= _ Hp _]]]]; [|done|by destruct Hrt|by destruct Hru].
        apply elem_of_objects_of in Hin. rewrite E in Hin. by apply elem_of_nil in Hin.
      * intros ->. right. by left.
  - rewrite (ensure_linked_found _ _ _ _ _ _ _ E). exists (binding_value b).
    split; [done|]. split; [done|]. by eapply ensure_linked_found.
Qed.

(** X2. Each of the five resolvers finds or creates: it always returns
    a resource and deletes nothing, and calling it again returns the
    same resource without changing anything, so that no second resource
    is created for the same owner. *)
Theorem resolvers_settle productUri offeringUri w :
  settles (ensureSingleUnitPriceResource productUri) w ∧
  settles (ensureTargetUnitResource productUri) w ∧
  settles (ensureOffering productUri) w ∧
  settles (ensureOfferingTypeAndQuantity offeringUri) w ∧
  settles (ensureOfferingUnitPrice offeringUri) w.
Proof. repeat split; apply ensure_linked_settles; decided. Qed.

(** ** The supplier loader *)

Lemma ensure_supplier_registers s w :
  ∃ w', ensure_supplier s w = (Ok tt, w') ∧ store w ⊆ store w' ∧
        supplier_bindings (pretty (summary_id s)) (store w') ≠ [].
Proof.
  destruct (supplier_bindings (pretty (summary_id s)) (store w)) as [|x l] eqn:E.
  - eexists. split; [by apply ensure_supplier_created|]. split.
    + intros t Ht. apply elem_of_insert_data. by left.
    + assert (Gen "http://veeakker.be/suppliers/" (uuids w) ""
              ∈ supplier_bindings (pretty (summary_id s))
                  (store (supplier_created (pretty (summary_id s)) w))) as Hs.
      { apply elem_of_supplier_bindings.
        exists (Gen "http://data.redpencil.io/identifiers/" (S (uuids w)) "").
        repeat split; apply elem_of_insert_data; right; unfold supplier_triples; cbv zeta.
        - do 5 right. left.
        - do 6 right. left.
        - do 2 right. left.
        - left. }
      intros E'. rewrite E' in Hs. by apply elem_of_nil in Hs.
  - exists w. split; [apply ensure_supplier_known; by rewrite E|]. split; [done|by rewrite E].
Qed.

Lemma supplier_bindings_mono notation g g' s :
  g ⊆ g' → s ∈ supplier_bindings notation g → s ∈ supplier_bindings notation g'.
Proof.
  intros Hsub. rewrite !elem_of_supplier_bindings. intros (i & H1 & H2 & H3 & H4).
  exists i. repeat split; by apply Hsub.
Qed.

Lemma suppliers_register suppliers w :
  ∃ w', for_each ensure_supplier suppliers w = (Ok tt, w') ∧ store w ⊆ store w' ∧
        ∀ s, s ∈ suppliers → supplier_bindings (pretty (summary_id s)) (store w') ≠ [].
Proof.
  revert w. induction suppliers as [|s suppliers IH]; intros w.
  - exists w. split; [done|]. split; [done|]. intros s Hs. by apply elem_of_nil in Hs.
  - destruct (ensure_supplier_registers s w) as (w1 & Hstep & Hsub1 & Hknown).
    destruct (IH w1) as (w' & Hrest & Hsub' & Hall).
    exists w'. split; [simpl; by rewrite (bind_ok _ _ _ _ _ Hstep)|].
    split; [by etrans|]. intros x Hx. apply elem_of_cons in Hx as [->|Hx]; [|by apply Hall].
    revert Hknown. apply known_more. intros y. by apply supplier_bindings_mono.
Qed.

(** X3. With the suppliers page at hand, [loadSuppliers] returns, and
    afterwards the lookup by external id finds an entity for every
    supplier of the page; an entity it finds for a supplier of the page
    has the names the page gives for it, and no other name.  Without
    the page it throws before it has written anything. *)
Theorem loadSuppliers_registers U jobUri w :
  match ensureSuppliersPage U with
  | Some suppliers =>
      ∃ w', loadSuppliers U jobUri w = (Ok tt, w') ∧
            (∀ s, s ∈ suppliers →
                  supplier_bindings (pretty (summary_id s)) (store w') ≠ []) ∧
            (∀ s supplierUri o,
               s ∈ suppliers →
               supplierUri ∈ supplier_bindings (pretty (summary_id s)) (store w') →
               (Triple supplierUri "gr:name" o ∈ store w' ↔
                ∃ s', s' ∈ suppliers ∧ o = OLit (LStr (summary_name s')) ∧
                      supplierUri ∈ supplier_bindings (pretty (summary_id s')) (store w')))
  | None => loadSuppliers U jobUri w = (Throw "fetch failed", w)
  end.
Proof.
  unfold loadSuppliers. destruct (ensureSuppliersPage U) as [suppliers|];
    [|by rewrite bind_unfold].
  unfold fetched. rewrite ret_bind.
  destruct (suppliers_register suppliers w) as (w1 & Hloop & _ & Hall).
  rewrite (bind_ok _ _ _ _ _ Hloop), update_with_store.
  eexists. split; [done|]. cbn [store with_store]. split.
  - intros s Hs. generalize (Hall s Hs). apply known_more. intros x.
    by rewrite supplier_bindings_rename.
  - intros s x o Hs Hx. rewrite elem_of_rename_suppliers. cbn [subj pred].
    apply supplier_bindings_rename in Hx.
    assert (named suppliers (store w1) x (summary_name s)) as Hnamed by (by exists s).
    split.
    + intros [[_ Hkeep]|(x' & n & (s' & Hs' & <- & Hx') & [= -> ->])].
      * destruct Hkeep. split; [done|]. by exists (summary_name s).
      * exists s'. split; [done|]. split; [done|]. by rewrite supplier_bindings_rename.
    + intros (s' & Hs' & -> & Hx'). right. exists x, (summary_name s'). split; [|done].
      exists s'. split; [done|]. split; [done|]. by apply supplier_bindings_rename in Hx'.
Qed.

(** ** The harvest request *)

Definition request_predicates : list string := "adms:status" :: harvest_predicates.

Lemma post_harvest_touches U fuel sessionId :
  only_touches (pred_in request_predicates) (post_harvest U fuel sessionId).
Proof.
  assert (∀ jobUri status, only_touches (pred_in request_predicates) (set_status jobUri status))
    as Hset.
  { intros jobUri status. eapply only_touches_mono; [|apply set_status_touches].
    intros t [_ Hp]. unfold pred_in. rewrite Hp. left. }
  assert (∀ c : M unit, only_touches (pred_in harvest_predicates) c →
                        only_touches (pred_in request_predicates) c) as Hharvest.
  { intros c. apply only_touches_mono. intros t Ht. by right. }
  unfold post_harvest. apply only_touches_bind; [apply only_touches_query|].
  intros [|]; [|apply only_touches_ret].
  apply only_touches_bind.
  { eapply only_touches_mono; [|apply createLoadJob_touches]. intros t.
    unfold pred_in. generalize (pred t). listed_among. }
  intros jobUri. apply only_touches_try_catch.
  - apply only_touches_bind; [|intros; apply only_touches_ret]. unfold harvest_body.
    apply only_touches_bind; [apply Hset|]. intros _.
    apply only_touches_bind; [apply Hharvest, loadSuppliers_touches|]. intros _.
    apply only_touches_bind; [apply Hharvest, loadPagesFrom_touches|]. intros _.
    apply Hset.
  - intros _. apply only_touches_bind; [apply Hset|intros; apply only_touches_ret].
Qed.

(** X4. A harvest request, whoever sends it and however it ends, leaves
    the answer of the administrator check as it was, for every
    session: it writes no account, no role and no session. *)
Theorem post_harvest_keeps_administrators U fuel sessionId session w :
  (isAdminUser session (post_harvest U fuel sessionId w).2).1 = (isAdminUser session w).1.
Proof.
  set (w' := (post_harvest U fuel sessionId w).2).
  assert (∀ t, pred t ∈ ["session:account"; "foaf:account"; "veeakker:role"] →
               (t ∈ store w' ↔ t ∈ store w)) as Hsame.
  { intros t Ht. apply post_harvest_touches. unfold pred_in. intros H. revert Ht.
    unfold request_predicates, harvest_predicates in H.
    repeat (apply elem_of_cons in H as [->|H]; [decided|]). by apply elem_of_nil in H. }
  unfold isAdminUser, query. cbn [fst]. f_equal.
  rewrite (objects_of_same _ _ (store w) (store w')) by (intros; apply Hsame; cbn [pred]; decided).
  apply bool_decide_ext. rewrite !Exists_exists.
  split; intros (account & Ha & Hp); exists account; (split; [done|]); revert Hp.
  - rewrite (subjects_of_same _ _ (store w) (store w'))
      by (intros; apply Hsame; cbn [pred]; decided).
    rewrite !Exists_exists. intros (person & Hp & Hr). exists person. split; [done|].
    revert Hr. apply Hsame. cbn [pred]. decided.
  - rewrite (subjects_of_same _ _ (store w) (store w'))
      by (intros; apply Hsame; cbn [pred]; decided).
    rewrite !Exists_exists. intros (person & Hp & Hr). exists person. split; [done|].
    revert Hr. apply Hsame. cbn [pred]. decided.
Qed.


(** ** Pictures that are removed or cannot be fetched *)

Lemma remove_old_picture_unlinks productUri g :
  objects_of productUri "veeakker:thumbnail" (remove_old_picture productUri g) = [].
Proof.
  apply objects_of_nil. intros o. rewrite elem_of_remove_old_picture. simpl. tauto.
Qed.

Lemma ensureProductPicture_none U product productUri w :
  truthy (image product) = None →
  ensureProductPicture U product productUri w
  = (Ok tt, with_store (remove_old_picture productUri (store w)) w).
Proof. intros Hurl. unfold ensureProductPicture. by rewrite Hurl, !bind_unfold. Qed.

(** The files written when a payload with image [url] is not the stored
    one and [ensureProductPicture] does not return: none, unless the
    failure is the mime type, which is looked up after the download. *)
Definition written_before_failure (U : upstream) (url : string) (w : world)
    : list (string * (nat * string)) :=
  match match_trailing ["."%char] url, match_trailing ["/"%char; ">"%char] url with
  | Some extension, Some _ =>
      if fetch_ok U url && negb (has_slash extension)
      then (url, (uuids w, extension)) :: downloads w
      else downloads w
  | _, _ => downloads w
  end.

Lemma ensureProductPicture_fails U product productUri w url :
  truthy (image product) = Some url →
  current_picture productUri url (store w) = false →
  let r := ensureProductPicture U product productUri w in
  r.1 ≠ Ok tt →
  store r.2 = remove_old_picture productUri (store w) ∧
  downloads r.2 = written_before_failure U url w.
Proof.
  intros Hurl Hcur. cbv zeta. unfold written_before_failure, ensureProductPicture.
  rewrite Hurl, bind_unfold. simpl. rewrite Hcur, bind_unfold. simpl.
  destruct (match_trailing ["."%char] url) as [extension|]; [|done].
  destruct (match_trailing ["/"%char; ">"%char] url) as [fileName|]; [|done]. simpl.
  unfold downloadShareFile. rewrite !bind_unfold. simpl.
  destruct (fetch_ok U url); [|done]. destruct (has_slash extension); [done|]. simpl.
  rewrite !bind_unfold.
  destruct (mime_getType U extension) as [mimetype|]; [|done]. simpl. by intros [].
Qed.

(** X6. When the payload has no image, or when [ensureProductPicture]
    does not return (the URL has no extension or no file name to match,
    the download fails, the file cannot be written, or [mime] does not
    know the extension), the product is left without a thumbnail: the
    store has lost the product's thumbnail edges and the allowlisted
    triples of the shares of its thumbnails, and nothing else; the old
    thumbnail files keep their triples.  No file has been written,
    unless the failure is the unknown extension, which shows after the
    download. *)
Theorem picture_removed_without_replacement U product productUri w :
  let r := ensureProductPicture U product productUri w in
  truthy (image product) = None ∨ r.1 ≠ Ok tt →
  (∀ t, t ∈ store r.2 ↔
        t ∈ store w ∧
        ¬ (pred t ∈ share_allowlist ∧
           ∃ thumbnail, Triple productUri "veeakker:thumbnail" thumbnail ∈ store w ∧
                        Triple (subj t) "nie:dataSource" thumbnail ∈ store w) ∧
        ¬ (subj t = productUri ∧ pred t = "veeakker:thumbnail")) ∧
  objects_of productUri "veeakker:thumbnail" (store r.2) = [] ∧
  match truthy (image product) with
  | None => r.1 = Ok tt ∧ downloads r.2 = downloads w
  | Some url =>
      match match_trailing ["."%char] url, match_trailing ["/"%char; ">"%char] url with
      | Some extension, Some _ =>
          if fetch_ok U url && negb (has_slash extension)
          then mime_getType U extension = None ∧
               downloads r.2 = (url, (uuids w, extension)) :: downloads w
          else downloads r.2 = downloads w
      | _, _ => downloads r.2 = downloads w
      end
  end.
Proof.
  cbv zeta. intros H.
  assert (store (ensureProductPicture U product productUri w).2
          = remove_old_picture productUri (store w)) as E.
  { destruct (truthy (image product)) as [url|] eqn:Hurl;
      [|by rewrite (ensureProductPicture_none _ _ _ _ Hurl)].
    destruct H as [[=]|H].
    destruct (current_picture productUri url (store w)) eqn:Hcur;
      [by rewrite (ensureProductPicture_same _ _ _ _ _ Hurl Hcur) in H|].
    by apply (ensureProductPicture_fails U product productUri w url Hurl Hcur). }
  split; [|split].
  - intros t. rewrite E. apply elem_of_remove_old_picture.
  - rewrite E. apply remove_old_picture_unlinks.
  - destruct (truthy (image product)) as [url|] eqn:Hurl;
      [|by rewrite (ensureProductPicture_none _ _ _ _ Hurl)].
    destruct H as [[=]|H].
    destruct (current_picture productUri url (store w)) eqn:Hcur;
      [by rewrite (ensureProductPicture_same _ _ _ _ _ Hurl Hcur) in H|].
    destruct (ensureProductPicture_fails U product productUri w url Hurl Hcur H) as [_ Hd].
    unfold written_before_failure in Hd.
    destruct (match_trailing ["."%char] url) as [extension|] eqn:Hext; [|done].
    destruct (match_trailing ["/"%char; ">"%char] url) as [fileName|] eqn:Hname; [|done].
    destruct (fetch_ok U url) eqn:Hfetch; [|done].
    destruct (has_slash extension) eqn:Hslash; [done|]. cbn [andb negb] in *.
    split; [|done].
    destruct (mime_getType U extension) as [mimetype|] eqn:Hmime; [|done].
    by rewrite (ensureProductPicture_changed _ _ _ _ _ _ _ _ Hurl Hcur Hext Hname Hfetch
                  Hslash Hmime) in H.
Qed.

(** A picture whose extension [mime] does not know: the file is written,
    the insert is not sent, and the product has lost its old thumbnail,
    whose file keeps its source. *)
Lemma picture_removed_without_replacement_witness :
  let U := Sample.shop Sample.pancakes in
  let old_file := Ext "http://veeakker.be/files/old" in
  let w := Sample.with_store
             {[ Triple Sample.product_181 "veeakker:thumbnail" (OUri old_file);
                Triple old_file "dct:source" (OUri (Ext "https://img.example/181/old.png")) ]} in
  let unknown := Sample.with_image (Some "https://img.example/181/c03.qqq") Sample.pancakes in
  let r := ensureProductPicture U unknown Sample.product_181 w in
  r.1 = Throw "TypeError: Cannot read properties of null" ∧
  objects_of Sample.product_181 "veeakker:thumbnail" (store r.2) = [] ∧
  Triple old_file "dct:source" (OUri (Ext "https://img.example/181/old.png")) ∈ store r.2 ∧
  downloads r.2 = [("https://img.example/181/c03.qqq", (0%nat, "qqq"))].
Proof.
  intros U old_file w unknown.
  destruct (picture_removed_without_replacement U unknown Sample.product_181 w)
    as (H1 & H2 & _ & H3).
  - right. vm_compute. discriminate.
  - split; [vm_compute; reflexivity|]. split; [exact H2|]. split; [|exact H3].
    apply H1. split; [decided|]. split.
    + intros [_ (thumbnail & _ & Hs)]. unfold w in Hs.
      cbn [store Sample.with_store] in Hs. set_unfold in Hs.
      by repeat destruct Hs as [Hs|Hs].
    + intros [H _]. discriminate H.
Defined.

(** ** Values that are replaced *)

(** After a replace of the predicates [ps] of [s], what [s] has for a
    predicate of [ps] is what [ts] gives it. *)
Lemma replaced_values s ps ts g p o :
  p ∈ ps →
  Triple s p o ∈ insert_data ts (delete_preds s ps g) ↔ Triple s p o ∈ ts.
Proof.
  intros Hp. rewrite elem_of_insert_data, elem_of_delete_preds. simpl. tauto.
Qed.

(** X7. [loadProductSupplier] always returns.  With no supplier of the
    payload's name in the store it changes nothing; otherwise the first
    supplier of that name gets the payload's e-mail address and
    description as its only ones and is linked to the offering, and
    nothing else changes: its other offerings stay. *)
Theorem loadProductSupplier_updates U offeringUri info w :
  let r := loadProductSupplier U offeringUri info w in
  let description :=
    OLit (LStr (sanitize U (replace_newlines (or_empty (supplier_description info))))) in
  r.1 = Ok tt ∧
  match head (subjects_of "gr:name" (OLit (LStr (supplier_name info))) (store w)) with
  | None => r.2 = w
  | Some supplierUri =>
      if bool_decide (supplierUri = Ext "") then r.2 = w
      else
        objects_of supplierUri "schema:email" (store r.2)
          = [OLit (LStr (emailAddress info))] ∧
        objects_of supplierUri "dct:description" (store r.2) = [description] ∧
        Triple supplierUri "gr:offers" (OUri offeringUri) ∈ store r.2 ∧
        (∀ t, ¬ (subj t = supplierUri ∧
                 pred t ∈ ["schema:email"; "dct:description"; "gr:offers"]) →
              (t ∈ store r.2 ↔ t ∈ store w)) ∧
        (∀ o, Triple supplierUri "gr:offers" o ∈ store w →
              Triple supplierUri "gr:offers" o ∈ store r.2)
  end.
Proof.
  cbv zeta. unfold loadProductSupplier. rewrite !bind_unfold. cbn [query fst snd].
  destruct (head (subjects_of _ _ _)) as [s|]; [|done].
  case_bool_decide as Hs; [done|]. split; [done|]. cbn [update fst snd store].
  split; [|split; [|split; [|split]]].
  - apply objects_of_unique. intros o. rewrite replaced_values by decided.
    rewrite !elem_of_cons, elem_of_nil. split; [|intros ->; by left].
    by intros [[=]|[[=]|[[=]|[]]]].
  - apply objects_of_unique. intros o. rewrite replaced_values by decided.
    rewrite !elem_of_cons, elem_of_nil. split; [|intros ->; right; by left].
    by intros [[=]|[[=]|[[=]|[]]]].
  - apply elem_of_insert_data. right. do 2 right. left.
  - intros t Ht. rewrite elem_of_insert_data, elem_of_delete_preds. split.
    + intros [[? _]|H]; [done|]. destruct Ht.
      repeat (apply elem_of_cons in H as [->|H]; [split; [done|cbn [pred]; decided]|]).
      by apply elem_of_nil in H.
    + intros Hin. left. split; [done|]. intros [Hsub Hp]. apply Ht. split; [done|].
      revert Hp. generalize (pred t). listed_among.
  - intros o Ho. apply elem_of_insert_data. left. apply elem_of_delete_preds.
    split; [done|]. cbn [subj pred]. intros [_ Hp]. revert Hp. decided.
Qed.

(** X8. After [ensureBaseProductInfo] the product has, for each of the
    six base predicates, the values of the payload and no older one:
    one title (the empty text for a payload without name), the
    description only if the payload has a non-empty one, the LFW label,
    and the bio label exactly when the payload says bio.  Triples of
    other subjects or predicates are left alone. *)
Theorem ensureBaseProductInfo_replaces product productUri w :
  let r := ensureBaseProductInfo product productUri w in
  let bio_label := OUri (Ext "http://veeakker.be/labels/bio") in
  r.1 = Ok tt ∧
  (∀ p o, p ∈ base_allowlist →
          (Triple productUri p o ∈ store r.2 ↔ Triple productUri p o ∈ base_triples product productUri)) ∧
  objects_of productUri "dct:title" (store r.2) = [OLit (LStr (or_empty (name product)))] ∧
  objects_of productUri "dct:description" (store r.2)
    = match truthy (description product) with
      | Some d => [OLit (LStr d)]
      | None => []
      end ∧
  Triple productUri "veeakker:hasLabel" (OUri (Ext "http://veeakker.be/labels/lfw")) ∈ store r.2 ∧
  (Triple productUri "veeakker:hasLabel" bio_label ∈ store r.2 ↔ bio product = true) ∧
  (∀ t, ¬ (subj t = productUri ∧ pred t ∈ base_allowlist) → (t ∈ store r.2 ↔ t ∈ store w)).
Proof.
  cbv zeta. unfold ensureBaseProductInfo. cbn [update fst snd store].
  assert (∀ p o, p ∈ base_allowlist →
            (Triple productUri p o ∈ insert_data (base_triples product productUri)
                                      (delete_preds productUri base_allowlist (store w))
             ↔ Triple productUri p o ∈ base_triples product productUri)) as Hvalues.
  { intros p o Hp. by apply replaced_values. }
  split; [done|]. split; [exact Hvalues|]. split; [|split; [|split; [|split]]].
  - apply objects_of_unique. intros o. rewrite Hvalues by decided. unfold base_triples.
    destruct (truthy (description product)), (bio product); simpl;
      rewrite !elem_of_cons, elem_of_nil; (split; [|intros ->; by left]);
      intros H; repeat (destruct H as [H|H]; [by injection H|]); done.
  - destruct (truthy (description product)) as [d|] eqn:Hd.
    + apply objects_of_unique. intros o. rewrite Hvalues by decided. unfold base_triples.
      rewrite Hd. destruct (bio product); simpl;
        rewrite !elem_of_cons, elem_of_nil; (split; [|intros ->; right; by left]);
        intros H; repeat (destruct H as [H|H]; [by injection H|]); done.
    + apply objects_of_nil. intros o. rewrite Hvalues by decided. unfold base_triples.
      rewrite Hd. destruct (bio product); simpl;
        rewrite !elem_of_cons, elem_of_nil;
        intros H; repeat (destruct H as [H|H]; [by injection H|]); done.
  - rewrite Hvalues by decided. unfold base_triples.
    destruct (truthy (description product)); simpl; rewrite !elem_of_cons; tauto.
  - rewrite Hvalues by decided. unfold base_triples.
    destruct (truthy (description product)), (bio product); simpl;
      rewrite !elem_of_cons, elem_of_nil; (split; [|try done; tauto]);
      intros H; repeat (destruct H as [H|H]; [by injection H|]); done.
  - intros t Ht. rewrite elem_of_insert_data, elem_of_delete_preds. split; [|tauto].
    intros [[? _]|H]; [done|]. destruct Ht.
    pose proof (base_triples_pred_in product productUri) as Hall.
    rewrite Forall_forall in Hall. split; [|by apply Hall].
    revert H. unfold base_triples.
    destruct (truthy (description product)), (bio product); simpl;
      rewrite !elem_of_cons, elem_of_nil;
      intros H; repeat (destruct H as [->|H]; [done|]); done.
Qed.

(** ** The offering of a product *)



(** ** Ingredient and allergen texts *)

Lemma html_list_truthy items : truthy (Some (html_list items)) = Some (html_list items).
Proof. reflexivity. Qed.

(** X16. After [ensureProductIngredients] the product has one
    ingredient text when the payload has an ingredient list, even an
    empty one: the HTML list of the sanitized names in order of
    position, in place of any older text; it has none when the payload
    has no list.  Likewise for allergens, in order of id. *)
Theorem ingredient_texts_replaced U product productUri w :
  objects_of productUri "food:ingredientListAsText"
    (store (ensureProductIngredients U product productUri w).2)
  = match ingredients product with
    | Some l =>
        [OLit (LStr (html_list (sanitize U <$> (ingredient_name <$> sort_by position l))))]
    | None => []
    end ∧
  objects_of productUri "veeakker:allergensAsText"
    (store (ensureProductAllergens U product productUri w).2)
  = match allergens product with
    | Some a =>
        [OLit (LStr (html_list (sanitize U <$> (allergen_name <$> sort_by allergen_id a))))]
    | None => []
    end.
Proof.
  split.
  - unfold ensureProductIngredients. cbv zeta.
    destruct (ingredients product) as [l|]; cbn [fmap option_fmap option_map].
    + rewrite html_list_truthy. cbn [update snd store].
      apply objects_of_unique. intros o. rewrite replaced_values by decided.
      rewrite list_elem_of_singleton. split; [by intros [= ->]|by intros ->].
    + cbn [truthy update snd store]. apply objects_of_nil. intros o.
      rewrite elem_of_delete_preds. cbn [subj pred]. intros [_ H]. apply H.
      split; [done|]. by apply list_elem_of_singleton.
  - unfold ensureProductAllergens. cbv zeta.
    destruct (allergens product) as [a|]; cbn [fmap option_fmap option_map].
    + rewrite html_list_truthy. cbn [update snd store].
      apply objects_of_unique. intros o. rewrite replaced_values by decided.
      rewrite list_elem_of_singleton. split; [by intros [= ->]|by intros ->].
    + cbn [truthy update snd store]. apply objects_of_nil. intros o.
      rewrite elem_of_delete_preds. cbn [subj pred]. intros [_ H]. apply H.
      split; [done|]. by apply list_elem_of_singleton.
Qed.

(** ** Text helpers *)


Lemma insert_by_perm {A} (key : A → Z) x l : insert_by key x l ≡ₚ x :: l.
Proof.
  induction l as [|y l IH]; simpl; [done|].
  destruct (key x <=? key y)%Z; [done|]. rewrite IH. apply Permutation_swap.
Qed.

Lemma insert_by_sorted {A} (key : A → Z) x l :
  StronglySorted (λ a b, (key a ≤ key b)%Z) l →
  StronglySorted (λ a b, (key a ≤ key b)%Z) (insert_by key x l).
Proof.
  induction 1 as [|y l Hl IH Hy]; simpl; [by repeat constructor|].
  destruct (key x <=? key y)%Z eqn:E.
  - apply Z.leb_le in E. constructor; [by constructor|]. constructor; [done|].
    eapply Forall_impl; [exact Hy|]. simpl. intros. lia.
  - apply Z.leb_gt in E. constructor; [done|].
    rewrite (insert_by_perm key x l). constructor; [lia|done].
Qed.

Lemma insert_by_stable {A} (key : A → Z) x l k :
  filter (λ a, key a = k) (insert_by key x l) = filter (λ a, key a = k) (x :: l).
Proof.
  induction l as [|y l IH]; simpl; [done|].
  destruct (key x <=? key y)%Z eqn:E; [done|]. apply Z.leb_gt in E.
  rewrite (filter_cons _ y), IH, !(filter_cons _ x), (filter_cons _ y).
  destruct (decide (key x = k)), (decide (key y = k)); try done. lia.
Qed.

(** X10. The sort that orders ingredients by position and allergens by
    id gives the same items, in ascending order of the key, and keeps
    the payload's order among items with the same key. *)
Theorem sort_by_sorts {A} (key : A → Z) (l : list A) :
  sort_by key l ≡ₚ l ∧
  StronglySorted (λ a b, (key a ≤ key b)%Z) (sort_by key l) ∧
  ∀ k, filter (λ a, key a = k) (sort_by key l) = filter (λ a, key a = k) l.
Proof.
  unfold sort_by. induction l as [|x l (IH1 & IH2 & IH3)]; simpl.
  - split; [done|]. split; [constructor|done].
  - split; [by rewrite insert_by_perm, IH1|]. split; [by apply insert_by_sorted|].
    intros k. by rewrite insert_by_stable, !filter_cons, IH3.
Qed.

Lemma string_app_cons c s t : String c s ++ t = String c (s ++ t).
Proof. reflexivity. Qed.

Lemma string_app_assoc (s t u : string) : (s ++ t) ++ u = s ++ (t ++ u).
Proof. induction s as [|c s IH]; [done|]. by rewrite !string_app_cons, IH. Qed.

Lemma string_app_nil_r (s : string) : s ++ "" = s.
Proof. induction s as [|c s IH]; [done|]. by rewrite string_app_cons, IH. Qed.

Lemma string_of_list_ascii_app l1 l2 :
  String.string_of_list_ascii (l1 ++ l2)
  = String.string_of_list_ascii l1 ++ String.string_of_list_ascii l2.
Proof. induction l1 as [|c l1 IH]; [done|]. simpl. by rewrite IH. Qed.

(** The run kept by the fold of [trailing_run]: everything, while no
    excluded character was met; else what follows the last one. *)
Lemma trailing_fold (excluded : list ascii) l acc :
  let step := λ (acc : string) (c : ascii),
                if bool_decide (c ∈ excluded) then "" else acc ++ String c "" in
  (Forall (λ c, c ∉ excluded) l ∧
   fold_left step l acc = acc ++ String.string_of_list_ascii l) ∨
  (∃ l1 c l2, l = (l1 ++ c :: l2)%list ∧ c ∈ excluded ∧ Forall (λ c, c ∉ excluded) l2 ∧
              fold_left step l acc = String.string_of_list_ascii l2).
Proof.
  intros step. revert acc. induction l as [|a l IH]; intros acc.
  - left. split; [constructor|]. simpl. by rewrite string_app_nil_r.
  - simpl. unfold step at 2 4. case_bool_decide as Ha.
    + right. destruct (IH "") as [[Hall E]|(l1 & c & l2 & -> & Hc & Hall & E)].
      * exists [], a, l. by rewrite E.
      * exists (a :: l1), c, l2. by rewrite E.
    + destruct (IH (acc ++ String a "")) as [[Hall E]|(l1 & c & l2 & -> & Hc & Hall & E)].
      * left. split; [by constructor|]. rewrite E. by rewrite string_app_assoc.
      * right. exists (a :: l1), c, l2. by rewrite E.
Qed.

(** X11. The match of [/[^...]+$/] taken as extension and as file
    name: the text after the last excluded character, which is not
    empty and has no excluded character; there is no match for the
    empty text and for a text that ends in an excluded character (where
    [match(...)[0]] throws). *)
Theorem match_trailing_is_last_run (excluded : list ascii) s :
  match match_trailing excluded s with
  | Some t =>
      t ≠ "" ∧
      Forall (λ c, c ∉ excluded) (String.list_ascii_of_string t) ∧
      ∃ before, s = before ++ t ∧
                (before = "" ∨ ∃ before' c, before = before' ++ String c "" ∧ c ∈ excluded)
  | None => s = "" ∨ ∃ before c, s = before ++ String c "" ∧ c ∈ excluded
  end.
Proof.
  unfold match_trailing, trailing_run, truthy.
  pose proof (String.string_of_list_ascii_of_string s) as Hs.
  destruct (trailing_fold excluded (String.list_ascii_of_string s) "")
    as [[Hall E]|(l1 & c & l2 & El & Hc & Hall & E)]; cbv zeta in E; rewrite E.
  - change ("" ++ ?x) with x. rewrite Hs.
    destruct (String.eqb s "") eqn:Es; [left; by apply String.eqb_eq|].
    apply String.eqb_neq in Es. split; [done|]. split; [done|]. exists "". by split; [|left].
  - assert (s = (String.string_of_list_ascii l1 ++ String c "")
                ++ String.string_of_list_ascii l2) as Hsplit.
    { rewrite <- Hs, El, string_of_list_ascii_app. simpl.
      by rewrite string_app_assoc. }
    destruct (String.eqb (String.string_of_list_ascii l2) "") eqn:Es.
    + apply String.eqb_eq in Es. right. exists (String.string_of_list_ascii l1), c.
      split; [|done]. by rewrite Hsplit, Es, string_app_nil_r.
    + apply String.eqb_neq in Es. split; [done|]. split.
      * by rewrite String.list_ascii_of_string_of_list_ascii.
      * eexists. split; [exact Hsplit|]. right. by eexists _, _.
Qed.

(** ** The job and the page walk *)

(** X12. From [startJob] until [finishJob] or [errorJob] the job the
    harvest runs under has one status, running: the supplier loader and
    the page walk leave it alone, whether they return, throw or are cut
    off. *)
Theorem job_running_during_harvest U fuel jobUri w :
  let r := (startJob jobUri;; loadSuppliers U jobUri;; loadPages U fuel jobUri) w in
  objects_of jobUri "adms:status" (store r.2) = [status_running].
Proof.
  cbv zeta. rewrite bind_unfold.
  pose proof (set_status_objects jobUri status_running w) as Hset.
  unfold startJob. destruct (set_status jobUri status_running w) as [[[]|e|] w1] eqn:E;
    [|by rewrite set_status_spec in E..].
  rewrite <- Hset. apply objects_of_same. intros o. cbn [snd]. by apply harvest_keeps_status.
Qed.

(** X13. [loadPages] loads the products of the pages in the order of
    the pages and of their listing, each with its detail page and
    under the job, up to the first page flagged as the last: later
    pages are not asked for.  When one of these pages cannot be
    fetched (or they are more than the walk is given room for), it
    does not return. *)
Theorem loadPages_walks_catalog U fuel jobUri w :
  match catalog U fuel 0 with
  | Some products =>
      loadPages U fuel jobUri w
      = for_each (λ p, loadProduct U p {| external := true; job := Some jobUri |}) products w
  | None => (loadPages U fuel jobUri w).1 ≠ Ok tt
  end.
Proof.
  destruct (catalog U fuel 0) as [ps|] eqn:E.
  - by apply loadPagesFrom_catalog.
  - unfold loadPages. destruct (loadPagesFrom U fuel jobUri 0 w) as [[[]|e|] w'] eqn:Hrun;
      [|done|done].
    destruct (loadPagesFrom_ok _ _ _ _ _ _ Hrun) as [ps Hps]. by rewrite E in Hps.
Qed.

(** ** A product that fails *)





(** * The page cache *)

(** [fetch] answers with a body or rejects; [JSON.parse] reads a text or
    throws.  Writing a file is taken to succeed. *)
Module Cache.

(** The files under [/page-cache] and the URLs asked of the upstream
    API, newest first. *)
Record disk := {
  files : gmap string string;
  fetches : list string }.

Definition STORE_ID : Z := 2927.
Definition PICKUP_POINT_ID : Z := 563.

(** [page = 0] and [pageSize = 36] when the caller leaves them out. *)
Definition visibleProductsUrl (storeId pickupPointId : Z) (page pageSize : option nat)
    : string :=
  "https://api.localfoodworks.eu/api/store/" ++ pretty storeId
  ++ "/visible-products?size=" ++ pretty (default 36%nat pageSize)
  ++ "&sort=name,asc&pickUpPointId=" ++ pretty pickupPointId
  ++ "&page=" ++ pretty (default 0%nat page).

Definition page_file (pageNumber : nat) : string :=
  "/page-cache/" ++ pretty pageNumber ++ ".json".
Definition product_file (productId : Z) : string :=
  "/page-cache/product-" ++ pretty productId ++ ".json".
Definition suppliers_file (storeId : Z) : string :=
  "/page-cache/shop-" ++ pretty storeId ++ "-suppliers.json".

Section Pages.

Context {json : Type}.
Variable JSON_parse : string → option json.
Variable JSON_stringify : json → string.
Variable fetch : string → option string.

(** [try { return JSON.parse(fs.readFileSync(filePath)) }
     catch (e) { fetch, parse, write, return }] *)
Definition cachedJSONPage (url filePath : string) (d : disk) : outcome json * disk :=
  match files d !! filePath ≫= JSON_parse with
  | Some page => (Ok page, d)
  | None =>
      let asked := {| files := files d; fetches := url :: fetches d |} in
      match fetch url with
      | None => (Throw "fetch failed", asked)
      | Some body =>
          match JSON_parse body with
          | None => (Throw "SyntaxError: Unexpected token", asked)
          | Some jsonBody =>
              (Ok jsonBody,
               {| files := <[filePath := JSON_stringify jsonBody]> (files d);
                  fetches := url :: fetches d |})
          end
      end
  end.

Definition ensurePage (pageNumber : nat) : disk → outcome json * disk :=
  cachedJSONPage (visibleProductsUrl STORE_ID PICKUP_POINT_ID (Some pageNumber) None)
                 (page_file pageNumber).

Definition ensureProductPage (storeId productId : Z) : disk → outcome json * disk :=
  cachedJSONPage ("https://api.localfoodworks.eu/api/store/" ++ pretty storeId
                  ++ "/products/" ++ pretty productId)
                 (product_file productId).

Definition ensureSuppliersPage (storeId : Z) : disk → outcome json * disk :=
  cachedJSONPage ("https://api.localfoodworks.eu/api/store/" ++ pretty storeId ++ "/suppliers")
                 (suppliers_file storeId).

End Pages.

End Cache.

(** ** What the cache keeps *)

(** X14. Once a page was returned, from the file or from the upstream
    API, every later request for the same file returns that page and
    leaves files and fetches as they are: the upstream API is not asked
    again, whatever it would answer by then.  (What [JSON.stringify]
    writes, [JSON.parse] reads back.) *)
Theorem cached_page_is_kept {json} (JSON_parse : string → option json)
    (JSON_stringify : json → string) (fetch fetch' : string → option string)
    (url url' filePath : string) (d d' : Cache.disk) (page : json) :
  (∀ j, JSON_parse (JSON_stringify j) = Some j) →
  Cache.cachedJSONPage JSON_parse JSON_stringify fetch url filePath d = (Ok page, d') →
  Cache.cachedJSONPage JSON_parse JSON_stringify fetch' url' filePath d' = (Ok page, d').
Proof.
  intros Hjson. unfold Cache.cachedJSONPage.
  destruct (Cache.files d !! filePath ≫= JSON_parse) as [j|] eqn:E.
  - intros [= <- <-]. by rewrite E.
  - destruct (fetch url) as [body|]; [|done].
    destruct (JSON_parse body) as [j|]; [|done]. intros [= <- <-]. simpl.
    by rewrite lookup_insert_eq; simpl; rewrite Hjson.
Qed.

Lemma cached_page_is_kept_witness :
  let d := {| Cache.files := ∅; Cache.fetches := [] |} in
  let r := Cache.ensurePage Some (λ s, s) (λ _, Some "{}") 0 d in
  r.1 = Ok "{}" ∧
  Cache.ensurePage Some (λ s, s) (λ _, None) 0 r.2 = (Ok "{}", r.2).
Proof.
  intros d r. split; [reflexivity|].
  apply (cached_page_is_kept Some (λ s, s) (λ _, Some "{}") (λ _, None)
           (Cache.visibleProductsUrl Cache.STORE_ID Cache.PICKUP_POINT_ID (Some 0%nat) None)
           (Cache.visibleProductsUrl Cache.STORE_ID Cache.PICKUP_POINT_ID (Some 0%nat) None)
           (Cache.page_file 0) d).
  - reflexivity.
  - reflexivity.
Defined.

(** ** Cache files *)

Lemma list_ascii_of_string_app (s t : string) :
  String.list_ascii_of_string (s ++ t)
  = (String.list_ascii_of_string s ++ String.list_ascii_of_string t)%list.
Proof. induction s as [|c s IH]; [done|]. rewrite string_app_cons. simpl. by rewrite IH. Qed.

Lemma string_app_inv_tail (s1 s2 t : string) : s1 ++ t = s2 ++ t → s1 = s2.
Proof.
  intros H. apply (f_equal String.list_ascii_of_string) in H.
  rewrite !list_ascii_of_string_app in H. apply app_inv_tail in H.
  by rewrite <- (String.string_of_list_ascii_of_string s1),
             <- (String.string_of_list_ascii_of_string s2), H.
Qed.

(** A text that starts with a decimal digit. *)
Definition numeral (s : string) : Prop :=
  match s with
  | String c _ => Ascii.is_nat c ≠ None
  | EmptyString => False
  end.

Lemma pretty_N_char_digit x : Ascii.is_nat (pretty_N_char x) ≠ None.
Proof. unfold pretty_N_char. by repeat case_match. Qed.

Lemma pretty_N_go_numeral x s : numeral s → numeral (pretty_N_go x s).
Proof.
  revert s. induction (N.lt_wf_0 x) as [x _ IH]; intros s Hs.
  assert (x = 0 ∨ 0 < x)%N as [->|Hx] by lia; [by rewrite pretty_N_go_0|].
  rewrite pretty_N_go_step by done. apply IH; [by apply N.div_lt|].
  apply pretty_N_char_digit.
Qed.

Lemma pretty_N_numeral (x : N) : numeral (pretty x).
Proof.
  unfold pretty, pretty_N. case_decide as Hx; [done|].
  rewrite pretty_N_go_step by lia. apply pretty_N_go_numeral, pretty_N_char_digit.
Qed.

Lemma pretty_nat_numeral (n : nat) : numeral (pretty n).
Proof. apply pretty_N_numeral. Qed.

Lemma numeral_app s t : numeral s → numeral (s ++ t).
Proof. by destruct s. Qed.

(** X15. The cache keeps each page, each product and the suppliers of
    each store in a file of its own: two pages, or two products, or two
    stores, share a file only if they are the same, and a file of one
    kind is never a file of another kind. *)
Theorem cache_files_are_distinct :
  Inj (=) (=) Cache.page_file ∧
  Inj (=) (=) Cache.product_file ∧
  Inj (=) (=) Cache.suppliers_file ∧
  (∀ pageNumber productId, Cache.page_file pageNumber ≠ Cache.product_file productId) ∧
  (∀ pageNumber storeId, Cache.page_file pageNumber ≠ Cache.suppliers_file storeId) ∧
  (∀ productId storeId, Cache.product_file productId ≠ Cache.suppliers_file storeId).
Proof.
  unfold Cache.page_file, Cache.product_file, Cache.suppliers_file.
  split; [|split; [|split; [|split; [|split]]]].
  - intros n m H. apply (inj (String.app _)) in H. apply string_app_inv_tail in H.
    by apply (inj pretty) in H.
  - intros i j H. apply (inj (String.app _)) in H. apply string_app_inv_tail in H.
    by apply (inj pretty) in H.
  - intros i j H. apply (inj (String.app _)) in H. apply string_app_inv_tail in H.
    by apply (inj pretty) in H.
  - intros n i H.
    change ("/page-cache/product-" ++ ?x) with ("/page-cache/" ++ ("product-" ++ x)) in H.
    apply (inj (String.app _)) in H.
    pose proof (numeral_app _ ".json" (pretty_nat_numeral n)) as Hn. rewrite H in Hn.
    by apply Hn.
  - intros n i H.
    change ("/page-cache/shop-" ++ ?x) with ("/page-cache/" ++ ("shop-" ++ x)) in H.
    apply (inj (String.app _)) in H.
    pose proof (numeral_app _ ".json" (pretty_nat_numeral n)) as Hn. rewrite H in Hn.
    by apply Hn.
  - intros i j H.
    change ("/page-cache/product-" ++ ?x) with ("/page-cache/" ++ ("product-" ++ x)) in H.
    change ("/page-cache/shop-" ++ ?x) with ("/page-cache/" ++ ("shop-" ++ x)) in H.
    apply (inj (String.app _)) in H. discriminate H.
Qed.

(** ** The product-level price *)

(** X18. For a payload whose unit the converter knows,
    [ensureProductDefaultPricing] returns, and afterwards the
    single-unit price node has the converted unit as its only unit and
    the target-unit node has one unit and one value, the ratio of the
    payload: older units and values are replaced (only the currency
    value of the price node is not, its delete being misspelled). *)
Theorem ensureProductDefaultPricing_replaces_units product productUri w u :
  convertLfwUnitToCEFACT (measure product) = Ok u →
  ∃ single target w',
    ensureProductDefaultPricing product productUri w = (Ok tt, w') ∧
    Exists (λ b, binding_value b = single)
           (objects_of productUri "veeakker:singleUnitPrice" (store w')) ∧
    Exists (λ b, binding_value b = target)
           (objects_of productUri "veeakker:targetUnit" (store w')) ∧
    objects_of single "gr:hasUnitOfMeasurement" (store w') = [OLit (LStr u)] ∧
    objects_of target "gr:hasUnitOfMeasurement" (store w') = [OLit (LStr u)] ∧
    objects_of target "gr:hasValue" (store w')
      = [OLit (LDec (measurementUnitVsOrderUnitRatio (pricing product)))].
Proof.
  intros Hu. unfold ensureProductDefaultPricing. cbv zeta.
  unfold ensureSingleUnitPriceResource, ensureTargetUnitResource.
  destruct (ensure_linked_spec productUri "veeakker:singleUnitPrice"
              "http://veeakker.be/price-specifications/" "gr:UnitPriceSpecification" w)
    as (single & w1 & H1 & _ & _ & Hs).
  destruct (ensure_linked_spec productUri "veeakker:targetUnit"
              "http://veeakker.be/quantitative-values/" "gr:QuantitativeValue" w1)
    as (target & w2 & H2 & Hsub & Hnew & Ht).
  rewrite (bind_ok _ _ _ _ _ H1), (bind_ok _ _ _ _ _ H2).
  rewrite lift_bind. fold (measure product). rewrite Hu.
  rewrite update_bind, lift_bind, update_with_store. cbn [store with_store].
  exists single, target. eexists. split; [reflexivity|]. cbn [store with_store].
  assert (∀ rel o, rel ∈ ["veeakker:singleUnitPrice"; "veeakker:targetUnit"] →
            Triple productUri rel o ∈ store w2 →
            Triple productUri rel o
            ∈ insert_data
                [Triple target "gr:hasUnitOfMeasurement" (OLit (LStr u));
                 Triple target "gr:hasValue"
                   (OLit (LDec (measurementUnitVsOrderUnitRatio (pricing product))))]
                (delete_preds target ["gr:hasUnitOfMeasurement"; "gr:hasValue"]
                   (insert_data
                      [Triple single "gr:hasUnitOfMeasurement" (OLit (LStr u));
                       Triple single "gr:hasCurrencyValue"
                         (OLit (LDec (money_amount
                                        (measurementUnitPrice (consumerPrice (pricing product))))))]
                      (delete_preds single ["gr:hasUnitOfMeasurement"; "gr:hascurrencyValue"]
                         (store w2))))) as Hkept.
  { intros rel o Hrel Hin. apply elem_of_insert_data. left. apply elem_of_delete_preds.
    split; [|cbn [pred]; intros [_ H]; revert H Hrel; generalize rel; listed_among].
    apply elem_of_insert_data. left. apply elem_of_delete_preds.
    split; [done|]. cbn [pred]. intros [_ H]. revert H Hrel. generalize rel. listed_among. }
  split; [|split; [|split; [|split]]].
  - apply Exists_exists in Hs as (b & Hb & Eb). apply Exists_exists. exists b.
    split; [|done]. apply elem_of_objects_of in Hb. apply elem_of_objects_of.
    apply Hkept; [decided|]. by apply Hsub.
  - apply Exists_exists in Ht as (b & Hb & Eb). apply Exists_exists. exists b.
    split; [|done]. apply elem_of_objects_of in Hb. apply elem_of_objects_of.
    by apply Hkept; [decided|].
  - apply objects_of_unique. intros o.
    rewrite elem_of_insert_data, elem_of_delete_preds, replaced_values by decided.
    cbn [subj pred]. rewrite !elem_of_cons, !elem_of_nil. split.
    + intros [[[[= ->]|[[=]|[]]] _]|[[= _ ->]|[[=]|[]]]]; done.
    + intros ->. destruct (decide (single = target)) as [->|Hne]; [right; by left|].
      left. split; [by left|]. by intros [? _].
  - apply objects_of_unique. intros o. rewrite replaced_values by decided.
    rewrite !elem_of_cons, !elem_of_nil. split; [|intros ->; by left].
    by intros [[= ->]|[[=]|[]]].
  - apply objects_of_unique. intros o. rewrite replaced_values by decided.
    rewrite !elem_of_cons, !elem_of_nil. split; [|intros ->; right; by left].
    by intros [[=]|[[= ->]|[]]].
Qed.

Lemma ensureProductDefaultPricing_replaces_units_witness :
  ∃ single target w',
    ensureProductDefaultPricing (Sample.with_unit "kg" Sample.pancakes) Sample.product_181
      Sample.empty_world = (Ok tt, w') ∧
    Exists (λ b, binding_value b = single)
           (objects_of Sample.product_181 "veeakker:singleUnitPrice" (store w')) ∧
    Exists (λ b, binding_value b = target)
           (objects_of Sample.product_181 "veeakker:targetUnit" (store w')) ∧
    objects_of single "gr:hasUnitOfMeasurement" (store w') = [OLit (LStr "KGM")] ∧
    objects_of target "gr:hasUnitOfMeasurement" (store w') = [OLit (LStr "KGM")] ∧
    objects_of target "gr:hasValue" (store w') = [OLit (LDec 1)].
Proof.
  apply (ensureProductDefaultPricing_replaces_units
           (Sample.with_unit "kg" Sample.pancakes) Sample.product_181 Sample.empty_world).
  reflexivity.
Defined.
